(** * Balance aggregation of the dashboard page

    Shallow embedding of the balance / settlement computation performed
    by [DashboardPage.fetchData]
    (src/project/src/pages/SettingsPage.tsx, lines 193-277), and the
    properties the specification states about it.

    Modelling choices.
    - A JavaScript [number] is modelled by [num]: the rational value
      ([Qc]) of a finite binary64 number, or one of the three IEEE
      special values.  The operations [+], [-], [*] and [/] round
      their exact result to binary64, to nearest with ties to even
      ([round64]), and overflow to an infinity.  The two zeros are one
      value: the code never divides by a computed zero and never prints
      one, so their sign is not observable.
    - The numeric fields of the rows ([amount], [split.amount]) are
      decoded from JSON numbers of the data service: they are finite
      binary64 numbers, of type [double].
    - A JavaScript string is a Rocq [string]; a character stands for
      one code unit below 256.
    - [Map<string, number>] is an association list in insertion order:
      [Map.prototype.forEach] visits entries in that order, and the
      order of the settlement list depends on it.

    The development then covers the code around that pass: the monthly
    chart and [formatDate] of the same page, the summaries and the form
    of the personal expenses page, the member list and the submit of
    the groups page, and the custom-split form of the expenses page
    with [parseFloat].  What reaches out of the program (the clock, the
    locale, the date parser, the tables of the data service) is a
    parameter or an outcome value; the rows sent to a table are
    modelled, the requests are not. *)

From Stdlib Require Import QArith Qcanon Qabs Qcabs Qround Qpower.
From Stdlib Require Import String Ascii List Bool Arith Lia Lqa.
From Stdlib Require Import SpecFloat.
From Stdlib Require Import Sorted Permutation.
Import ListNotations.

Local Open Scope string_scope.
Local Open Scope list_scope.

(** ** Numbers *)

Inductive num : Type :=
| Fin (q : Qc)
| PInf
| NInf
| NaN.

(** The rational [z], and the number [n] a length evaluates to. *)
Definition qz (z : Z) : Qc := Q2Qc (inject_Z z).
Definition of_nat (n : nat) : num := Fin (qz (Z.of_nat n)).
Definition zero : num := Fin (qz 0).

Definition is_fin (v : num) : Prop :=
  match v with Fin _ => True | _ => False end.

(** *** Rounding to binary64

    Finite binary64 numbers are the multiples [m * 2 ^ s] of the unit
    [2 ^ -1074] (the least positive number) with [m < 2 ^ 53], below
    [2 ^ 1024]. *)

(** The integer nearest to [a / d], the even one of two. *)
Definition rne (a d : Z) : Z :=
  let f := (a / d)%Z in
  match (2 * (a mod d) ?= d)%Z with
  | Lt => f
  | Gt => (f + 1)%Z
  | Eq => if Z.even f then f else (f + 1)%Z
  end.

(** The number of units the value [a / b] units ([0 <= a], [0 < b]) is
    rounded to: with [n] the whole part of [a / b], the spacing of the
    binary64 numbers around it is [2 ^ s] units, [s = 0] below
    [2 ^ 53] units and [log2 n - 52] from there on. *)
Definition roundUnits (a b : Z) : Z :=
  let s := Z.max 0 (Z.log2 (a / b) - 52) in
  (rne a (b * 2 ^ s) * 2 ^ s)%Z.

(** [2 ^ 1074]: the number of units in 1. *)
Definition scale : positive := (2 ^ 1074)%positive.

(** The rational of [r] units. *)
Definition units (r : Z) : Qc := Q2Qc (Qred (r # scale)).

(** [2 ^ 1024] in units: rounded values from there on are infinite. *)
Definition overflow : Z := (2 ^ 2098)%Z.

(** The binary64 number nearest to the rational [q]. *)
Definition round64 (q : Qc) : num :=
  let r := roundUnits (Z.abs (Qnum q) * Zpos scale) (Zpos (Qden q)) in
  if (overflow <=? r)%Z then (if (Qnum q <? 0)%Z then NInf else PInf)
  else Fin (units (Z.sgn (Qnum q) * r)).

(** [Number.MAX_VALUE] and [Number.MIN_VALUE] *)
Definition maxValue : Qc := units ((2 ^ 53 - 1) * 2 ^ 2045).
Definition minValue : Qc := units 1.

(** Equality test on numbers ([NaN] is equal to itself here: this is
    identity, not [===]). *)
Definition num_eqb (a b : num) : bool :=
  match a, b with
  | Fin x, Fin y => Qc_eq_bool x y
  | PInf, PInf | NInf, NInf | NaN, NaN => true
  | _, _ => false
  end.

(** A rational that is a binary64 number: rounding leaves it as it
    is. *)
Definition is_double (q : Qc) : bool := num_eqb (round64 q) (Fin q).

(** A finite Number value. *)
Record double : Type := mkDouble {
  dbl :> Qc;
  dbl_ok : is_double dbl = true
}.

Definition zero_ok : is_double (qz 0) = true := eq_refl.

(** The rational [q] as a [double]; 0 when [q] is not a binary64
    number. *)
Definition toDouble (q : Qc) : double :=
  match is_double q as b return is_double q = b -> double with
  | true => fun ok => mkDouble q ok
  | false => fun _ => mkDouble (qz 0) zero_ok
  end eq_refl.

(** The value of a number of the reference implementation of IEEE 754
    of the Standard Library. *)
Definition ofSpecFloat (x : spec_float) : num :=
  match x with
  | S754_zero _ => zero
  | S754_infinity false => PInf
  | S754_infinity true => NInf
  | S754_nan => NaN
  | S754_finite s m e =>
      Fin (Q2Qc ((if s then -1 else 1) * inject_Z (Zpos m) * Qpower 2 e))
  end.

(** Unary minus. *)
Definition num_neg (a : num) : num :=
  match a with
  | Fin q => Fin (Qcopp q)
  | PInf => NInf
  | NInf => PInf
  | NaN => NaN
  end.

(** [a + b] *)
Definition num_add (a b : num) : num :=
  match a, b with
  | NaN, _ | _, NaN => NaN
  | Fin x, Fin y => round64 (Qcplus x y)
  | PInf, NInf | NInf, PInf => NaN
  | PInf, _ | _, PInf => PInf
  | NInf, _ | _, NInf => NInf
  end.

(** [a - b] *)
Definition num_sub (a b : num) : num := num_add a (num_neg b).

(** [Math.abs(a)] *)
Definition num_abs (a : num) : num :=
  match a with
  | Fin q => Fin (Qcabs q)
  | PInf | NInf => PInf
  | NaN => NaN
  end.

(** Sign of a rational, as a comparison with 0. *)
Definition qsign (q : Qc) : comparison := Qccompare q (qz 0).

(** [a / b].  A zero divisor is the positive zero. *)
Definition num_div (a b : num) : num :=
  match a, b with
  | NaN, _ | _, NaN => NaN
  | Fin x, Fin y =>
      match qsign y with
      | Eq => match qsign x with Eq => NaN | Gt => PInf | Lt => NInf end
      | _ => round64 (Qcdiv x y)
      end
  | Fin _, _ => zero
  | PInf, Fin y => match qsign y with Lt => NInf | _ => PInf end
  | NInf, Fin y => match qsign y with Lt => PInf | _ => NInf end
  | _, _ => NaN
  end.

(** [a > b] *)
Definition num_gt (a b : num) : bool :=
  match a, b with
  | NaN, _ | _, NaN => false
  | Fin x, Fin y => match Qccompare x y with Gt => true | _ => false end
  | PInf, PInf => false
  | PInf, _ => true
  | _, NInf => match a with NInf => false | _ => true end
  | _, _ => false
  end.

(** [a < b] *)
Definition num_lt (a b : num) : bool := num_gt b a.

(** [a !== b] on numbers: [NaN] differs from everything. *)
Definition num_sne (a b : num) : bool :=
  match a, b with
  | NaN, _ | _, NaN => true
  | Fin x, Fin y => negb (Qc_eq_bool x y)
  | PInf, PInf | NInf, NInf => false
  | _, _ => true
  end.

(** Truthiness of a number: [0] and [NaN] are falsy. *)
Definition truthy (a : num) : bool :=
  match a with
  | Fin q => negb (Qc_eq_bool q (qz 0))
  | NaN => false
  | _ => true
  end.

(** [a <= b] as a proposition (false when either side is [NaN]). *)
Definition num_le (a b : num) : Prop :=
  match a, b with
  | NaN, _ | _, NaN => False
  | Fin x, Fin y => Qcle x y
  | NInf, _ | _, PInf => True
  | _, _ => False
  end.

(** [b + v1 + ... + vn] and [b - v1 - ... - vn], evaluated from left to
    right as the code's [+=] and [-=] do, every step rounded. *)
Definition addAll (b : num) (l : list num) : num := fold_left num_add l b.
Definition subAll (b : num) (l : list num) : num := fold_left num_sub l b.

(** Sum of a list of numbers, accumulated from 0 in the order of the
    list. *)
Definition num_sum (l : list num) : num := addAll zero l.

(** ** Strings *)

(** WhiteSpace and LineTerminator code units below 256: TAB, LF, VT,
    FF, CR, SP and NBSP. *)
Definition is_ws (c : ascii) : bool :=
  let n := nat_of_ascii c in
  ((9 <=? n)%nat && (n <=? 13)%nat) || (n =? 32)%nat || (n =? 160)%nat.

Fixpoint trimStart (s : string) : string :=
  match s with
  | EmptyString => EmptyString
  | String c s' => if is_ws c then trimStart s' else s
  end.

Fixpoint trimEnd (s : string) : string :=
  match s with
  | EmptyString => EmptyString
  | String c s' =>
      match trimEnd s' with
      | EmptyString => if is_ws c then EmptyString else String c EmptyString
      | t => String c t
      end
  end.

(** [String.prototype.trim] *)
Definition trim (s : string) : string := trimEnd (trimStart s).

(** ** The balance map: [Map<string, number>] *)

Definition balmap : Type := list (string * num).

(** [Map.prototype.get] *)
Fixpoint mget (m : balmap) (k : string) : option num :=
  match m with
  | [] => None
  | (k', v) :: m' => if String.eqb k' k then Some v else mget m' k
  end.

(** [Map.prototype.set]: an existing key keeps its position, a new key
    goes last. *)
Fixpoint mset (m : balmap) (k : string) (v : num) : balmap :=
  match m with
  | [] => [(k, v)]
  | (k', v') :: m' =>
      if String.eqb k' k then (k', v) :: m' else (k', v') :: mset m' k v
  end.

(** [memberBalances.get(k) || 0] *)
Definition getOr0 (m : balmap) (k : string) : num :=
  match mget m k with
  | Some v => if truthy v then v else zero
  | None => zero
  end.

(** The balance a map records for [k]: its value, and 0 for an absent
    key. *)
Definition balanceOf (m : balmap) (k : string) : num :=
  match mget m k with
  | Some v => v
  | None => zero
  end.

Definition keys (m : balmap) : list string := map fst m.

(** ** Rows *)

Inductive SplitType : Type := equal | custom.

(** An element of [split_details]: [{ member; amount }]. *)
Record Split : Type := mkSplit {
  member : string;
  split_amount : double
}.

(** The fields of [Expense] the aggregation reads; [members] is
    [expense.group.members]. *)
Record Expense : Type := mkExpense {
  amount : double;
  paid_by : string;
  split_type : SplitType;
  split_details : option (list Split);
  members : list string;
  settled : bool
}.

Inductive SettlementType : Type := owed | owing.

Record Settlement : Type := mkSettlement {
  st_name : string;
  st_amount : num;
  st_type : SettlementType
}.

(** ** The aggregation pass (lines 193-251) *)

(** Body of [expense.group.members.forEach] for an equal split. *)
Definition equalStep (currentUserIdentifier : string) (isPayer : bool)
    (paid_by : string) (share : num)
    (memberBalances : balmap) (member : string) : balmap :=
  if String.eqb (trim member) (trim currentUserIdentifier) then memberBalances
  else
    let currentBalance := getOr0 memberBalances (trim member) in
    if isPayer then
      mset memberBalances (trim member) (num_add currentBalance share)
    else if String.eqb (trim paid_by) (trim member) then
      mset memberBalances (trim member) (num_sub currentBalance share)
    else memberBalances.

(** Body of [expense.split_details.forEach] when the viewer paid. *)
Definition customPayerStep (currentUserIdentifier : string)
    (memberBalances : balmap) (split : Split) : balmap :=
  if negb (String.eqb (trim (member split)) (trim currentUserIdentifier)) then
    let memberName := trim (member split) in
    let currentBalance := getOr0 memberBalances memberName in
    mset memberBalances memberName
      (num_add currentBalance (Fin (split_amount split)))
  else memberBalances.

(** Body of [expense.split_details.forEach] when someone else paid. *)
Definition customOtherStep (currentUserIdentifier payerName : string)
    (memberBalances : balmap) (split : Split) : balmap :=
  if String.eqb (trim (member split)) (trim currentUserIdentifier) then
    let currentBalance := getOr0 memberBalances payerName in
    mset memberBalances payerName
      (num_sub currentBalance (Fin (split_amount split)))
  else memberBalances.

(** Body of [expenses.forEach]. *)
Definition processExpense (currentUserIdentifier : string)
    (memberBalances : balmap) (expense : Expense) : balmap :=
  if settled expense then memberBalances
  else
    let isPayer := String.eqb (paid_by expense) currentUserIdentifier in
    let memberCount := length (members expense) in
    match split_type expense with
    | equal =>
        let share := num_div (Fin (amount expense)) (of_nat memberCount) in
        fold_left
          (equalStep currentUserIdentifier isPayer (paid_by expense) share)
          (members expense) memberBalances
    | custom =>
        match split_details expense with
        | Some details =>
            if isPayer then
              fold_left (customPayerStep currentUserIdentifier)
                details memberBalances
            else
              let payerName := trim (paid_by expense) in
              fold_left (customOtherStep currentUserIdentifier payerName)
                details memberBalances
        | None => memberBalances
        end
    end.

(** The map after [expenses.forEach], starting from [new Map()]. *)
Definition balances (currentUserIdentifier : string)
    (expenses : list Expense) : balmap :=
  fold_left (processExpense currentUserIdentifier) expenses [].

(** ** The settlement pass (lines 253-277) *)

(** State of the second loop. *)
Record Totals : Type := mkTotals {
  settlementsArray : list Settlement;
  totalOwe : num;
  totalOwed : num
}.

(** Body of [memberBalances.forEach((amount, name) => ...)]. *)
Definition settleStep (acc : Totals) (entry : string * num) : Totals :=
  let (name, amount) := entry in
  if num_sne amount zero then
    let pushed :=
      settlementsArray acc ++
        [mkSettlement name (num_abs amount)
           (if num_gt amount zero then owed else owing)] in
    if num_gt amount zero then
      mkTotals pushed (totalOwe acc) (num_add (totalOwed acc) amount)
    else
      mkTotals pushed (num_add (totalOwe acc) (num_abs amount)) (totalOwed acc)
  else acc.

(** The comparator [(a, b) => b.amount - a.amount]. *)
Definition byAmountDesc (a b : Settlement) : num :=
  num_sub (st_amount b) (st_amount a).

(** [Array.prototype.sort(comparefn)]: a stable sort; [b] goes before
    [a] only when [comparefn(a, b) > 0] (a [NaN] result counts as 0). *)
Fixpoint sortInsert {A : Type} (comparefn : A -> A -> num)
    (x : A) (l : list A) : list A :=
  match l with
  | [] => [x]
  | y :: l' =>
      if num_gt (comparefn x y) zero then y :: sortInsert comparefn x l'
      else x :: l
  end.

Fixpoint sort {A : Type} (comparefn : A -> A -> num) (l : list A) : list A :=
  match l with
  | [] => []
  | x :: l' => sortInsert comparefn x (sort comparefn l')
  end.

(** The three values the page stores: [youreOwed], [youOwe] and
    [settlements]. *)
Definition computeSettlements (expenses : list Expense)
    (viewerName : string) : num * num * list Settlement :=
  let memberBalances := balances viewerName expenses in
  let acc := fold_left settleStep memberBalances (mkTotals [] zero zero) in
  (totalOwed acc, totalOwe acc, sort byAmountDesc (settlementsArray acc)).

Definition totalOwedToViewer (r : num * num * list Settlement) : num :=
  fst (fst r).
Definition totalViewerOwes (r : num * num * list Settlement) : num :=
  snd (fst r).
Definition settlements (r : num * num * list Settlement) : list Settlement :=
  snd r.

(** ** Notions used to state the properties *)

(** A rational that is a whole number of units. *)
Definition on_grid (q : Qc) : Prop := exists z : Z, q = units z.

(** A number other than [NaN]. *)
Definition not_NaN (v : num) : Prop :=
  match v with NaN => False | _ => True end.

(** A computed number other than [NaN]: an infinity or a whole number
    of units. *)
Definition is_number (v : num) : Prop :=
  match v with
  | Fin q => on_grid q
  | NaN => False
  | _ => True
  end.

(** What the first loop maintains: keys are pairwise distinct and
    trimmed, values are numbers. *)
Definition wf_map (m : balmap) : Prop :=
  NoDup (keys m) /\
  Forall (fun kv => trim (fst kv) = fst kv /\ is_number (snd kv)) m.

(** The settlement entry of a map entry. *)
Definition toEntry (entry : string * num) : Settlement :=
  mkSettlement (fst entry) (num_abs (snd entry))
    (if num_gt (snd entry) zero then owed else owing).

Definition nonzero (entry : string * num) : bool := num_sne (snd entry) zero.

Definition hasAmount (a : num) (s : Settlement) : bool :=
  num_eqb (st_amount s) a.

(** [a] may stand before [b] in a list sorted by amount, descending. *)
Definition descending (a b : Settlement) : Prop :=
  num_le (st_amount b) (st_amount a).

(** Entries of a list whose trimmed name is the key [k]. *)
Definition trimsTo (k : string) (name : string) : bool :=
  String.eqb (trim name) k.

Definition splitsOf (k : string) (details : list Split) : list Split :=
  filter (fun split => trimsTo k (member split)) details.

(** The split entries of an expense; none when [split_details] is
    [null]. *)
Definition detailsOf (expense : Expense) : list Split :=
  match split_details expense with
  | Some details => details
  | None => []
  end.

(** The amounts of a list of split entries. *)
Definition splitAmounts (details : list Split) : list num :=
  map (fun split => Fin (split_amount split)) details.

(** The share of an equal split, as line 210 computes it. *)
Definition shareOf (expense : Expense) : num :=
  num_div (Fin (amount expense)) (of_nat (length (members expense))).

Definition occurrences (k : string) (names : list string) : nat :=
  length (filter (trimsTo k) names).

(** The values of the map, in insertion order, and the two signs. *)
Definition values (m : balmap) : list num := map snd m.
Definition positive (v : num) : bool := num_gt v zero.
Definition negative (v : num) : bool := num_lt v zero.

(** A string that does not begin with white space. *)
Definition clean_start (s : string) : Prop :=
  match s with
  | EmptyString => True
  | String c _ => is_ws c = false
  end.

(** The test of the loops that skip the viewer. *)
Definition notViewer (u : string) (name : string) : bool :=
  negb (String.eqb (trim name) (trim u)).

Definition number_amount (s : Settlement) : Prop := is_number (st_amount s).

(** The common shape of the four loop bodies: an entry selected by
    [cond] adds [val] to the balance of [key]. *)
Definition creditStep {A : Type} (cond : A -> bool) (key : A -> string)
    (val : A -> num) (m : balmap) (x : A) : balmap :=
  if cond x then mset m (key x) (num_add (getOr0 m (key x)) (val x)) else m.

(** What such a loop adds to the balance of [k], one value after the
    other. *)
Definition credited {A : Type} (cond : A -> bool) (key : A -> string)
    (val : A -> num) (k : string) (l : list A) : list num :=
  map val (filter (fun x => cond x && String.eqb (key x) k) l).

Definition creditable {A : Type} (cond : A -> bool) (key : A -> string)
    (val : A -> num) (l : list A) : Prop :=
  forall x, In x l -> cond x = true -> trim (key x) = key x /\ is_fin (val x).

(** All three outputs are finite numbers. *)
Definition finite_output (r : num * num * list Settlement) : Prop :=
  is_fin (totalOwedToViewer r) /\ is_fin (totalViewerOwes r) /\
  Forall (fun s => is_fin (st_amount s)) (settlements r).

(** ** Concrete rows used in the examples *)

Definition equalExpense (amt : Z) (payer : string) (ms : list string)
  : Expense := mkExpense (toDouble (qz amt)) payer equal None ms false.

Definition customExpense (amt : Z) (payer : string)
    (ds : list (string * Z)) : Expense :=
  mkExpense (toDouble (qz amt)) payer custom
    (Some (map (fun d => mkSplit (fst d) (toDouble (qz (snd d)))) ds)) []
    false.

(** Alice pays $30, split equally among Alice, Bob and Carol. *)
Definition aliceBobCarol : Expense :=
  equalExpense 30 "Alice" ["Alice"; "Bob"; "Carol"].

(** The same expense in a group that lists Bob twice, once with a
    leading blank. *)
Definition bobTwice : Expense :=
  equalExpense 30 "Alice" ["Alice"; "Bob"; " Bob"].

(** Dave pays $50 with a custom split between Alice and Dave. *)
Definition davePays : Expense :=
  customExpense 50 "Dave" [("Alice", 20%Z); ("Dave", 30%Z)].

(** Alice pays $50 with a custom split between Alice and Bob. *)
Definition alicePaysCustom : Expense :=
  customExpense 50 "Alice" [("Alice", 20%Z); ("Bob", 30%Z)].

(** Bob pays $30 in a group Alice is not a member of. *)
Definition bobAndCarol : Expense :=
  equalExpense 30 "Bob" ["Bob"; "Carol"].

(** Carol pays $30 for Bob and Dave; she is not listed herself. *)
Definition carolForOthers : Expense :=
  equalExpense 30 "Carol" ["Bob"; "Dave"].

(** A $50 custom split paid by the group member "Alice " (trailing
    blank), as picked from the member list of a group whose creator
    typed the name that way. *)
Definition paddedPayer : Expense :=
  customExpense 50 "Alice " [("Alice ", 20%Z); ("Bob", 30%Z)].

(** A $30 equal split in a group without members. *)
Definition emptyGroup : Expense := equalExpense 30 "Alice" [].


(** ** Names

    The expense with every member name and every split member name
    replaced by its trim, and the payer's name too unless that changes
    the outcome of the test [expense.paid_by === currentUserIdentifier]
    of line 206. *)
Definition trimmedPayer (viewer paid_by : string) : string :=
  if String.eqb paid_by viewer then paid_by
  else if String.eqb (trim paid_by) viewer then paid_by
  else trim paid_by.

Definition trimmedNames (viewer : string) (e : Expense) : Expense :=
  mkExpense (amount e) (trimmedPayer viewer (paid_by e)) (split_type e)
    (option_map
       (map (fun d => mkSplit (trim (member d)) (split_amount d)))
       (split_details e))
    (map trim (members e)) (settled e).

(** The names an expense mentions, trimmed: its group members, the
    members of its split entries and its payer. *)
Definition mentioned (e : Expense) : list string :=
  map trim (members e) ++ map (fun d => trim (member d)) (detailsOf e)
  ++ [trim (paid_by e)].

(** [0 <= v]: a finite number that is not negative, or [Infinity]. *)
Definition nonneg (v : num) : Prop := num_le zero v.

(** * The rest of the dashboard page

    The monthly chart of [DashboardPage.fetchData] (lines 279-301) and
    [formatDate] (lines 129-149). *)

(** A fetched row: the fields the balance pass reads, and those the
    rest of [fetchData] reads. *)
Record ExpenseRow : Type := mkExpenseRow {
  row_expense : Expense;
  title : string;
  groupName : string;
  created_at : string
}.

(** A key of [monthlyExpenses]: a month name, or [undefined] when
    [monthNames[...]] is read outside the array. *)
Definition MonthKey : Type := option string.

Definition monthKey_eqb (a b : MonthKey) : bool :=
  match a, b with
  | Some x, Some y => String.eqb x y
  | None, None => true
  | _, _ => false
  end.

Definition monthmap : Type := list (MonthKey * num).

Fixpoint month_get (m : monthmap) (k : MonthKey) : option num :=
  match m with
  | [] => None
  | (k', v) :: m' => if monthKey_eqb k' k then Some v else month_get m' k
  end.

Fixpoint month_set (m : monthmap) (k : MonthKey) (v : num) : monthmap :=
  match m with
  | [] => [(k, v)]
  | (k', v') :: m' =>
      if monthKey_eqb k' k then (k', v) :: m'
      else (k', v') :: month_set m' k v
  end.

(** [monthlyExpenses.get(k) || 0] *)
Definition month_getOr0 (m : monthmap) (k : MonthKey) : num :=
  match month_get m k with
  | Some v => if truthy v then v else zero
  | None => zero
  end.

Definition monthNames : list string :=
  ["Jan"; "Feb"; "Mar"; "Apr"; "May"; "Jun";
   "Jul"; "Aug"; "Sep"; "Oct"; "Nov"; "Dec"].

(** [monthNames.forEach(month => monthlyExpenses.set(month, 0))] on a
    new map. *)
Definition initialMonths : monthmap :=
  fold_left (fun m month => month_set m (Some month) zero) monthNames [].

Section MonthlyChart.

(** [new Date(s).getMonth()]: a month index, or [None] for the [NaN]
    of an invalid date.  It depends on the engine's parser and on the
    local time zone: it is a parameter. *)
Variable getMonth : string -> option nat.

(** [monthNames[new Date(expense.created_at).getMonth()]] *)
Definition monthNameOf (row : ExpenseRow) : MonthKey :=
  match getMonth (created_at row) with
  | Some i => nth_error monthNames i
  | None => None
  end.

(** Body of the second [expenses.forEach]. *)
Definition monthStep (monthlyExpenses : monthmap) (row : ExpenseRow)
  : monthmap :=
  let monthName := monthNameOf row in
  let currentTotal := month_getOr0 monthlyExpenses monthName in
  month_set monthlyExpenses monthName
    (num_add currentTotal (Fin (amount (row_expense row)))).

Definition monthlyExpenses (rows : list ExpenseRow) : monthmap :=
  fold_left monthStep rows initialMonths.

(** [monthNames.map(month => ({ name: month, amount:
    monthlyExpenses.get(month) || 0 }))]; an entry is a pair. *)
Definition monthlyDataArray (rows : list ExpenseRow) : list (string * num) :=
  map (fun month => (month, month_getOr0 (monthlyExpenses rows) (Some month)))
    monthNames.

(** The rows whose date falls in the month of index [i]. *)
Definition rowsOfMonth (i : nat) (rows : list ExpenseRow) : list ExpenseRow :=
  filter (fun row => match getMonth (created_at row) with
                     | Some j => Nat.eqb j i
                     | None => false
                     end) rows.

(** The rows whose date gives a month of the calendar. *)
Definition datedRows (rows : list ExpenseRow) : list ExpenseRow :=
  filter (fun row => match getMonth (created_at row) with
                     | Some j => Nat.ltb j 12
                     | None => false
                     end) rows.

End MonthlyChart.

(** The total a month map records for a key; 0 for an absent key. *)
Definition monthTotal (m : monthmap) (k : MonthKey) : num :=
  match month_get m k with
  | Some v => v
  | None => zero
  end.

Definition number_months (m : monthmap) : Prop :=
  Forall (fun kv => not_NaN (snd kv)) m.

Definition rowAmounts (rows : list ExpenseRow) : list num :=
  map (fun row => Fin (amount (row_expense row))) rows.

(** The label [formatDate] returns: 'Today', 'Yesterday' or
    `${diffDays} days ago`. *)
Inductive DateLabel : Type :=
| Today
| Yesterday
| DaysAgo (diffDays : num).

(** [a === b] on numbers *)
Definition num_seq (a b : num) : bool := negb (num_sne a b).

(** [Math.ceil(a)] *)
Definition num_ceil (a : num) : num :=
  match a with
  | Fin q => Fin (qz (Qceiling q))
  | _ => a
  end.

(** [1000 * 60 * 60 * 24] *)
Definition msPerDay : num := Fin (qz (1000 * 60 * 60 * 24)).

(** [formatDate], from the three timestamps it compares: the local
    midnights of the date, of today and of yesterday ([getTime()] after
    [setHours(0, 0, 0, 0)]; [NaN] for an invalid date).  The clock and
    the time zone that produce them stay outside. *)
Definition formatDate (date today yesterday : num) : DateLabel :=
  if num_seq date today then Today
  else if num_seq date yesterday then Yesterday
  else
    let diffTime := num_abs (num_sub today date) in
    let diffDays := num_ceil (num_div diffTime msPerDay) in
    DaysAgo diffDays.

(** A whole number of at least one. *)
Definition whole_days (v : num) : Prop :=
  exists n : Z, (1 <= n)%Z /\ v = Fin (qz n).

(** A time value: a whole number of milliseconds, at most 8.64e15 away
    from the epoch. *)
Definition timeValue (z : Z) : Prop := (Z.abs z <= 8640000000000000)%Z.

(** Two rows of March (of different years, one settled) and one whose
    date does not parse, with a stand-in for [getMonth]. *)
Definition marchRow : ExpenseRow :=
  mkExpenseRow aliceBobCarol "Dinner" "Flat" "2024-03-05T12:00:00Z".
Definition settledMarchRow : ExpenseRow :=
  mkExpenseRow
    (mkExpense (toDouble (qz 12)) "Alice" equal None ["Alice"; "Bob"] true)
    "Taxi" "Flat" "2023-03-09T08:00:00Z".
Definition undatedRow : ExpenseRow :=
  mkExpenseRow davePays "Gift" "Flat" "soon".

Definition isoMonthIndex (s : string) : option nat :=
  match substring 5 2 s with
  | "01" => Some 0%nat | "02" => Some 1%nat | "03" => Some 2%nat
  | "04" => Some 3%nat | "05" => Some 4%nat | "06" => Some 5%nat
  | "07" => Some 6%nat | "08" => Some 7%nat | "09" => Some 8%nat
  | "10" => Some 9%nat | "11" => Some 10%nat | "12" => Some 11%nat
  | _ => None
  end.

(** * Library functions the forms call *)

(** [a * b] *)
Definition num_mul (a b : num) : num :=
  match a, b with
  | NaN, _ | _, NaN => NaN
  | Fin x, Fin y => round64 (Qcmult x y)
  | Fin x, inf | inf, Fin x =>
      match qsign x with
      | Eq => NaN
      | Gt => inf
      | Lt => num_neg inf
      end
  | PInf, PInf | NInf, NInf => PInf
  | PInf, NInf | NInf, PInf => NInf
  end.

(** [a <= b] *)
Definition num_leb (a b : num) : bool := num_lt a b || num_seq a b.

(** [isNaN(a)] *)
Definition isNaN (a : num) : bool :=
  match a with NaN => true | _ => false end.

(** [a || 0] *)
Definition orZero (a : num) : num := if truthy a then a else zero.

(** [10 ** e] as a rational. *)
Definition pow10 (e : Z) : Qc := Q2Qc (Qpower (inject_Z 10) e).

Definition is_digit (c : ascii) : bool :=
  let n := nat_of_ascii c in (48 <=? n)%nat && (n <=? 57)%nat.

Definition digitValue (c : ascii) : Z := Z.of_nat (nat_of_ascii c) - 48.

(** The values of the decimal digits a string starts with, and the
    rest of the string. *)
Fixpoint spanDigits (s : string) : list Z * string :=
  match s with
  | EmptyString => ([], EmptyString)
  | String c s' =>
      if is_digit c then
        let (ds, rest) := spanDigits s' in (digitValue c :: ds, rest)
      else ([], s)
  end.

Definition digitsValue (ds : list Z) : Z :=
  fold_left (fun a d => 10 * a + d)%Z ds 0%Z.

(** The exponent an ExponentPart at the start of [s] denotes: [e] or
    [E], an optional sign, at least one digit; 0 when there is none. *)
Definition exponentPart (s : string) : Z :=
  match s with
  | String c r =>
      if Ascii.eqb c "e" || Ascii.eqb c "E" then
        match r with
        | String "+" r' => digitsValue (fst (spanDigits r'))
        | String "-" r' => (- digitsValue (fst (spanDigits r')))%Z
        | _ => digitsValue (fst (spanDigits r))
        end
      else 0%Z
  | EmptyString => 0%Z
  end.

(** The mathematical value of the longest prefix of [s] that has one
    of the forms [d.d e], [.d e] and [d e] (digits [d], the fraction
    after the point and the exponent part [e] optional); [None] when no
    prefix has. *)
Definition decimalLiteral (s : string) : option Qc :=
  let (ip, r1) := spanDigits s in
  match r1 with
  | String "." r2 =>
      let (fp, r3) := spanDigits r2 in
      match ip, fp with
      | [], [] => None
      | _, _ =>
          Some ((qz (digitsValue ip)
                 + qz (digitsValue fp) / pow10 (Z.of_nat (length fp)))
                * pow10 (exponentPart r3))%Qc
      end
  | _ =>
      match ip with
      | [] => None
      | _ => Some (qz (digitsValue ip) * pow10 (exponentPart r1))%Qc
      end
  end.

(** The Number value of the longest prefix of [s] that is a
    StrUnsignedDecimalLiteral: [Infinity], or the binary64 number
    nearest to the value of a decimal literal. *)
Definition unsignedLiteral (s : string) : option num :=
  if String.prefix "Infinity" s then Some PInf
  else option_map round64 (decimalLiteral s).

(** [parseFloat(s)]: leading white space is skipped, then the longest
    prefix that is a StrDecimalLiteral is read; [NaN] when there is
    none. *)
Definition parseFloat (s : string) : num :=
  let literal (negative : bool) (r : string) : num :=
    match unsignedLiteral r with
    | Some v => if negative then num_neg v else v
    | None => NaN
    end in
  match trimStart s with
  | String "+" r => literal false r
  | String "-" r => literal true r
  | t => literal false t
  end.

(** [parseFloat(x.toFixed(2))]: [toFixed] picks the integer [n] with
    [n / 100] closest to the value of [|x|], the larger one of two,
    and prints its decimal digits, which [parseFloat] reads back as the
    binary64 number nearest to [n / 100]; numbers of magnitude 1e21 and
    more, and the special values, are printed as [String(x)] does and
    read back as they were. *)
Definition roundToCents (x : num) : num :=
  match x with
  | Fin q =>
      if Qle_bool (Qpower (inject_Z 10) 21) (Qcabs q) then x
      else
        let n := Qfloor (this (Qcabs q * qz 100 + Q2Qc (1 # 2)%Q)%Qc) in
        match qsign q with
        | Lt => num_neg (round64 (qz n / qz 100))
        | _ => round64 (qz n / qz 100)
        end
  | _ => x
  end.

(** * The personal expenses page

    [PersonalExpensesPage.fetchExpenses]
    (src/project/src/pages/PersonalExpensesPage.tsx, lines 55-110): the
    total, the per-category summaries and the per-month summaries of
    the fetched rows; and the checks of its form. *)

Module PersonalExpensesPage.

Record PersonalExpense : Type := mkPersonalExpense {
  title : string;
  amount : double;
  category : string;
  created_at : string
}.

(** A [CategorySummary] ({ category, total }) or [MonthlySummary]
    ({ month, total }) is a pair; an array of them is a [balmap], in
    which [mget] is [acc.find(item => item.category === c)] and [mset]
    on a present key is the update of the object found. *)
Definition Summary : Type := (string * num)%type.

(** [data.reduce((sum, expense) => sum + expense.amount, 0) || 0] *)
Definition totalExpenses (data : list PersonalExpense) : num :=
  let total :=
    fold_left (fun sum expense => num_add sum (Fin (amount expense))) data zero
  in if truthy total then total else zero.

(** The callback of both summarising [reduce] calls, for the grouping
    key [key]. *)
Definition summaryStep (key : PersonalExpense -> string)
    (acc : list Summary) (expense : PersonalExpense) : list Summary :=
  match mget acc (key expense) with
  | Some total =>
      mset acc (key expense) (num_add total (Fin (amount expense)))
  | None => acc ++ [(key expense, Fin (amount expense))]
  end.

Definition categorySummaries (data : list PersonalExpense) : list Summary :=
  fold_left (summaryStep category) data [].

Section Dates.

(** [new Date(s).toLocaleString('default', { month: 'long', year:
    'numeric' })] and [new Date(s).getTime()] depend on the locale and
    on the engine's date parser: they are parameters. *)
Variable monthName : string -> string.
Variable getTime : string -> num.

(** The comparator [(a, b) => dateB.getTime() - dateA.getTime()]. *)
Definition newestFirst (a b : Summary) : num :=
  num_sub (getTime (fst b)) (getTime (fst a)).

Definition monthlyData (data : list PersonalExpense) : list Summary :=
  fold_left (summaryStep (fun expense => monthName (created_at expense)))
    data [].

Definition monthlySummaries (data : list PersonalExpense) : list Summary :=
  sort newestFirst (monthlyData data).

End Dates.

(** What [handleSubmit] (lines 113-159) does: it sets an error, or
    sends one row to the table [personal_expenses]. *)
Inductive Outcome : Type :=
| Failed (error : string)
| Insert (title : string) (amount : num) (category : string)
    (user_id : string).

Definition handleSubmit (user : option string)
    (title amount category : string) : Outcome :=
  match user with
  | None => Failed "You must be logged in to add expenses"
  | Some uid =>
      let amountNum := parseFloat amount in
      if isNaN amountNum || num_leb amountNum zero then
        Failed "Please enter a valid amount"
      else if String.eqb category "" then Failed "Please select a category"
      else Insert title amountNum category uid
  end.

End PersonalExpensesPage.

(** The amounts of the rows that [key] groups under [k]. *)
Definition amountsOf (key : PersonalExpensesPage.PersonalExpense -> string)
    (k : string) (data : list PersonalExpensesPage.PersonalExpense)
  : list num :=
  map (fun e => Fin (PersonalExpensesPage.amount e))
    (filter (fun e => String.eqb (key e) k) data).

(** A key is not among [a]. *)
Definition notAmong (a : list string) (d : string) : bool :=
  negb (existsb (String.eqb d) a).

(** Three personal expenses, and a stand-in for the two date
    functions: the month is the prefix "YYYY-MM" of the timestamp. *)
Definition lunch : PersonalExpensesPage.PersonalExpense :=
  PersonalExpensesPage.mkPersonalExpense "Lunch" (toDouble (qz 12)) "Food"
    "2024-03-05T12:00:00Z".
Definition train : PersonalExpensesPage.PersonalExpense :=
  PersonalExpensesPage.mkPersonalExpense "Train" (toDouble (qz 40)) "Travel"
    "2024-03-09T08:00:00Z".
Definition dinner : PersonalExpensesPage.PersonalExpense :=
  PersonalExpensesPage.mkPersonalExpense "Dinner" (toDouble (qz 30)) "Food"
    "2024-04-02T19:00:00Z".

Definition isoMonth (s : string) : string := substring 0 7 s.
Definition isoMonthTime (m : string) : num :=
  if String.eqb m "2024-03" then Fin (qz 3)
  else if String.eqb m "2024-04" then Fin (qz 4)
  else NaN.

(** * The groups page

    The member list of the form of [GroupsPage] (src/unnamed/part_000,
    lines 53-66) and what [handleSubmit] (lines 68-121) inserts.
    [handleMemberChange] is left out: written at an index past the end,
    a JavaScript array gets holes, which a list of strings cannot
    hold. *)

Module GroupsPage.

(** [setMembers([...members, ''])] *)
Definition handleAddMember (members : list string) : list string :=
  members ++ [""].

(** [members.filter((_, i) => i !== index)], [i] counting from
    [start]. *)
Fixpoint filterIndex (start index : nat) (members : list string)
  : list string :=
  match members with
  | [] => []
  | member :: rest =>
      if Nat.eqb start index then filterIndex (S start) index rest
      else member :: filterIndex (S start) index rest
  end.

Definition handleRemoveMember (index : nat) (members : list string)
  : list string :=
  let newMembers := filterIndex 0 index members in
  if Nat.ltb 0 (length newMembers) then newMembers else [""].

(** What [handleSubmit] does: it sets an error, or sends one row to the
    table [groups]. *)
Inductive Outcome : Type :=
| Failed (error : string)
| Insert (name : string) (members : list string) (created_by : string).

(** [userId] is [string | null]; [!userId] holds for [null] and for
    the empty string. *)
Definition handleSubmit (userId : option string) (groupName : string)
    (members : list string) : Outcome :=
  match userId with
  | None => Failed "You must be logged in to create a group"
  | Some uid =>
      if String.eqb uid "" then
        Failed "You must be logged in to create a group"
      else
        let finalMembers :=
          filter (fun member => negb (String.eqb (trim member) "")) members in
        if Nat.eqb (length finalMembers) 0 then
          Failed "Please add at least one member."
        else Insert groupName finalMembers uid
  end.

(** The two buttons of the member list. *)
Inductive Action : Type :=
| AddMember
| RemoveMember (index : nat).

Definition act (members : list string) (a : Action) : list string :=
  match a with
  | AddMember => handleAddMember members
  | RemoveMember index => handleRemoveMember index members
  end.

(** The initial state [useState<string[]>([''])]. *)
Definition initialMembers : list string := [""].

End GroupsPage.

(** * The expenses page

    The custom-split form of [ExpensesPage]
    (src/project/src/pages/ExpensesPage.tsx): [handleCustomSplitChange]
    (lines 473-480) and [handleSubmit] (lines 482-604).  The handlers
    of [EditExpenseModal] (lines 89-97 and 99-192) hold the same
    pattern test and the same validation of the splits. *)

Module ExpensesPage.

Inductive SplitMode : Type := amountMode | percentage.

(** [MemberSplitValue]: a row of the custom-split form. *)
Record MemberSplitValue : Type := mkMemberSplitValue {
  member : string;
  value : string
}.

(** [MemberSplit] ({ member, amount }) is a pair. *)
Definition MemberSplit : Type := (string * num)%type.

(** [/^[0-9]*\.?\d*$/.test(value)] *)
Definition decimalPattern (value : string) : bool :=
  match snd (spanDigits value) with
  | EmptyString => true
  | String "." r => String.eqb (snd (spanDigits r)) ""
  | _ => false
  end.

(** [newSplits[index].value = value] on a copy of the array; [None]
    is the TypeError of an index without a row. *)
Fixpoint setValue (index : nat) (value : string)
    (customSplits : list MemberSplitValue) : option (list MemberSplitValue) :=
  match customSplits, index with
  | [], _ => None
  | split :: rest, O => Some (mkMemberSplitValue (member split) value :: rest)
  | split :: rest, S i =>
      match setValue i value rest with
      | Some rest' => Some (split :: rest')
      | None => None
      end
  end.

Definition handleCustomSplitChange (index : nat) (value : string)
    (customSplits : list MemberSplitValue) : option (list MemberSplitValue) :=
  if negb (decimalPattern value) && negb (String.eqb value "") then
    Some customSplits
  else setValue index value customSplits.

(** The message of [tempErrors.total]; the first one carries the
    number printed in it. *)
Inductive TotalError : Type :=
| SplitsMustTotal (amountNum : num)
| PercentagesMustTotal100.

(** The variables of the validation. *)
Record Validation : Type := mkValidation {
  calculatedSplitDetails : list MemberSplit;
  currentTotal : num;
  validationPassed : bool;
  tempErrors : list (nat * string);
  totalError : option TotalError
}.

Definition hundred : num := Fin (qz 100).

(** [0.01] *)
Definition cent : num := round64 (Q2Qc (1 # 100)).

(** Body of the [for] loop over [customSplits]. *)
Definition splitStep (splitMode : SplitMode) (amountNum : num)
    (st : Validation) (i : nat) (split : MemberSplitValue) : Validation :=
  let valueNum := orZero (parseFloat (value split)) in
  if String.eqb (value split) "" || num_lt valueNum zero then
    mkValidation (calculatedSplitDetails st) (currentTotal st) false
      (tempErrors st ++ [(i, "Invalid input")]) (totalError st)
  else
    match splitMode with
    | amountMode =>
        mkValidation
          (calculatedSplitDetails st ++ [(member split, valueNum)])
          (num_add (currentTotal st) valueNum)
          (validationPassed st) (tempErrors st) (totalError st)
    | percentage =>
        let over := num_gt valueNum hundred in
        let calculatedAmount :=
          num_div (num_mul amountNum valueNum) hundred in
        mkValidation
          (calculatedSplitDetails st
           ++ [(member split, roundToCents calculatedAmount)])
          (num_add (currentTotal st) valueNum)
          (if over then false else validationPassed st)
          (if over then tempErrors st ++ [(i, "> 100%")] else tempErrors st)
          (totalError st)
    end.

Fixpoint splitLoop (splitMode : SplitMode) (amountNum : num)
    (i : nat) (customSplits : list MemberSplitValue) (st : Validation)
  : Validation :=
  match customSplits with
  | [] => st
  | split :: rest =>
      splitLoop splitMode amountNum (S i) rest
        (splitStep splitMode amountNum st i split)
  end.

(** The check of the total after the loop. *)
Definition checkTotal (splitMode : SplitMode) (amountNum : num)
    (st : Validation) : Validation :=
  let target :=
    match splitMode with amountMode => amountNum | percentage => hundred end in
  if num_gt (num_abs (num_sub (currentTotal st) target)) cent then
    mkValidation (calculatedSplitDetails st) (currentTotal st) false
      (tempErrors st)
      (Some match splitMode with
            | amountMode => SplitsMustTotal amountNum
            | percentage => PercentagesMustTotal100
            end)
  else st.

(** The custom-split part of [handleSubmit], up to
    [if (!validationPassed)]. *)
Definition validateSplits (splitMode : SplitMode) (amountNum : num)
    (customSplits : list MemberSplitValue) : Validation :=
  checkTotal splitMode amountNum
    (splitLoop splitMode amountNum 0 customSplits
       (mkValidation [] zero true [] None)).

(** The state of the form that [handleSubmit] reads; [user] is the id
    of the logged-in user. *)
Record Form : Type := mkForm {
  user : option string;
  selectedGroup : string;
  title : string;
  amount : string;
  paidBy : string;
  splitType : SplitType;
  splitMode : SplitMode;
  customSplits : list MemberSplitValue
}.

(** The row sent to the table [expenses]. *)
Record ExpenseData : Type := mkExpenseData {
  group_id : string;
  data_title : string;
  data_amount : num;
  paid_by : string;
  split_type : SplitType;
  split_details : option (list MemberSplit);
  created_by : string
}.

Inductive Outcome : Type :=
| Failed (error : string) (splitErrors : option Validation)
| Insert (expenseData : ExpenseData).

Definition handleSubmit (form : Form) : Outcome :=
  let amountNum := orZero (parseFloat (amount form)) in
  match user form with
  | None => Failed "You must be logged in to create an expense" None
  | Some uid =>
      if String.eqb (selectedGroup form) "" || String.eqb (title form) ""
         || String.eqb (amount form) "" || String.eqb (paidBy form) "" then
        Failed "Please fill in all required fields" None
      else if isNaN amountNum || num_leb amountNum zero then
        Failed "Please enter a valid amount" None
      else
        match splitType form with
        | custom =>
            let v := validateSplits (splitMode form) amountNum
                       (customSplits form) in
            if negb (validationPassed v) then
              Failed "Please fix the errors in custom splits." (Some v)
            else
              Insert (mkExpenseData (selectedGroup form) (title form)
                        amountNum (paidBy form) custom
                        (Some (calculatedSplitDetails v)) uid)
        | equal =>
            Insert (mkExpenseData (selectedGroup form) (title form)
                      amountNum (paidBy form) equal None uid)
        end
  end.

End ExpensesPage.

(** What [decimalLiteral] can return for a text of digits with at
    most one point: nothing, or a value that is not negative. *)
Definition plainValue (o : option Qc) : Prop :=
  match o with
  | None => True
  | Some q => Qcle (qz 0) q
  end.

(** The number a row of the form stands for:
    [parseFloat(split.value) || 0]. *)
Definition valueNumOf (split : ExpensesPage.MemberSplitValue) : num :=
  orZero (parseFloat (ExpensesPage.value split)).

(** The entry the loop pushes for a row. *)
Definition entryOf (splitMode : ExpensesPage.SplitMode) (amountNum : num)
    (split : ExpensesPage.MemberSplitValue) : ExpensesPage.MemberSplit :=
  match splitMode with
  | ExpensesPage.amountMode => (ExpensesPage.member split, valueNumOf split)
  | ExpensesPage.percentage =>
      (ExpensesPage.member split,
       roundToCents
         (num_div (num_mul amountNum (valueNumOf split)) ExpensesPage.hundred))
  end.

(** A row that raises no error of its own. *)
Definition rowPasses (splitMode : ExpensesPage.SplitMode)
    (split : ExpensesPage.MemberSplitValue) : Prop :=
  ExpensesPage.value split <> "" /\
  num_lt (valueNumOf split) zero = false /\
  (splitMode = ExpensesPage.percentage ->
   num_gt (valueNumOf split) ExpensesPage.hundred = false).

(** A number that is not negative: finite or [Infinity]. *)
Definition notNegative (v : num) : Prop :=
  match v with
  | Fin q => Qcle (qz 0) q
  | PInf => True
  | _ => False
  end.

(** [|a - b| <= 0.01] *)
Definition withinCent (a b : num) : Prop :=
  num_le (num_abs (num_sub a b)) ExpensesPage.cent.

(** ** Rows with decimal amounts

    A fetched row holds, for a decimal text, the binary64 number
    nearest to it. *)
Definition doubleOf (v : num) : double :=
  match v with
  | Fin q => toDouble q
  | _ => toDouble (qz 0)
  end.

Definition decimal (s : string) : double := doubleOf (parseFloat s).

(** Alice pays 0.07 for Bob alone, then 0.01 for a group that lists
    Bob twice. *)
Definition sevenCents : Expense :=
  mkExpense (decimal "0.07") "Alice" custom
    (Some [mkSplit "Bob" (decimal "0.07")]) [] false.
Definition oneCent : Expense :=
  mkExpense (decimal "0.01") "Alice" equal None ["Alice"; "Bob"; " Bob"]
    false.

(** Three personal expenses whose category totals do not add up to
    their total. *)
Definition groceries : PersonalExpensesPage.PersonalExpense :=
  PersonalExpensesPage.mkPersonalExpense "Groceries" (decimal "33.5") "Food"
    "2024-03-05T12:00:00Z".
Definition flight : PersonalExpensesPage.PersonalExpense :=
  PersonalExpensesPage.mkPersonalExpense "Flight" (decimal "79.32") "Travel"
    "2024-03-09T08:00:00Z".
Definition snack : PersonalExpensesPage.PersonalExpense :=
  PersonalExpensesPage.mkPersonalExpense "Snack" (decimal "1.98") "Food"
    "2024-04-02T19:00:00Z".

(** [n] zeros. *)
Fixpoint zeros (n : nat) : string :=
  match n with
  | O => EmptyString
  | S k => String "0" (zeros k)
  end.

(** ** Numbers of the reference implementation

    [m * 2 ^ e] as a binary64 number of the Standard Library's
    [SpecFloat], and pairs of them on which the operations of [num] are
    compared with [SFadd], [SFmul] and [SFdiv]: 0.1 and 0.2, 10 and 3,
    2.01 and 50, [Number.MAX_VALUE] twice, [Number.MIN_VALUE] and 3,
    five times [Number.MIN_VALUE] and 2. *)
Definition sf (m e : Z) : spec_float := binary_normalize 53 1024 m e false.

Definition referencePairs : list (spec_float * spec_float) :=
  [(sf 7205759403792794 (-56), sf 7205759403792794 (-55));
   (sf 10 0, sf 3 0);
   (sf 4526034125507461 (-51), sf 50 0);
   (sf (2 ^ 53 - 1) 971, sf (2 ^ 53 - 1) 971);
   (sf 1 (-1074), sf 3 0);
   (sf 5 (-1074), sf 2 0)].

Definition agrees (reference : spec_float -> spec_float -> spec_float)
    (operation : num -> num -> num) (p : spec_float * spec_float) : bool :=
  num_eqb (ofSpecFloat (reference (fst p) (snd p)))
    (operation (ofSpecFloat (fst p)) (ofSpecFloat (snd p))).

(** The keys of a list in the order of their first occurrence. *)
Fixpoint firstOccurrences (l : list string) : list string :=
  match l with
  | [] => []
  | c :: l' =>
      c :: filter (fun d => negb (String.eqb d c)) (firstOccurrences l')
  end.

(** A list sorted newest first by the time [f] reads off its
    elements. *)
Definition descendingBy {A : Type} (f : A -> num) (a b : A) : Prop :=
  num_le (f b) (f a).

(** Closes a goal between two evaluated values, comparing the rationals
    inside by their fractions. *)
Ltac qc_eval :=
  vm_compute;
  first [ reflexivity
        | repeat (first [ apply Qc_is_canon; reflexivity
                        | f_equal ]);
          reflexivity ].

(** ** Rounding *)

Section Rounding.

Local Open Scope Z_scope.

Lemma rne_floor (a d : Z) : a / d <= rne a d <= a / d + 1.
Proof.
  unfold rne.
  destruct (2 * (a mod d) ?= d); [destruct (Z.even (a / d)) | | ]; lia.
Qed.

Lemma rne_le (a d k : Z) : 0 < d -> a <= k * d -> rne a d <= k.
Proof.
  intros Hd Ha. pose proof (Z.div_mod a d ltac:(lia)) as Hdm.
  pose proof (Z.mod_pos_bound a d Hd) as Hm.
  assert (Hq : a / d <= k) by (apply Z.div_le_upper_bound; lia).
  destruct (Z.eq_dec (a / d) k) as [Heq | Hne].
  - assert (Hr : a mod d = 0) by nia.
    unfold rne. rewrite Hr.
    assert (Hc : (2 * 0 ?= d) = Lt) by (apply Z.compare_lt_iff; lia).
    rewrite Hc. lia.
  - pose proof (rne_floor a d). lia.
Qed.

Lemma rne_ge (a d k : Z) : 0 < d -> k * d <= a -> k <= rne a d.
Proof.
  intros Hd Ha. pose proof (rne_floor a d).
  assert (k <= a / d) by (apply Z.div_le_lower_bound; lia). lia.
Qed.

Lemma rne_0 (d : Z) : 0 < d -> rne 0 d = 0.
Proof.
  intros Hd. unfold rne. rewrite Z.mod_0_l, Z.div_0_l by lia.
  assert (Hc : (2 * 0 ?= d) = Lt) by (apply Z.compare_lt_iff; lia).
  rewrite Hc. reflexivity.
Qed.

(** The spacing chosen for a value whose whole part is [n]. *)
Lemma spacing_cases (n : Z) :
  0 <= n ->
  let s := Z.max 0 (Z.log2 n - 52) in
  0 <= s /\ n < 2 ^ (s + 53) /\ (0 < s -> 2 ^ (s + 52) <= n).
Proof.
  intros Hn s. split; [lia | ].
  destruct (Z.eq_dec n 0) as [-> | Hnz].
  - cbn in s. subst s. cbn. lia.
  - pose proof (Z.log2_spec n ltac:(lia)) as [Hlo Hhi].
    pose proof (Z.log2_nonneg n) as Hl.
    split.
    + apply Z.lt_le_trans with (2 ^ Z.succ (Z.log2 n)); [exact Hhi | ].
      apply Z.pow_le_mono_r; lia.
    + intros Hs. replace (s + 52) with (Z.log2 n) by lia. exact Hlo.
Qed.

(** The rounded mantissa has at most 53 bits, and exactly 53 above the
    least spacing. *)
Lemma roundUnits_mantissa (a b : Z) :
  0 <= a -> 0 < b ->
  let s := Z.max 0 (Z.log2 (a / b) - 52) in
  0 <= rne a (b * 2 ^ s) <= 2 ^ 53 /\ (0 < s -> 2 ^ 52 <= rne a (b * 2 ^ s)).
Proof.
  intros Ha Hb s.
  assert (Hn : 0 <= a / b) by (apply Z.div_pos; lia).
  destruct (spacing_cases (a / b) Hn) as (Hs & Hhi & Hlo).
  fold s in Hs, Hhi, Hlo.
  assert (Hp : 0 < 2 ^ s) by (apply Z.pow_pos_nonneg; lia).
  assert (Hd : 0 < b * 2 ^ s) by nia.
  pose proof (Z.div_mod a b ltac:(lia)) as Hdm.
  pose proof (Z.mod_pos_bound a b Hb) as Hm.
  rewrite Z.pow_add_r in Hhi by lia.
  split; [split | ].
  - apply rne_ge; [exact Hd | lia].
  - apply rne_le; [exact Hd | ].
    set (P := 2 ^ s) in *. set (Q := 2 ^ 53) in *.
    set (n := a / b) in *. nia.
  - intros Hpos. specialize (Hlo Hpos). rewrite Z.pow_add_r in Hlo by lia.
    apply rne_ge; [exact Hd | ].
    set (P := 2 ^ s) in *. set (Q := 2 ^ 52) in *.
    set (n := a / b) in *. nia.
Qed.

Lemma roundUnits_nonneg (a b : Z) : 0 <= a -> 0 < b -> 0 <= roundUnits a b.
Proof.
  intros Ha Hb. destruct (roundUnits_mantissa a b Ha Hb) as [[Hm _] _].
  unfold roundUnits.
  assert (0 < 2 ^ Z.max 0 (Z.log2 (a / b) - 52))
    by (apply Z.pow_pos_nonneg; lia).
  nia.
Qed.

Lemma roundUnits_0 (b : Z) : 0 < b -> roundUnits 0 b = 0.
Proof.
  intros Hb. unfold roundUnits. rewrite Z.div_0_l by lia.
  change (Z.max 0 (Z.log2 0 - 52)) with 0.
  rewrite Z.pow_0_r, Z.mul_1_r, rne_0; lia.
Qed.

(** A value of at least [2 ^ k] units is not rounded below [2 ^ k]. *)
Lemma roundUnits_ge (a b k : Z) :
  0 < b -> 0 <= k -> 2 ^ k * b <= a -> 2 ^ k <= roundUnits a b.
Proof.
  intros Hb Hk Ha.
  assert (Hpk : 0 < 2 ^ k) by (apply Z.pow_pos_nonneg; lia).
  assert (Ha0 : 0 <= a) by nia.
  assert (Hn : 2 ^ k <= a / b) by (apply Z.div_le_lower_bound; lia).
  unfold roundUnits.
  destruct (roundUnits_mantissa a b Ha0 Hb) as [_ Hbig].
  set (s := Z.max 0 (Z.log2 (a / b) - 52)) in *.
  destruct (Z.eq_dec s 0) as [Hs | Hs].
  - rewrite Hs, Z.pow_0_r, !Z.mul_1_r. apply rne_ge; lia.
  - assert (Hpos : 0 < s) by lia. specialize (Hbig Hpos).
    assert (Hlog : k <= Z.log2 (a / b)).
    { apply Z.log2_le_pow2; lia. }
    assert (Hle : 2 ^ k <= 2 ^ (52 + s)).
    { apply Z.pow_le_mono_r; lia. }
    rewrite Z.pow_add_r in Hle by lia.
    assert (0 < 2 ^ s) by (apply Z.pow_pos_nonneg; lia).
    set (P := 2 ^ s) in *. set (Q := 2 ^ 52) in *. nia.
Qed.

(** A value of at most [(2 ^ 53 - 1) * 2 ^ E] units is not rounded
    above it. *)
Lemma roundUnits_le (a b E : Z) :
  0 <= a -> 0 < b -> 0 <= E -> a <= (2 ^ 53 - 1) * 2 ^ E * b ->
  roundUnits a b <= (2 ^ 53 - 1) * 2 ^ E.
Proof.
  intros Ha Hb HE Hmax.
  assert (HpE : 0 < 2 ^ E) by (apply Z.pow_pos_nonneg; lia).
  assert (Hn : 0 <= a / b) by (apply Z.div_pos; lia).
  assert (Hnmax : a / b <= (2 ^ 53 - 1) * 2 ^ E).
  { apply Z.div_le_upper_bound; lia. }
  destruct (roundUnits_mantissa a b Ha Hb) as [[_ Hm] _].
  destruct (spacing_cases (a / b) Hn) as (Hs & _ & Hlo).
  unfold roundUnits.
  set (s := Z.max 0 (Z.log2 (a / b) - 52)) in *.
  assert (Hps : 0 < 2 ^ s) by (apply Z.pow_pos_nonneg; lia).
  assert (HsE : s <= E).
  { destruct (Z.eq_dec s 0) as [-> | Hnz]; [exact HE | ].
    specialize (Hlo ltac:(lia)).
    destruct (Z.le_gt_cases s E) as [H | H]; [exact H | exfalso].
    assert (Hpow : 2 ^ (E + 53) <= 2 ^ (s + 52)).
    { apply Z.pow_le_mono_r; lia. }
    rewrite Z.pow_add_r in Hpow by lia.
    set (P := 2 ^ E) in *. set (Q := 2 ^ 53) in *. nia. }
  destruct (Z.eq_dec s E) as [Heq | Hne].
  - rewrite Heq in *.
    assert (Hr : rne a (b * 2 ^ E) <= 2 ^ 53 - 1).
    { apply rne_le; [nia | lia]. }
    nia.
  - assert (Hpow : 2 ^ (s + 1) <= 2 ^ E) by (apply Z.pow_le_mono_r; lia).
    rewrite Z.pow_add_r in Hpow by lia. change (2 ^ 1) with 2 in Hpow.
    set (P := 2 ^ E) in *. set (S := 2 ^ s) in *.
    set (r := rne a (b * S)) in *.
    assert (Hr : r * S <= 2 ^ 53 * S) by nia.
    lia.
Qed.

(** A rounded value below [2 ^ (E + 53)] units is at most
    [(2 ^ 53 - 1) * 2 ^ E]. *)
Lemma roundUnits_below (a b E : Z) :
  0 <= a -> 0 < b -> 0 <= E -> roundUnits a b < 2 ^ (E + 53) ->
  roundUnits a b <= (2 ^ 53 - 1) * 2 ^ E.
Proof.
  intros Ha Hb HE Hlt.
  assert (HpE : 0 < 2 ^ E) by (apply Z.pow_pos_nonneg; lia).
  destruct (roundUnits_mantissa a b Ha Hb) as [[Hm0 Hm] _].
  unfold roundUnits in *.
  set (s := Z.max 0 (Z.log2 (a / b) - 52)) in *.
  assert (Hs : 0 <= s) by lia.
  assert (Hps : 0 < 2 ^ s) by (apply Z.pow_pos_nonneg; lia).
  rewrite Z.pow_add_r in Hlt by lia.
  destruct (Z.lt_ge_cases s E) as [Hlow | Hhigh].
  - assert (Hpow : 2 ^ (s + 1) <= 2 ^ E) by (apply Z.pow_le_mono_r; lia).
    rewrite Z.pow_add_r in Hpow by lia. change (2 ^ 1) with 2 in Hpow.
    set (P := 2 ^ E) in *. set (S := 2 ^ s) in *.
    set (r := rne a (b * S)) in *.
    assert (Hr : r * S <= 2 ^ 53 * S) by nia.
    lia.
  - replace s with (E + (s - E)) in * by lia.
    rewrite Z.pow_add_r in * by lia.
    assert (Hpd : 0 < 2 ^ (s - E)) by (apply Z.pow_pos_nonneg; lia).
    set (P := 2 ^ E) in *. set (D := 2 ^ (s - E)) in *.
    set (r := rne a (b * (P * D))) in *.
    assert (Hr : r * D < 2 ^ 53) by nia.
    nia.
Qed.

End Rounding.

(** ** Whole numbers of units *)

Section Units.

Local Open Scope Qc_scope.

Lemma this_units (r : Z) : (this (units r) == r # scale)%Q.
Proof. unfold units, Q2Qc. cbn [this]. rewrite !Qred_correct. reflexivity. Qed.

Lemma qz_0 : qz 0 = 0.
Proof. reflexivity. Qed.

Lemma this_qz (z : Z) : (this (qz z) == inject_Z z)%Q.
Proof. unfold qz, Q2Qc. cbn [this]. apply Qred_correct. Qed.

Lemma units_le (a b : Z) : (a <= b)%Z -> units a <= units b.
Proof.
  intros H. unfold Qcle. rewrite !this_units. unfold Qle. cbn [Qnum Qden].
  apply Z.mul_le_mono_nonneg_r; [apply Pos2Z.is_nonneg | exact H].
Qed.

Lemma units_lt (a b : Z) : (a < b)%Z -> units a < units b.
Proof.
  intros H. unfold Qclt. rewrite !this_units. unfold Qlt. cbn [Qnum Qden].
  apply Z.mul_lt_mono_pos_r; [apply Pos2Z.is_pos | exact H].
Qed.

Lemma units_0 : units 0 = qz 0.
Proof.
  apply Qc_is_canon. rewrite this_units, this_qz. reflexivity.
Qed.

Lemma units_plus (a b : Z) : units a + units b = units (a + b).
Proof.
  apply Qc_is_canon. unfold Qcplus, Q2Qc. cbn [this].
  rewrite Qred_correct, !this_units.
  unfold Qeq, Qplus. cbn [Qnum Qden]. rewrite Pos2Z.inj_mul. ring.
Qed.

Lemma units_opp (a : Z) : - units a = units (- a).
Proof.
  apply Qc_is_canon. unfold Qcopp, Q2Qc. cbn [this].
  rewrite Qred_correct, !this_units. reflexivity.
Qed.

Lemma units_abs (a : Z) : Qcabs (units a) = units (Z.abs a).
Proof.
  apply Qc_is_canon. cbn [Qcabs this]. rewrite !this_units. reflexivity.
Qed.

Lemma qz_units (z : Z) : qz z = units (z * Zpos scale).
Proof.
  apply Qc_is_canon. rewrite this_units, this_qz.
  unfold Qeq, inject_Z. cbn [Qnum Qden]. ring.
Qed.

(** Comparing a rational with a number of units, by cross
    multiplication. *)
Lemma units_le_iff (q : Qc) (z : Z) :
  units z <= q <-> (z * Zpos (Qden q) <= Qnum q * Zpos scale)%Z.
Proof. unfold Qcle. rewrite this_units. reflexivity. Qed.

Lemma le_units_iff (q : Qc) (z : Z) :
  q <= units z <-> (Qnum q * Zpos scale <= z * Zpos (Qden q))%Z.
Proof. unfold Qcle. rewrite this_units. reflexivity. Qed.

Lemma Qnum_abs (q : Qc) : Qnum (Qcabs q) = Z.abs (Qnum q).
Proof. destruct q as [[n d] Hq]. reflexivity. Qed.

Lemma Qden_abs (q : Qc) : Qden (Qcabs q) = Qden q.
Proof. destruct q as [[n d] Hq]. reflexivity. Qed.

Lemma this_opp (q : Qc) : this (- q) = Qopp (this q).
Proof.
  unfold Qcopp, Q2Qc. cbn [this]. rewrite Qred_opp, canon. reflexivity.
Qed.

Lemma Qnum_opp (q : Qc) : Qnum (Qcopp q) = (- Qnum q)%Z.
Proof. rewrite this_opp. destruct (this q). reflexivity. Qed.

Lemma Qden_opp (q : Qc) : Qden (Qcopp q) = Qden q.
Proof. rewrite this_opp. destruct (this q). reflexivity. Qed.

Lemma Qnum_nonneg (q : Qc) : 0 <= q <-> (0 <= Qnum q)%Z.
Proof.
  unfold Qcle, Qle. change (this 0) with (0 # 1)%Q. cbn [Qnum Qden].
  split; intros H; lia.
Qed.

Lemma on_grid_units (z : Z) : on_grid (units z).
Proof. exists z. reflexivity. Qed.

Lemma on_grid_qz (z : Z) : on_grid (qz z).
Proof. exists (z * Zpos scale)%Z. apply qz_units. Qed.

Lemma on_grid_plus (x y : Qc) : on_grid x -> on_grid y -> on_grid (x + y).
Proof. intros [a ->] [b ->]. exists (a + b)%Z. apply units_plus. Qed.

Lemma on_grid_opp (x : Qc) : on_grid x -> on_grid (- x).
Proof. intros [a ->]. exists (- a)%Z. apply units_opp. Qed.

Lemma on_grid_abs (x : Qc) : on_grid x -> on_grid (Qcabs x).
Proof. intros [a ->]. exists (Z.abs a). apply units_abs. Qed.

(** A positive whole number of units is at least the least positive
    number. *)
Lemma on_grid_positive (x : Qc) : on_grid x -> 0 < x -> minValue <= x.
Proof.
  intros [a ->] Hpos. apply units_le.
  destruct (Z.lt_ge_cases 0 a) as [H | H]; [lia | exfalso].
  apply units_le in H. rewrite units_0, qz_0 in H.
  exact (Qcle_not_lt _ _ H Hpos).
Qed.

End Units.

(** ** [round64] *)

Section Round64.

Local Open Scope Qc_scope.

Lemma scale_pow : Zpos scale = (2 ^ 1074)%Z.
Proof. unfold scale. apply Pos2Z.inj_pow. Qed.

Lemma overflow_pow : overflow = (2 ^ (2045 + 53))%Z.
Proof. reflexivity. Qed.

Lemma overflow_positive : (0 < overflow)%Z.
Proof. unfold overflow. apply Z.pow_pos_nonneg; lia. Qed.

(** The two outcomes of rounding: a whole number of units below
    [2 ^ 1024], with the sign of [q], or an infinity with that sign. *)
Lemma round64_spec (q : Qc) :
  let r := roundUnits (Z.abs (Qnum q) * Zpos scale) (Zpos (Qden q)) in
  (0 <= r)%Z /\
  ((r < overflow)%Z /\ round64 q = Fin (units (Z.sgn (Qnum q) * r)) \/
   (overflow <= r)%Z /\ Qnum q <> 0%Z /\
   round64 q = if (Qnum q <? 0)%Z then NInf else PInf).
Proof.
  intros r.
  assert (Hr : (0 <= r)%Z).
  { apply roundUnits_nonneg; [ | apply Pos2Z.is_pos].
    apply Z.mul_nonneg_nonneg; [apply Z.abs_nonneg | apply Pos2Z.is_nonneg]. }
  split; [exact Hr | ]. unfold round64. fold r.
  destruct (Z.leb_spec overflow r) as [Hover | Hfin].
  - right. split; [exact Hover | ]. split; [ | reflexivity].
    intros Hn. pose proof overflow_positive as Hpos.
    unfold r in Hover. rewrite Hn in Hover. cbn [Z.abs Z.mul] in Hover.
    rewrite roundUnits_0 in Hover by apply Pos2Z.is_pos. lia.
  - left. split; [exact Hfin | reflexivity].
Qed.

Lemma round64_number (q : Qc) : is_number (round64 q).
Proof.
  destruct (round64_spec q) as [_ [[_ ->] | (_ & _ & ->)]].
  - apply on_grid_units.
  - destruct (Qnum q <? 0)%Z; exact I.
Qed.

Lemma is_number_not_NaN (v : num) : is_number v -> not_NaN v.
Proof. destruct v; simpl; tauto. Qed.

Lemma round64_not_NaN (q : Qc) : not_NaN (round64 q).
Proof. apply is_number_not_NaN, round64_number. Qed.

(** Rounding keeps the sign. *)
Lemma round64_nonneg (q : Qc) : 0 <= q -> nonneg (round64 q).
Proof.
  intros Hq. apply Qnum_nonneg in Hq.
  destruct (round64_spec q) as [Hr [[_ ->] | (_ & _ & ->)]].
  - unfold nonneg, zero, num_le. rewrite <- units_0. apply units_le.
    apply Z.mul_nonneg_nonneg; [ | exact Hr].
    apply Z.sgn_nonneg, Hq.
  - destruct (Z.ltb_spec (Qnum q) 0); [lia | exact I].
Qed.

Lemma round64_opp (q : Qc) : round64 (- q) = num_neg (round64 q).
Proof.
  pose proof (round64_spec (- q)) as Ho. pose proof (round64_spec q) as Hq.
  cbv zeta in Ho, Hq. rewrite Qnum_opp, Qden_opp, Z.abs_opp in Ho.
  set (r := roundUnits (Z.abs (Qnum q) * Zpos scale) (Zpos (Qden q))) in *.
  destruct Ho as [_ [[Ho ->] | (Ho & Hn & ->)]];
    destruct Hq as [_ [[Hq ->] | (Hq & _ & ->)]]; try lia.
  - cbn [num_neg]. f_equal. rewrite units_opp. f_equal.
    rewrite Z.sgn_opp. ring.
  - destruct (Z.ltb_spec (- Qnum q) 0), (Z.ltb_spec (Qnum q) 0);
      try reflexivity; lia.
Qed.

Lemma maxValue_below_overflow (r : Z) :
  (r <= (2 ^ 53 - 1) * 2 ^ 2045)%Z -> (r < overflow)%Z.
Proof.
  rewrite overflow_pow, Z.pow_add_r by lia.
  assert (0 < 2 ^ 2045)%Z by (apply Z.pow_pos_nonneg; lia).
  set (P := (2 ^ 2045)%Z) in *. lia.
Qed.

(** A rational within the range of the finite numbers is rounded to a
    finite number. *)
Lemma round64_finite (q : Qc) : Qcabs q <= maxValue -> is_fin (round64 q).
Proof.
  intros Hq. unfold maxValue in Hq. apply le_units_iff in Hq.
  rewrite Qnum_abs, Qden_abs in Hq.
  destruct (round64_spec q) as [_ [[_ ->] | (Hover & _ & _)]]; [exact I | ].
  exfalso. apply Z.le_ngt in Hover. apply Hover, maxValue_below_overflow.
  apply roundUnits_le; lia.
Qed.

(** A finite result is within that range. *)
Lemma round64_bounded (q r : Qc) : round64 q = Fin r -> Qcabs r <= maxValue.
Proof.
  destruct (round64_spec q) as [Hr [[Hlt ->] | (_ & _ & ->)]].
  - intros [= <-]. rewrite units_abs. apply units_le.
    rewrite Z.abs_mul, (Z.abs_eq _ Hr).
    rewrite overflow_pow in Hlt.
    assert (Hle : (roundUnits (Z.abs (Qnum q) * Zpos scale) (Zpos (Qden q))
                   <= (2 ^ 53 - 1) * 2 ^ 2045)%Z).
    { apply roundUnits_below; lia. }
    pose proof (Z.sgn_spec (Qnum q)) as Hs.
    set (ru := roundUnits _ _) in *. set (M := ((2 ^ 53 - 1) * 2 ^ 2045)%Z) in *.
    destruct Hs as [[_ ->] | [[_ ->] | [_ ->]]]; cbn [Z.abs]; lia.
  - destruct (Qnum q <? 0)%Z; discriminate.
Qed.

(** A rational of at least [2 ^ k] units is rounded to a number of at
    least [2 ^ k] units. *)
Lemma round64_least (q : Qc) (k : Z) :
  (0 <= k)%Z -> units (2 ^ k) <= q ->
  match round64 q with
  | Fin r => units (2 ^ k) <= r
  | PInf => True
  | _ => False
  end.
Proof.
  intros Hk Hq. apply units_le_iff in Hq.
  assert (Hpk : (0 < 2 ^ k)%Z) by (apply Z.pow_pos_nonneg; lia).
  assert (Hn : (0 < Qnum q)%Z).
  { pose proof (Pos2Z.is_pos (Qden q)). pose proof (Pos2Z.is_pos scale). nia. }
  destruct (round64_spec q) as [Hr [[_ ->] | (_ & _ & ->)]].
  - apply units_le. rewrite (Z.sgn_pos _ Hn), Z.mul_1_l.
    apply roundUnits_ge; [apply Pos2Z.is_pos | exact Hk | ].
    rewrite (Z.abs_eq (Qnum q)) by lia. exact Hq.
  - destruct (Z.ltb_spec (Qnum q) 0); [lia | exact I].
Qed.

(** No positive whole number of units is rounded to 0. *)
Lemma round64_positive (q : Qc) :
  minValue <= q -> num_gt (round64 q) zero = true.
Proof.
  intros Hq. pose proof (round64_least q 0 ltac:(lia) Hq) as H.
  destruct (round64 q) as [r | | | ]; try contradiction; [ | reflexivity].
  unfold num_gt, zero. change (2 ^ 0)%Z with 1%Z in H.
  assert (Hpos : 0 < r).
  { apply Qclt_le_trans with (units 1); [ | exact H].
    rewrite <- qz_0, <- units_0. apply units_lt. lia. }
  replace (Qccompare r (qz 0)) with Gt; [reflexivity | ].
  symmetry. apply Qcgt_alt. exact Hpos.
Qed.

Lemma units_scale : units (2 ^ 1074) = 1.
Proof.
  apply Qc_is_canon. rewrite this_units. unfold Qeq. cbn [Qnum Qden].
  rewrite scale_pow. change (Qnum (this 1)) with 1%Z.
  change (Zpos (Qden (this 1))) with 1%Z. ring.
Qed.

(** A rational of at least 1 is rounded to a number of at least 1. *)
Lemma round64_least_one (q r : Qc) : 1 <= q -> round64 q = Fin r -> 1 <= r.
Proof.
  intros Hq Hr. rewrite <- units_scale in *.
  pose proof (round64_least q 1074 ltac:(lia) Hq) as H.
  rewrite Hr in H. exact H.
Qed.

(** ** Numbers of the rows *)

Lemma num_eqb_eq (a b : num) : num_eqb a b = true -> a = b.
Proof.
  destruct a, b; simpl; try discriminate; try reflexivity.
  intros H. f_equal. apply Qc_eq_bool_correct, H.
Qed.

Lemma double_round (d : double) : round64 d = Fin d.
Proof. apply num_eqb_eq, dbl_ok. Qed.

Lemma double_bounded (d : double) : Qcabs d <= maxValue.
Proof. apply (round64_bounded d d), double_round. Qed.

End Round64.

(** ** Arithmetic of [num] *)

Section NumFacts.

Local Open Scope Qc_scope.

Lemma Qc_eq_bool_refl (x : Qc) : Qc_eq_bool x x = true.
Proof.
  unfold Qc_eq_bool. destruct (Qc_eq_dec x x); [reflexivity | congruence].
Qed.

Lemma num_eqb_refl (a : num) : num_eqb a a = true.
Proof. destruct a; simpl; [apply Qc_eq_bool_refl | | | ]; reflexivity. Qed.

Lemma Qc_eq_bool_false (x y : Qc) : Qc_eq_bool x y = false <-> x <> y.
Proof.
  unfold Qc_eq_bool. destruct (Qc_eq_dec x y); split; congruence.
Qed.

Lemma Fin_inj (a b : Qc) : Fin a = Fin b -> a = b.
Proof. intros H. injection H as H. exact H. Qed.

Lemma zero_number : is_number zero.
Proof. apply on_grid_qz. Qed.

(** Adding a finite number never gives [NaN]. *)
Lemma num_add_number (a b : num) :
  not_NaN a -> is_fin b -> is_number (num_add a b).
Proof.
  destruct a as [x | | | ], b as [y | | | ];
    cbn [num_add not_NaN is_fin is_number]; try tauto.
  intros _ _. apply round64_number.
Qed.

Lemma is_fin_neg (a : num) : is_fin a -> is_fin (num_neg a).
Proof. destruct a; simpl; tauto. Qed.

Lemma num_abs_number (a : num) : is_number a -> is_number (num_abs a).
Proof.
  destruct a as [x | | | ]; cbn [num_abs is_number]; try tauto.
  apply on_grid_abs.
Qed.

Lemma num_abs_neg (a : num) : num_abs (num_neg a) = num_abs a.
Proof.
  destruct a as [x | | | ]; cbn [num_abs num_neg]; try reflexivity.
  rewrite Qcabs_opp. reflexivity.
Qed.

(** A number other than [NaN] read with [|| 0] is the number itself. *)
Lemma truthy_or_zero (v : num) :
  not_NaN v -> (if truthy v then v else zero) = v.
Proof.
  destruct v as [q | | | ]; simpl; try tauto. intros _.
  unfold Qc_eq_bool. destruct (Qc_eq_dec q (qz 0)) as [-> | ]; reflexivity.
Qed.

(** Adding a number of the rows to 0 gives that number. *)
Lemma num_add_zero_double (d : double) : num_add zero (Fin d) = Fin d.
Proof.
  unfold zero. cbn [num_add].
  replace (qz 0 + d) with (dbl d) by (rewrite qz_0; ring).
  apply double_round.
Qed.

(** The length of a non-empty list is a positive divisor. *)
Lemma qsign_length (n : nat) : qsign (qz (Z.of_nat (S n))) = Gt.
Proof.
  unfold qsign. apply Qcgt_alt. unfold qz, Q2Qc. cbn [this].
  rewrite !Qred_correct. unfold Qlt, inject_Z. cbn [Qnum Qden]. lia.
Qed.

(** Dividing by a positive whole number does not increase the
    magnitude. *)
Lemma Qcabs_div_length (x : Qc) (n : nat) :
  Qcabs (x / qz (Z.of_nat (S n))) <= Qcabs x.
Proof.
  unfold Qcdiv. rewrite Qcabs_Qcmult.
  assert (Hinv : Qcabs (/ qz (Z.of_nat (S n))) <= 1).
  { unfold Qcle, Qcabs, Qcinv, qz, Q2Qc. cbn [this].
    rewrite !Qred_correct. unfold Qle, Qinv, Qabs, inject_Z.
    cbn [Qnum Qden Z.of_nat]. cbn. lia. }
  pose proof (Qcmult_le_compat_r _ _ (Qcabs x) Hinv (Qcabs_nonneg x)) as H.
  rewrite Qcmult_1_l in H. rewrite Qcmult_comm. exact H.
Qed.

(** The share of an equal split over a group that has members is
    finite. *)
Lemma share_finite (a : double) (n : nat) :
  is_fin (num_div (Fin a) (of_nat (S n))).
Proof.
  unfold num_div, of_nat. rewrite qsign_length.
  apply round64_finite.
  apply Qcle_trans with (Qcabs a);
    [apply Qcabs_div_length | apply double_bounded].
Qed.

(** Adding opposites is subtracting. *)
Lemma addAll_neg (b : num) (l : list num) :
  addAll b (map num_neg l) = subAll b l.
Proof.
  revert b. induction l as [ | v l IH]; intros b; [reflexivity | ].
  cbn [map]. unfold addAll, subAll. cbn [fold_left]. apply IH.
Qed.

End NumFacts.

(** ** [trim] *)

Section TrimFacts.

Lemma trimStart_clean (s : string) : clean_start (trimStart s).
Proof.
  induction s as [ | c s IH]; simpl.
  - exact I.
  - destruct (is_ws c) eqn:Hc; [exact IH | exact Hc].
Qed.

Lemma trimStart_fixed (s : string) : clean_start s -> trimStart s = s.
Proof.
  destruct s as [ | c s]; simpl.
  - reflexivity.
  - intros ->. reflexivity.
Qed.

Lemma trimEnd_clean (s : string) : clean_start s -> clean_start (trimEnd s).
Proof.
  destruct s as [ | c s]; simpl.
  - trivial.
  - intros Hc. destruct (trimEnd s); [rewrite Hc | ]; exact Hc.
Qed.

Lemma trimEnd_idem (s : string) : trimEnd (trimEnd s) = trimEnd s.
Proof.
  induction s as [ | c s IH]; simpl.
  - reflexivity.
  - destruct (trimEnd s) as [ | d t] eqn:Ht.
    + destruct (is_ws c) eqn:Hc; simpl; [ | rewrite Hc]; reflexivity.
    + change (trimEnd (String c (String d t)))
        with (match trimEnd (String d t) with
              | EmptyString =>
                  if is_ws c then EmptyString else String c EmptyString
              | String _ _ as u => String c u
              end).
      rewrite IH. reflexivity.
Qed.

Lemma trim_idem (s : string) : trim (trim s) = trim s.
Proof.
  unfold trim.
  rewrite (trimStart_fixed (trimEnd (trimStart s))).
  - apply trimEnd_idem.
  - apply trimEnd_clean, trimStart_clean.
Qed.

End TrimFacts.

(** ** The balance map *)

Section MapFacts.

Lemma mget_mset (m : balmap) (k k' : string) (v : num) :
  mget (mset m k v) k' = if String.eqb k k' then Some v else mget m k'.
Proof.
  induction m as [ | [k0 v0] m IH]; simpl.
  - reflexivity.
  - destruct (String.eqb_spec k0 k) as [-> | Hk0]; simpl.
    + destruct (String.eqb k k'); reflexivity.
    + rewrite IH. destruct (String.eqb_spec k0 k') as [-> | ].
      * destruct (String.eqb_spec k k'); [congruence | reflexivity].
      * reflexivity.
Qed.

Lemma balanceOf_mset (m : balmap) (k k' : string) (v : num) :
  balanceOf (mset m k v) k' = if String.eqb k k' then v else balanceOf m k'.
Proof.
  unfold balanceOf. rewrite mget_mset. destruct (String.eqb k k'); reflexivity.
Qed.

Lemma mget_In (m : balmap) (k : string) (v : num) :
  mget m k = Some v -> In (k, v) m.
Proof.
  induction m as [ | [k0 v0] m IH]; simpl; [discriminate | ].
  destruct (String.eqb_spec k0 k) as [-> | ].
  - intros [= ->]. left. reflexivity.
  - intros H. right. exact (IH H).
Qed.

Lemma In_mget (m : balmap) (k : string) (v : num) :
  NoDup (keys m) -> In (k, v) m -> mget m k = Some v.
Proof.
  induction m as [ | [k0 v0] m IH]; simpl; [tauto | ].
  intros Hnd [[= -> ->] | Hin].
  - rewrite String.eqb_refl. reflexivity.
  - inversion Hnd as [ | ? ? Hk0 Hnd']; subst.
    destruct (String.eqb_spec k0 k) as [-> | ].
    + exfalso. apply Hk0. change k with (fst (k, v)). apply in_map, Hin.
    + apply IH; assumption.
Qed.

Lemma In_keys_mset (m : balmap) (k k' : string) (v : num) :
  In k' (keys (mset m k v)) <-> k' = k \/ In k' (keys m).
Proof.
  induction m as [ | [k0 v0] m IH]; simpl.
  - intuition congruence.
  - destruct (String.eqb_spec k0 k) as [-> | Hne]; simpl.
    + intuition congruence.
    + rewrite IH. tauto.
Qed.

Lemma NoDup_keys_mset (m : balmap) (k : string) (v : num) :
  NoDup (keys m) -> NoDup (keys (mset m k v)).
Proof.
  induction m as [ | [k0 v0] m IH]; simpl; intros Hnd.
  - constructor; [tauto | constructor].
  - inversion Hnd as [ | ? ? Hk0 Hnd']; subst.
    destruct (String.eqb_spec k0 k) as [-> | Hne]; simpl.
    + constructor; assumption.
    + constructor; [ | apply IH, Hnd'].
      fold (keys (mset m k v)). rewrite In_keys_mset. intuition congruence.
Qed.

Lemma Forall_mset (P : string * num -> Prop) (m : balmap) (k : string)
    (v : num) :
  Forall P m -> P (k, v) -> Forall P (mset m k v).
Proof.
  intros Hm Hkv. induction Hm as [ | [k0 v0] m H0 Hm IH]; simpl.
  - constructor; [exact Hkv | constructor].
  - destruct (String.eqb_spec k0 k) as [-> | Hne].
    + constructor; assumption.
    + constructor; assumption.
Qed.

Lemma wf_map_nil : wf_map [].
Proof. split; constructor. Qed.

Lemma wf_map_mset (m : balmap) (k : string) (v : num) :
  wf_map m -> trim k = k -> is_number v -> wf_map (mset m k v).
Proof.
  intros [Hnd Hall] Hk Hv. split.
  - apply NoDup_keys_mset, Hnd.
  - apply Forall_mset; [exact Hall | split; assumption].
Qed.

Lemma wf_map_number (m : balmap) (k : string) :
  wf_map m -> is_number (balanceOf m k).
Proof.
  intros [_ Hall]. unfold balanceOf.
  destruct (mget m k) as [v | ] eqn:Hget; [ | apply zero_number].
  apply mget_In in Hget. rewrite Forall_forall in Hall.
  exact (proj2 (Hall _ Hget)).
Qed.

(** On a well-formed map, [get(k) || 0] reads the recorded balance. *)
Lemma getOr0_balanceOf (m : balmap) (k : string) :
  wf_map m -> getOr0 m k = balanceOf m k.
Proof.
  intros Hwf. pose proof (wf_map_number m k Hwf) as Hnum.
  unfold getOr0, balanceOf in *.
  destruct (mget m k) as [v | ]; [ | reflexivity].
  apply truthy_or_zero, is_number_not_NaN, Hnum.
Qed.

End MapFacts.

(** ** The inner loops

    The four loop bodies have one shape: entries selected by a test
    add a value to the balance of a key. *)

Section CreditLoop.

Context {A : Type} (cond : A -> bool) (key : A -> string) (val : A -> num).

Local Abbreviation creditStep := (creditStep cond key val).
Local Abbreviation credited := (credited cond key val).
Local Abbreviation creditable := (creditable cond key val).

Lemma creditStep_wf (m : balmap) (x : A) :
  wf_map m -> (cond x = true -> trim (key x) = key x /\ is_fin (val x)) ->
  wf_map (creditStep m x).
Proof.
  intros Hwf Hx. unfold creditStep. destruct (cond x); [ | exact Hwf].
  destruct (Hx eq_refl) as [Hk Hv]. apply wf_map_mset; try assumption.
  apply num_add_number; [ | exact Hv].
  rewrite getOr0_balanceOf by exact Hwf.
  apply is_number_not_NaN, wf_map_number, Hwf.
Qed.

Lemma creditStep_balance (m : balmap) (x : A) (k : string) :
  wf_map m ->
  balanceOf (creditStep m x) k =
  if cond x && String.eqb (key x) k then num_add (balanceOf m k) (val x)
  else balanceOf m k.
Proof.
  intros Hwf. unfold creditStep. destruct (cond x); simpl; [ | reflexivity].
  rewrite balanceOf_mset, getOr0_balanceOf by exact Hwf.
  destruct (String.eqb_spec (key x) k) as [-> | ]; reflexivity.
Qed.

Lemma creditStep_skip (m : balmap) (x : A) :
  cond x = false -> creditStep m x = m.
Proof. unfold creditStep. intros ->. reflexivity. Qed.

(** After the loop the balance of [k] is its former value with the
    values of the selected entries of key [k] added one after the
    other. *)
Lemma credit_loop (l : list A) (m : balmap) :
  wf_map m -> creditable l ->
  wf_map (fold_left creditStep l m) /\
  forall k, balanceOf (fold_left creditStep l m) k =
            addAll (balanceOf m k) (credited k l).
Proof.
  revert m. induction l as [ | x l IH]; intros m Hwf Hl; simpl.
  - split; [exact Hwf | ]. intros k. reflexivity.
  - assert (Hx : cond x = true -> trim (key x) = key x /\ is_fin (val x))
      by (apply Hl; left; reflexivity).
    assert (Hl' : creditable l)
      by (intros y Hy; apply Hl; right; exact Hy).
    destruct (IH (creditStep m x) (creditStep_wf m x Hwf Hx) Hl')
      as [Hwf' Hbal].
    split; [exact Hwf' | ]. intros k.
    rewrite Hbal, creditStep_balance by exact Hwf.
    unfold credited. simpl filter.
    destruct (cond x && String.eqb (key x) k); reflexivity.
Qed.

Lemma credit_loop_skip (l : list A) (m : balmap) :
  (forall x, In x l -> cond x = false) -> fold_left creditStep l m = m.
Proof.
  revert m. induction l as [ | x l IH]; intros m Hl; simpl.
  - reflexivity.
  - rewrite creditStep_skip by (apply Hl; left; reflexivity).
    apply IH. intros y Hy. apply Hl. right. exact Hy.
Qed.

(** A key of the result was there before or was credited. *)
Lemma credit_loop_keys (l : list A) (m : balmap) (k : string) :
  In k (keys (fold_left creditStep l m)) ->
  In k (keys m) \/ exists x, In x l /\ cond x = true /\ key x = k.
Proof.
  revert m. induction l as [ | x l IH]; intros m; cbn [fold_left].
  - intros H. left. exact H.
  - intros H. destruct (IH _ H) as [Hm | (y & Hy & Hc & Hk)].
    + unfold creditStep in Hm. destruct (cond x) eqn:Hc.
      * apply In_keys_mset in Hm. destruct Hm as [-> | Hm].
        -- right. exists x. split; [left; reflexivity | auto].
        -- left. exact Hm.
      * left. exact Hm.
    + right. exists y. split; [right; exact Hy | auto].
Qed.

End CreditLoop.

Lemma fold_left_ext {A B : Type} (f g : B -> A -> B) (l : list A) (b : B) :
  (forall b x, f b x = g b x) -> fold_left f l b = fold_left g l b.
Proof.
  intros Hfg. revert b. induction l as [ | x l IH]; intros b; simpl.
  - reflexivity.
  - rewrite Hfg. apply IH.
Qed.

Lemma filter_false {A : Type} (f : A -> bool) (l : list A) :
  (forall x, In x l -> f x = false) -> filter f l = [].
Proof.
  induction l as [ | x l IH]; intros Hl; simpl.
  - reflexivity.
  - rewrite (Hl x (or_introl eq_refl)). apply IH.
    intros y Hy. apply Hl. right. exact Hy.
Qed.

Lemma map_same {A B : Type} (v : B) (l : list A) :
  map (fun _ => v) l = repeat v (length l).
Proof.
  induction l as [ | x l IH]; simpl; [ | rewrite IH]; reflexivity.
Qed.

(** The loop bodies as instances of [creditStep]. *)

Lemma equalStep_payer (u p : string) (share : num) (m : balmap) (x : string) :
  equalStep u true p share m x =
  creditStep (notViewer u) trim (fun _ => share) m x.
Proof.
  unfold equalStep, creditStep, notViewer.
  destruct (String.eqb (trim x) (trim u)); reflexivity.
Qed.

Lemma equalStep_other (u p : string) (share : num) (m : balmap) (x : string) :
  equalStep u false p share m x =
  creditStep (fun y => notViewer u y && String.eqb (trim p) (trim y))
    trim (fun _ => num_neg share) m x.
Proof.
  unfold equalStep, creditStep, notViewer.
  destruct (String.eqb (trim x) (trim u)); simpl; [reflexivity | ].
  destruct (String.eqb (trim p) (trim x)); reflexivity.
Qed.

Lemma customPayerStep_credit (u : string) (m : balmap) (s : Split) :
  customPayerStep u m s =
  creditStep (fun d => notViewer u (member d)) (fun d => trim (member d))
    (fun d => Fin (split_amount d)) m s.
Proof. reflexivity. Qed.

Lemma customOtherStep_credit (u pn : string) (m : balmap) (s : Split) :
  customOtherStep u pn m s =
  creditStep (fun d => trimsTo (trim u) (member d)) (fun _ => pn)
    (fun d => num_neg (Fin (split_amount d))) m s.
Proof. reflexivity. Qed.

(** ** One expense *)

Section ProcessExpense.

Variable u : string.

Lemma share_cases (e : Expense) : members e = [] \/ is_fin (shareOf e).
Proof.
  unfold shareOf. destruct (members e) as [ | x l]; [left; reflexivity | ].
  right. simpl length. apply share_finite.
Qed.

Lemma trimsTo_notViewer (k x : string) :
  k <> trim u -> notViewer u x && String.eqb (trim x) k = trimsTo k x.
Proof.
  intros Hk. unfold notViewer, trimsTo.
  destruct (String.eqb_spec (trim x) k) as [Hx | ];
    [ | apply andb_false_r].
  destruct (String.eqb_spec (trim x) (trim u)); [congruence | reflexivity].
Qed.

Lemma viewer_not_credited (x : string) :
  notViewer u x && String.eqb (trim x) (trim u) = false.
Proof.
  unfold notViewer. destruct (String.eqb (trim x) (trim u)); reflexivity.
Qed.

(** The equal-split loop when the viewer paid. *)
Lemma equal_payer_loop (p : string) (share : num) (l : list string)
    (m : balmap) :
  wf_map m -> l = [] \/ is_fin share ->
  wf_map (fold_left (equalStep u true p share) l m) /\
  forall k,
    balanceOf (fold_left (equalStep u true p share) l m) k =
    if String.eqb k (trim u) then balanceOf m k
    else addAll (balanceOf m k) (repeat share (occurrences k l)).
Proof.
  intros Hwf [-> | Hshare].
  - split; [exact Hwf | ]. intros k. simpl.
    destruct (String.eqb k (trim u)); reflexivity.
  - rewrite (fold_left_ext _ _ l m (equalStep_payer u p share)).
    destruct (credit_loop (notViewer u) trim (fun _ => share) l m Hwf)
      as [Hwf' Hbal].
    { intros x _ _. split; [apply trim_idem | exact Hshare]. }
    split; [exact Hwf' | ]. intros k. rewrite Hbal. unfold credited.
    destruct (String.eqb_spec k (trim u)) as [-> | Hk].
    + rewrite filter_false by (intros x _; apply viewer_not_credited).
      reflexivity.
    + rewrite (filter_ext _ (trimsTo k))
        by (intros x; apply trimsTo_notViewer, Hk).
      rewrite map_same. reflexivity.
Qed.

(** The equal-split loop when someone else paid: only the payer's key
    can change. *)
Lemma equal_other_loop (p : string) (share : num) (l : list string)
    (m : balmap) :
  wf_map m -> l = [] \/ is_fin share ->
  wf_map (fold_left (equalStep u false p share) l m) /\
  forall k,
    balanceOf (fold_left (equalStep u false p share) l m) k =
    if negb (String.eqb k (trim u)) && String.eqb k (trim p) then
      subAll (balanceOf m k) (repeat share (occurrences k l))
    else balanceOf m k.
Proof.
  intros Hwf [-> | Hshare].
  - split; [exact Hwf | ]. intros k. simpl.
    destruct (negb (String.eqb k (trim u)) && String.eqb k (trim p));
      reflexivity.
  - rewrite (fold_left_ext _ _ l m (equalStep_other u p share)).
    destruct (credit_loop
                (fun y => notViewer u y && String.eqb (trim p) (trim y))
                trim (fun _ => num_neg share) l m Hwf) as [Hwf' Hbal].
    { intros x _ _. split; [apply trim_idem | apply is_fin_neg, Hshare]. }
    split; [exact Hwf' | ]. intros k. rewrite Hbal. unfold credited.
    destruct (String.eqb_spec k (trim u)) as [-> | Hk]; simpl.
    + rewrite filter_false; [reflexivity | ].
      intros x _. rewrite <- andb_assoc, (andb_comm (String.eqb _ _)).
      rewrite andb_assoc, viewer_not_credited. reflexivity.
    + destruct (String.eqb_spec k (trim p)) as [-> | Hp].
      * rewrite (filter_ext _ (trimsTo (trim p))).
        -- rewrite map_same, <- map_repeat. apply addAll_neg.
        -- intros x. rewrite <- andb_assoc.
           rewrite <- (trimsTo_notViewer (trim p) x Hk).
           unfold trimsTo.
           destruct (String.eqb_spec (trim x) (trim p)) as [-> | ].
           ++ rewrite String.eqb_refl. reflexivity.
           ++ rewrite !andb_false_r. reflexivity.
      * rewrite filter_false; [reflexivity | ].
        intros x _. destruct (String.eqb_spec (trim x) k) as [Hx | ];
          [ | apply andb_false_r].
        destruct (String.eqb_spec (trim p) (trim x)); [congruence | ].
        rewrite !andb_false_r. reflexivity.
Qed.

End ProcessExpense.

Section CustomLoops.

Variable u : string.

(** The custom-split loop when the viewer paid. *)
Lemma custom_payer_loop (ds : list Split) (m : balmap) :
  wf_map m ->
  wf_map (fold_left (customPayerStep u) ds m) /\
  forall k,
    balanceOf (fold_left (customPayerStep u) ds m) k =
    if String.eqb k (trim u) then balanceOf m k
    else addAll (balanceOf m k) (splitAmounts (splitsOf k ds)).
Proof.
  intros Hwf.
  rewrite (fold_left_ext _ _ ds m (customPayerStep_credit u)).
  destruct (credit_loop (fun d => notViewer u (member d))
              (fun d => trim (member d)) (fun d => Fin (split_amount d))
              ds m Hwf) as [Hwf' Hbal].
  { intros x _ _. split; [apply trim_idem | exact I]. }
  split; [exact Hwf' | ]. intros k. rewrite Hbal. unfold credited.
  destruct (String.eqb_spec k (trim u)) as [-> | Hk].
  - rewrite filter_false by (intros x _; apply viewer_not_credited).
    reflexivity.
  - rewrite (filter_ext _ (fun d => trimsTo k (member d)))
      by (intros x; apply trimsTo_notViewer, Hk).
    reflexivity.
Qed.

(** The custom-split loop when [pn] paid. *)
Lemma custom_other_loop (pn : string) (ds : list Split) (m : balmap) :
  wf_map m -> trim pn = pn ->
  wf_map (fold_left (customOtherStep u pn) ds m) /\
  forall k,
    balanceOf (fold_left (customOtherStep u pn) ds m) k =
    if String.eqb k pn then
      subAll (balanceOf m k) (splitAmounts (splitsOf (trim u) ds))
    else balanceOf m k.
Proof.
  intros Hwf Hpn.
  rewrite (fold_left_ext _ _ ds m (customOtherStep_credit u pn)).
  destruct (credit_loop (fun d => trimsTo (trim u) (member d))
              (fun _ => pn) (fun d => num_neg (Fin (split_amount d)))
              ds m Hwf) as [Hwf' Hbal].
  { intros x _ _. split; [exact Hpn | exact I]. }
  split; [exact Hwf' | ]. intros k. rewrite Hbal. unfold credited.
  rewrite (String.eqb_sym k pn).
  destruct (String.eqb pn k).
  - rewrite (filter_ext _ (fun d => trimsTo (trim u) (member d)))
      by (intros x; apply andb_true_r).
    rewrite <- addAll_neg. unfold splitAmounts, splitsOf.
    rewrite map_map. reflexivity.
  - rewrite filter_false by (intros x _; apply andb_false_r).
    reflexivity.
Qed.

(** Every expense keeps the map well formed. *)
Lemma processExpense_wf (m : balmap) (e : Expense) :
  wf_map m -> wf_map (processExpense u m e).
Proof.
  intros Hwf. unfold processExpense.
  destruct (settled e); [exact Hwf | ].
  destruct (split_type e).
  - destruct (String.eqb (paid_by e) u).
    + apply equal_payer_loop; [exact Hwf | apply share_cases].
    + apply equal_other_loop; [exact Hwf | apply share_cases].
  - destruct (split_details e) as [ds | ]; [ | exact Hwf].
    destruct (String.eqb (paid_by e) u).
    + apply custom_payer_loop, Hwf.
    + apply custom_other_loop; [exact Hwf | apply trim_idem].
Qed.

Lemma fold_processExpense_wf (es : list Expense) (m : balmap) :
  wf_map m -> wf_map (fold_left (processExpense u) es m).
Proof.
  revert m. induction es as [ | e es IH]; intros m Hwf; simpl.
  - exact Hwf.
  - apply IH, processExpense_wf, Hwf.
Qed.

Lemma balances_wf (es : list Expense) : wf_map (balances u es).
Proof. apply fold_processExpense_wf, wf_map_nil. Qed.

Lemma balances_snoc (pre : list Expense) (e : Expense) :
  balances u (pre ++ [e]) = processExpense u (balances u pre) e.
Proof. unfold balances. rewrite fold_left_app. reflexivity. Qed.

Lemma balances_app (pre post : list Expense) :
  balances u (pre ++ post) =
  fold_left (processExpense u) post (balances u pre).
Proof. unfold balances. apply fold_left_app. Qed.

(** A settled expense is skipped. *)
Lemma processExpense_settled (m : balmap) (e : Expense) :
  settled e = true -> processExpense u m e = m.
Proof. unfold processExpense. intros ->. reflexivity. Qed.

(** So is an equal split over no members. *)
Lemma processExpense_no_members (m : balmap) (e : Expense) :
  split_type e = equal -> members e = [] -> processExpense u m e = m.
Proof.
  unfold processExpense. intros -> ->. destruct (settled e); reflexivity.
Qed.

End CustomLoops.

(** ** Order *)

Section Order.

Local Open Scope Qc_scope.

Lemma num_le_trans (a b c : num) : num_le a b -> num_le b c -> num_le a c.
Proof.
  destruct a as [x | | | ], b as [y | | | ], c as [z | | | ];
    cbn [num_le]; try tauto.
  apply Qcle_trans.
Qed.

(** A rational that is not positive is not rounded to a positive
    number. *)
Lemma round64_nonpos (q : Qc) : q <= 0 -> num_gt (round64 q) zero = false.
Proof.
  intros Hq.
  assert (Hopp : 0 <= - q).
  { apply Qcopp_le_compat in Hq. exact Hq. }
  pose proof (round64_nonneg (- q) Hopp) as Hnn.
  rewrite round64_opp in Hnn.
  destruct (round64 q) as [r | | | ]; cbn [num_neg nonneg num_le] in Hnn;
    try contradiction; try reflexivity.
  unfold zero in *. cbn [num_gt nonneg num_le] in *.
  destruct (Qccompare r (qz 0)) eqn:Hc; try reflexivity.
  exfalso. apply Qcgt_alt in Hc.
  apply (Qcopp_le_compat (qz 0) (- r)) in Hnn.
  rewrite Qcopp_involutive in Hnn.
  exact (Qcle_not_lt _ _ Hnn Hc).
Qed.

(** [y - x > 0] implies [x <= y]. *)
Lemma sub_positive (x y : num) :
  is_number x -> is_number y ->
  num_gt (num_sub y x) zero = true -> num_le x y.
Proof.
  unfold num_sub.
  destruct x as [a | | | ], y as [b | | | ];
    cbn [num_neg num_add is_number num_le]; try tauto; try discriminate.
  intros _ _ Hgt. apply Qcnot_lt_le. intros Hlt.
  rewrite round64_nonpos in Hgt; [discriminate | ].
  apply Qclt_le_weak in Hlt. apply Qcle_minus_iff in Hlt.
  apply Qcopp_le_compat in Hlt.
  replace (- (a + - b)) with (b + - a) in Hlt by ring. exact Hlt.
Qed.

(** [y - x > 0] fails only when [y <= x]: the difference of two
    different numbers is not rounded to 0. *)
Lemma sub_not_positive (x y : num) :
  is_number x -> is_number y ->
  num_gt (num_sub y x) zero = false -> num_le y x.
Proof.
  unfold num_sub.
  destruct x as [a | | | ], y as [b | | | ];
    cbn [num_neg num_add is_number num_le]; try tauto; try discriminate.
  intros Ha Hb Hgt. apply Qcnot_lt_le. intros Hlt.
  rewrite round64_positive in Hgt; [discriminate | ].
  apply on_grid_positive.
  - apply on_grid_plus; [exact Hb | apply on_grid_opp, Ha].
  - apply Qclt_minus_iff in Hlt. exact Hlt.
Qed.

(** A number minus itself is never positive. *)
Lemma sub_self_not_positive (v : num) : num_gt (num_sub v v) zero = false.
Proof.
  unfold num_sub.
  destruct v as [q | | | ]; cbn [num_neg num_add]; try reflexivity.
  apply round64_nonpos. rewrite Qcplus_opp_r. apply Qcle_refl.
Qed.

End Order.

(** ** The settlement loop *)

Section SettleLoop.

Local Open Scope Qc_scope.

Lemma positive_nonzero (v : num) : positive v = true -> num_sne v zero = true.
Proof.
  unfold positive.
  destruct v as [q | | | ]; simpl; try reflexivity; try discriminate.
  destruct (Qccompare q (qz 0)) eqn:Hc; try discriminate. intros _.
  apply negb_true_iff, Qc_eq_bool_false. intros ->.
  apply Qcgt_alt in Hc. exact (Qlt_irrefl _ Hc).
Qed.

(** For a number other than [NaN], "not zero and not positive" is
    "negative". *)
Lemma negative_number (v : num) :
  not_NaN v -> num_sne v zero && negb (positive v) = negative v.
Proof.
  unfold negative, positive, num_lt.
  destruct v as [q | | | ]; simpl; try tauto. intros _.
  destruct (Qccompare q (qz 0)) eqn:Hc.
  - apply Qceq_alt in Hc. subst q. rewrite Qc_eq_bool_refl. reflexivity.
  - apply Qclt_alt in Hc.
    replace (Qccompare (qz 0) q) with Gt
      by (symmetry; apply Qcgt_alt; exact Hc).
    rewrite andb_true_r. apply negb_true_iff, Qc_eq_bool_false.
    intros ->. exact (Qlt_irrefl _ Hc).
  - apply Qcgt_alt in Hc.
    replace (Qccompare (qz 0) q) with Lt
      by (symmetry; apply Qclt_alt; exact Hc).
    apply andb_false_r.
Qed.

(** The absolute value of a number that is not 0 is not 0. *)
Lemma abs_nonzero (v : num) : num_sne v zero = true -> num_abs v <> zero.
Proof.
  unfold zero.
  destruct v as [q | | | ]; cbn [num_sne num_abs]; try discriminate.
  intros Hnz Habs. apply Fin_inj, Qcabs_null in Habs. subst q.
  change (negb (Qc_eq_bool (qz 0) (qz 0)) = true) in Hnz.
  rewrite Qc_eq_bool_refl in Hnz. discriminate.
Qed.

(** The loop as three independent folds. *)
Lemma settle_loop (m : balmap) (acc : Totals) :
  settlementsArray (fold_left settleStep m acc) =
    (settlementsArray acc ++ map toEntry (filter nonzero m))%list /\
  totalOwed (fold_left settleStep m acc) =
    addAll (totalOwed acc) (filter positive (values m)) /\
  totalOwe (fold_left settleStep m acc) =
    addAll (totalOwe acc)
      (map num_abs
         (filter (fun v => num_sne v zero && negb (positive v)) (values m))).
Proof.
  revert acc. induction m as [ | [k v] m IH]; intros acc.
  - simpl. rewrite app_nil_r. auto.
  - change (fold_left settleStep ((k, v) :: m) acc)
      with (fold_left settleStep m (settleStep acc (k, v))).
    destruct (IH (settleStep acc (k, v))) as (Ha & Hp & Hn).
    rewrite Ha, Hp, Hn. clear Ha Hp Hn IH.
    unfold settleStep, nonzero, values. cbn [map filter fst snd].
    fold (positive v).
    destruct (num_sne v zero) eqn:Hz; cbn [andb].
    + destruct (positive v) eqn:Hpos; cbn [negb settlementsArray totalOwe
        totalOwed map].
      * rewrite <- app_assoc. unfold toEntry. cbn [fst snd].
        fold (positive v). rewrite Hpos. repeat split; reflexivity.
      * rewrite <- app_assoc. unfold toEntry. cbn [fst snd].
        fold (positive v). rewrite Hpos. repeat split; reflexivity.
    + destruct (positive v) eqn:Hpos; [ | auto].
      apply positive_nonzero in Hpos. congruence.
Qed.

Lemma filter_negative (m : balmap) :
  wf_map m ->
  filter (fun v => num_sne v zero && negb (positive v)) (values m) =
  filter negative (values m).
Proof.
  intros [_ Hall]. unfold values.
  induction Hall as [ | [k v] m [_ Hv] _ IH]; simpl; [reflexivity | ].
  rewrite (negative_number v (is_number_not_NaN v Hv)), IH. reflexivity.
Qed.

Lemma values_number (m : balmap) : wf_map m -> Forall is_number (values m).
Proof.
  intros [_ Hall]. unfold values. apply Forall_map.
  eapply Forall_impl; [ | exact Hall]. intros kv [_ H]. exact H.
Qed.

Lemma Forall_filter_keep {A : Type} (P : A -> Prop) (f : A -> bool)
    (l : list A) :
  Forall P l -> Forall P (filter f l).
Proof.
  induction 1 as [ | x l Hx _ IH]; simpl; [constructor | ].
  destruct (f x); [constructor | ]; assumption.
Qed.

End SettleLoop.

(** ** [sort] *)

Section SortFacts.

Lemma sortInsert_perm {A : Type} (cmp : A -> A -> num) (x : A) (l : list A) :
  Permutation (sortInsert cmp x l) (x :: l).
Proof.
  induction l as [ | y l IH]; simpl.
  - apply Permutation_refl.
  - destruct (num_gt (cmp x y) zero).
    + apply Permutation_trans with (y :: x :: l).
      * apply perm_skip, IH.
      * apply perm_swap.
    + apply Permutation_refl.
Qed.

Lemma sort_perm {A : Type} (cmp : A -> A -> num) (l : list A) :
  Permutation (sort cmp l) l.
Proof.
  induction l as [ | x l IH]; simpl.
  - apply perm_nil.
  - apply Permutation_trans with (x :: sort cmp l).
    + apply sortInsert_perm.
    + apply perm_skip, IH.
Qed.

(** Elements with the same amount never overtake each other. *)
Lemma sortInsert_stable (a : num) (x : Settlement) (l : list Settlement) :
  filter (hasAmount a) (sortInsert byAmountDesc x l) =
  filter (hasAmount a) (x :: l).
Proof.
  induction l as [ | y l IH]; [reflexivity | ].
  cbn [sortInsert].
  destruct (num_gt (byAmountDesc x y) zero) eqn:Hgt; [ | reflexivity].
  cbn [filter] in *. rewrite IH.
  destruct (hasAmount a x) eqn:Hx, (hasAmount a y) eqn:Hy; try reflexivity.
  exfalso. unfold hasAmount in Hx, Hy.
  apply num_eqb_eq in Hx, Hy. unfold byAmountDesc in Hgt.
  rewrite Hx, Hy, sub_self_not_positive in Hgt. discriminate.
Qed.

Lemma sort_stable (a : num) (l : list Settlement) :
  filter (hasAmount a) (sort byAmountDesc l) = filter (hasAmount a) l.
Proof.
  induction l as [ | x l IH]; [reflexivity | ].
  cbn [sort]. rewrite sortInsert_stable. cbn [filter].
  rewrite IH. reflexivity.
Qed.

(** [sort] with a comparator [(a, b) => f(b) - f(a)], on elements whose
    [f] is a number. *)

Context {A : Type} (f : A -> num).

Let cmp (a b : A) : num := num_sub (f b) (f a).

Lemma sortInsert_sorted_by (x : A) (l : list A) :
  is_number (f x) -> Forall (fun y => is_number (f y)) l ->
  StronglySorted (descendingBy f) l ->
  StronglySorted (descendingBy f) (sortInsert cmp x l).
Proof.
  intros Hx Hl Hs. induction Hs as [ | y l Hs IH Hy]; cbn [sortInsert].
  - constructor; constructor.
  - inversion Hl as [ | ? ? Hfy Hl']; subst. unfold cmp at 1.
    destruct (num_gt (num_sub (f y) (f x)) zero) eqn:Hgt.
    + apply sub_positive in Hgt; [ | exact Hx | exact Hfy].
      constructor; [apply IH, Hl' | ].
      apply (Permutation_Forall (Permutation_sym (sortInsert_perm _ x l))).
      constructor; [exact Hgt | exact Hy].
    + apply sub_not_positive in Hgt; [ | exact Hx | exact Hfy].
      constructor; [constructor; assumption | ].
      constructor; [exact Hgt | ].
      rewrite Forall_forall in *. intros z Hz.
      unfold descendingBy in *.
      exact (num_le_trans _ _ _ (Hy z Hz) Hgt).
Qed.

Lemma sort_sorted_by (l : list A) :
  Forall (fun y => is_number (f y)) l ->
  StronglySorted (descendingBy f) (sort cmp l).
Proof.
  induction 1 as [ | x l Hx Hl IH]; cbn [sort].
  - constructor.
  - apply sortInsert_sorted_by; [exact Hx | | exact IH].
    apply (Permutation_Forall (Permutation_sym (sort_perm _ l))), Hl.
Qed.

End SortFacts.

Lemma sort_sorted (l : list Settlement) :
  Forall number_amount l -> StronglySorted descending (sort byAmountDesc l).
Proof. apply (sort_sorted_by st_amount). Qed.

(** ** The outputs *)

Section Outputs.

Variables (es : list Expense) (viewer : string).

Lemma settlements_sorted_entries :
  settlements (computeSettlements es viewer) =
  sort byAmountDesc (map toEntry (filter nonzero (balances viewer es))).
Proof.
  unfold settlements, computeSettlements. cbn [snd].
  destruct (settle_loop (balances viewer es) (mkTotals [] zero zero))
    as (Ha & _ & _).
  rewrite Ha. reflexivity.
Qed.

Lemma totalOwed_sum :
  totalOwedToViewer (computeSettlements es viewer) =
  num_sum (filter positive (values (balances viewer es))).
Proof.
  unfold totalOwedToViewer, computeSettlements. cbn [fst snd].
  destruct (settle_loop (balances viewer es) (mkTotals [] zero zero))
    as (_ & Hp & _).
  rewrite Hp. reflexivity.
Qed.

Lemma totalOwe_sum :
  totalViewerOwes (computeSettlements es viewer) =
  num_sum (map num_abs (filter negative (values (balances viewer es)))).
Proof.
  unfold totalViewerOwes, computeSettlements. cbn [fst snd].
  destruct (settle_loop (balances viewer es) (mkTotals [] zero zero))
    as (_ & _ & Hn).
  rewrite Hn, filter_negative by apply balances_wf.
  reflexivity.
Qed.

Lemma entries_number :
  Forall number_amount (map toEntry (filter nonzero (balances viewer es))).
Proof.
  destruct (balances_wf viewer es) as [_ Hall].
  apply Forall_map, Forall_filter_keep.
  eapply Forall_impl; [ | exact Hall].
  intros [k v] [_ Hv]. apply num_abs_number, Hv.
Qed.

End Outputs.

Lemma computeSettlements_balances (es es' : list Expense) (viewer : string) :
  balances viewer es = balances viewer es' ->
  computeSettlements es viewer = computeSettlements es' viewer.
Proof. unfold computeSettlements. intros ->. reflexivity. Qed.

Lemma balances_filter_settled (viewer : string) (es : list Expense)
    (m : balmap) :
  fold_left (processExpense viewer) es m =
  fold_left (processExpense viewer) (filter (fun e => negb (settled e)) es) m.
Proof.
  revert m. induction es as [ | e es IH]; intros m; [reflexivity | ].
  cbn [fold_left filter]. destruct (settled e) eqn:He; cbn [negb fold_left].
  - rewrite processExpense_settled by exact He. apply IH.
  - apply IH.
Qed.

(** * The properties of the specification *)

(** ** Equal split, viewer is the payer *)

(** C1, as stated, fails: in a group that lists "Bob" and " Bob", both
    members other than the viewer, a $30 expense paid by the viewer
    raises the balance of key "Bob" by 20, not by 30 / 3 = 10, and
    records nothing under the key " Bob". *)
Lemma equal_share_twice_counterexample :
  ~ (forall m : string,
       In m (members bobTwice) -> m <> "Alice" ->
       balanceOf (balances "Alice" [bobTwice]) (trim m) =
       num_add (balanceOf (balances "Alice" []) (trim m)) (shareOf bobTwice))
  /\
  ~ (forall m : string,
       In m (members bobTwice) -> m <> "Alice" ->
       balanceOf (balances "Alice" [bobTwice]) m =
       num_add (balanceOf (balances "Alice" []) m) (shareOf bobTwice)).
Proof.
  split; intros H.
  - specialize (H "Bob").
    assert (Hin : In "Bob" (members bobTwice)) by (right; left; reflexivity).
    assert (Hne : "Bob" <> "Alice") by discriminate.
    specialize (H Hin Hne).
    assert (E : num_eqb (balanceOf (balances "Alice" [bobTwice]) (trim "Bob"))
                  (num_add (balanceOf (balances "Alice" []) (trim "Bob"))
                     (shareOf bobTwice)) = false)
      by (vm_compute; reflexivity).
    rewrite H, num_eqb_refl in E. discriminate E.
  - specialize (H " Bob").
    assert (Hin : In " Bob" (members bobTwice))
      by (right; right; left; reflexivity).
    assert (Hne : " Bob" <> "Alice") by discriminate.
    specialize (H Hin Hne).
    assert (E : num_eqb (balanceOf (balances "Alice" [bobTwice]) " Bob")
                  (num_add (balanceOf (balances "Alice" []) " Bob")
                     (shareOf bobTwice)) = false)
      by (vm_compute; reflexivity).
    rewrite H, num_eqb_refl in E. discriminate E.
Qed.

(** C1, amended: for a non-settled equal-split expense paid by the
    viewer, processing it leaves the balance under the viewer's trimmed
    name unchanged and raises the balance of every other key [k] by the
    share [amount / memberCount] once per entry of groupMembers whose
    trimmed name is [k], each addition rounded as the code's [+] is: by
    exactly the share when one entry trims to [k], not at all when none
    does. *)
Theorem equal_split_payer_credit (viewer : string) (pre : list Expense)
    (e : Expense) (k : string) :
  settled e = false -> split_type e = equal -> paid_by e = viewer ->
  balanceOf (balances viewer (pre ++ [e])) k =
  if String.eqb k (trim viewer) then balanceOf (balances viewer pre) k
  else addAll (balanceOf (balances viewer pre) k)
         (repeat (shareOf e) (occurrences k (members e))).
Proof.
  intros Hs Ht Hp. rewrite balances_snoc. unfold processExpense.
  rewrite Hs, Ht, Hp, String.eqb_refl.
  apply equal_payer_loop; [apply balances_wf | apply share_cases].
Qed.

(** The example of C1: Alice pays 30 for Alice, Bob and Carol, and
    Bob's balance grows by one share. *)
Lemma equal_split_payer_credit_witness :
  (settled aliceBobCarol = false /\ split_type aliceBobCarol = equal /\
   paid_by aliceBobCarol = "Alice") /\
  balanceOf (balances "Alice" ([] ++ [aliceBobCarol])) "Bob" =
  if String.eqb "Bob" (trim "Alice") then
    balanceOf (balances "Alice" []) "Bob"
  else addAll (balanceOf (balances "Alice" []) "Bob")
         (repeat (shareOf aliceBobCarol)
            (occurrences "Bob" (members aliceBobCarol))).
Proof.
  split.
  - repeat split; reflexivity.
  - exact (equal_split_payer_credit "Alice" [] aliceBobCarol "Bob"
             eq_refl eq_refl eq_refl).
Defined.

Example alice_pays_30 :
  computeSettlements
    [equalExpense 30 "Alice" ["Alice"; "Bob"; "Carol"]] "Alice"
  = (Fin (qz 20), zero,
     [mkSettlement "Bob" (Fin (qz 10)) owed;
      mkSettlement "Carol" (Fin (qz 10)) owed]).
Proof. qc_eval. Qed.

Example alice_pays_30_balances :
  balances "Alice" [aliceBobCarol] =
  [("Bob", Fin (qz 10)); ("Carol", Fin (qz 10))].
Proof. qc_eval. Qed.

(** ** Custom split, someone else is the payer *)

(** C2: for a non-settled custom-split expense not paid by the viewer,
    the payer's balance is debited by the amounts of the split entries
    that belong to the viewer, one after the other in the order of the
    entries, each subtraction rounded as the code's [-] is (by exactly
    the entry's amount when there is one, by nothing when there is
    none); entries of other members change no balance, and no other
    key changes. *)
Theorem custom_split_other_debit (viewer : string) (pre : list Expense)
    (e : Expense) (k : string) :
  settled e = false -> split_type e = custom -> paid_by e <> viewer ->
  balanceOf (balances viewer (pre ++ [e])) k =
  if String.eqb k (trim (paid_by e)) then
    subAll (balanceOf (balances viewer pre) k)
      (splitAmounts (splitsOf (trim viewer) (detailsOf e)))
  else balanceOf (balances viewer pre) k.
Proof.
  intros Hs Ht Hp. rewrite balances_snoc. unfold processExpense, detailsOf.
  rewrite Hs, Ht. apply String.eqb_neq in Hp. rewrite Hp.
  destruct (split_details e) as [details | ].
  - apply custom_other_loop; [apply balances_wf | apply trim_idem].
  - destruct (String.eqb k (trim (paid_by e))); reflexivity.
Qed.

(** The example of C2: Dave pays 50 and Alice's entry is 20. *)
Lemma custom_split_other_debit_witness :
  (settled davePays = false /\ split_type davePays = custom /\
   paid_by davePays <> "Alice") /\
  balanceOf (balances "Alice" ([] ++ [davePays])) "Dave" =
  if String.eqb "Dave" (trim (paid_by davePays)) then
    subAll (balanceOf (balances "Alice" []) "Dave")
      (splitAmounts (splitsOf (trim "Alice") (detailsOf davePays)))
  else balanceOf (balances "Alice" []) "Dave".
Proof.
  split.
  - repeat split; try reflexivity. discriminate.
  - refine (custom_split_other_debit "Alice" [] davePays "Dave"
              eq_refl eq_refl _).
    discriminate.
Defined.

Example dave_pays_50 :
  computeSettlements [davePays] "Alice" =
  (zero, Fin (qz 20), [mkSettlement "Dave" (Fin (qz 20)) owing]) /\
  balances "Alice" [davePays] = [("Dave", Fin (qz (-20)))].
Proof. split; qc_eval. Qed.

(** ** Custom split, viewer is the payer *)

(** C3: for a non-settled custom-split expense paid by the viewer,
    every split entry of a member other than the viewer credits that
    member's balance by the entry's amount, and an entry of the viewer
    contributes nothing: each key other than the viewer's grows by the
    amounts of the entries naming it, added one after the other in the
    order of the entries and rounded as the code's [+] is; the viewer's
    key is unchanged. *)
Theorem custom_split_payer_credit (viewer : string) (pre : list Expense)
    (e : Expense) (k : string) :
  settled e = false -> split_type e = custom -> paid_by e = viewer ->
  balanceOf (balances viewer (pre ++ [e])) k =
  if String.eqb k (trim viewer) then balanceOf (balances viewer pre) k
  else addAll (balanceOf (balances viewer pre) k)
         (splitAmounts (splitsOf k (detailsOf e))).
Proof.
  intros Hs Ht Hp. rewrite balances_snoc. unfold processExpense, detailsOf.
  rewrite Hs, Ht, Hp, String.eqb_refl.
  destruct (split_details e) as [details | ].
  - apply custom_payer_loop, balances_wf.
  - destruct (String.eqb k (trim viewer)); reflexivity.
Qed.

Lemma custom_split_payer_credit_witness :
  (settled alicePaysCustom = false /\ split_type alicePaysCustom = custom /\
   paid_by alicePaysCustom = "Alice") /\
  balanceOf (balances "Alice" ([] ++ [alicePaysCustom])) "Bob" =
  if String.eqb "Bob" (trim "Alice") then
    balanceOf (balances "Alice" []) "Bob"
  else addAll (balanceOf (balances "Alice" []) "Bob")
         (splitAmounts (splitsOf "Bob" (detailsOf alicePaysCustom))).
Proof.
  split.
  - repeat split; reflexivity.
  - exact (custom_split_payer_credit "Alice" [] alicePaysCustom "Bob"
             eq_refl eq_refl eq_refl).
Defined.

Example alice_pays_custom :
  balances "Alice" [alicePaysCustom] = [("Bob", Fin (qz 30))].
Proof. qc_eval. Qed.

(** ** Totals *)

(** C4: after the full pass, totalOwedToViewer is the sum of the
    strictly positive values of the balance map and totalViewerOwes is
    the sum of the absolute values of its strictly negative values,
    both accumulated from 0 in the order of the map, as [+=] does. *)
Theorem totals_by_sign (es : list Expense) (viewer : string) :
  totalOwedToViewer (computeSettlements es viewer) =
    num_sum (filter positive (values (balances viewer es))) /\
  totalViewerOwes (computeSettlements es viewer) =
    num_sum (map num_abs (filter negative (values (balances viewer es)))).
Proof.
  split; [apply totalOwed_sum | apply totalOwe_sum].
Qed.

(** ** The settlement list *)

(** C5: the settlement list holds exactly the entries
    {name, |balance|, direction} of the non-zero entries of the balance
    map, one each; none of them has amount zero; it is sorted by amount,
    descending; and entries of equal amount stand in the order in which
    the map lists them. *)
Theorem settlements_sorted_stable (es : list Expense) (viewer : string) :
  let entries := map toEntry (filter nonzero (balances viewer es)) in
  let result := settlements (computeSettlements es viewer) in
  Permutation result entries /\
  NoDup (map st_name result) /\
  Forall (fun s => st_amount s <> zero) result /\
  StronglySorted descending result /\
  forall a, filter (hasAmount a) result = filter (hasAmount a) entries.
Proof.
  intros entries result.
  assert (Hres : result = sort byAmountDesc entries)
    by apply settlements_sorted_entries.
  assert (Hperm : Permutation result entries)
    by (rewrite Hres; apply sort_perm).
  destruct (balances_wf viewer es) as [Hnd Hall].
  split; [exact Hperm | ]. split; [ | split; [ | split]].
  - apply (Permutation_NoDup (Permutation_map st_name (Permutation_sym Hperm))).
    unfold entries. rewrite map_map. cbn [toEntry st_name].
    unfold keys in Hnd. revert Hnd. clear.
    induction (balances viewer es) as [ | [k v] m IH]; cbn [map filter].
    + constructor.
    + intros Hnd. inversion Hnd as [ | ? ? Hk Hm]; subst.
      destruct (nonzero (k, v)); [ | apply IH, Hm].
      cbn [map fst]. constructor; [ | apply IH, Hm].
      intros Hin. apply Hk. apply in_map_iff in Hin.
      destruct Hin as (kv & Hkv & Hin). apply filter_In in Hin.
      rewrite <- Hkv. apply in_map, Hin.
  - apply (Permutation_Forall (Permutation_sym Hperm)).
    unfold entries. apply Forall_map. rewrite Forall_forall.
    intros [k v] Hin. apply filter_In in Hin. destruct Hin as [Hin Hnz].
    unfold nonzero in Hnz. cbn [toEntry st_amount snd] in *.
    apply abs_nonzero, Hnz.
  - rewrite Hres. apply sort_sorted, entries_number.
  - intros a. rewrite Hres. apply sort_stable.
Qed.

(** ** Settled expenses *)

(** C6: the three outputs computed from the full list are those
    computed from the sublist of the expenses that are not settled. *)
Theorem settled_expenses_ignored (es : list Expense) (viewer : string) :
  computeSettlements es viewer =
  computeSettlements (filter (fun e => negb (settled e)) es) viewer.
Proof.
  apply computeSettlements_balances. unfold balances.
  apply balances_filter_settled.
Qed.

(** ** Equal split, someone else is the payer *)

(** C7, as stated, fails: Alice is neither the payer nor a member of
    the group {Bob, Carol}, and Bob's $30 expense still records that
    she owes him 15. *)
Lemma outsider_owes_payer_counterexample :
  ~ (settled bobAndCarol = false -> split_type bobAndCarol = equal ->
     paid_by bobAndCarol <> "Alice" ->
     ~ In "Alice" (members bobAndCarol) ->
     balances "Alice" [bobAndCarol] = balances "Alice" []).
Proof.
  intros H.
  assert (Hp : paid_by bobAndCarol <> "Alice") by discriminate.
  assert (Hm : ~ In "Alice" (members bobAndCarol)).
  { intros [Hin | [Hin | []]]; discriminate Hin. }
  specialize (H eq_refl eq_refl Hp Hm).
  assert (E : keys (balances "Alice" [bobAndCarol]) = ["Bob"])
    by (vm_compute; reflexivity).
  rewrite H in E. discriminate E.
Qed.

Example bob_pays_outsider :
  balances "Alice" [bobAndCarol] = [("Bob", Fin (qz (-15)))].
Proof. qc_eval. Qed.

(** C7, amended: for a non-settled equal-split expense not paid by the
    viewer, nothing is recorded when no entry of groupMembers, apart
    from entries naming the viewer, has the payer's trimmed name;
    whether the viewer is a member is not looked at. *)
Theorem equal_split_unlisted_payer (viewer : string) (pre : list Expense)
    (e : Expense) :
  settled e = false -> split_type e = equal -> paid_by e <> viewer ->
  (forall m, In m (members e) ->
             trim m = trim (paid_by e) -> trim m = trim viewer) ->
  balances viewer (pre ++ [e]) = balances viewer pre.
Proof.
  intros Hs Ht Hp Hm. rewrite balances_snoc. unfold processExpense.
  rewrite Hs, Ht. apply String.eqb_neq in Hp. rewrite Hp.
  rewrite (fold_left_ext _ _ _ _ (equalStep_other viewer (paid_by e) _)).
  apply credit_loop_skip. intros x Hx. unfold notViewer.
  destruct (String.eqb_spec (trim x) (trim viewer)) as [ | Hne];
    [reflexivity | ].
  destruct (String.eqb_spec (trim (paid_by e)) (trim x)) as [Heq | ];
    [ | reflexivity].
  exfalso. apply Hne, Hm; [exact Hx | symmetry; exact Heq].
Qed.

Lemma equal_split_unlisted_payer_witness :
  (settled carolForOthers = false /\ split_type carolForOthers = equal /\
   paid_by carolForOthers <> "Alice" /\
   forall m, In m (members carolForOthers) ->
             trim m = trim (paid_by carolForOthers) -> trim m = trim "Alice") /\
  balances "Alice" ([aliceBobCarol] ++ [carolForOthers]) =
  balances "Alice" [aliceBobCarol].
Proof.
  assert (Hp : paid_by carolForOthers <> "Alice") by discriminate.
  assert (Hm : forall m, In m (members carolForOthers) ->
             trim m = trim (paid_by carolForOthers) -> trim m = trim "Alice").
  { intros m [<- | [<- | []]] Heq; vm_compute in Heq; discriminate Heq. }
  split.
  - repeat split; [exact Hp | exact Hm].
  - exact (equal_split_unlisted_payer "Alice" [aliceBobCarol] carolForOthers
             eq_refl eq_refl Hp Hm).
Defined.

(** ** Equal split over an empty group *)

(** C8: an equal-split expense whose groupMembers list is empty is
    skipped: although its share [amount / 0] is not a finite number, it
    changes no balance map and the outputs are those of the list
    without it; if these are finite, so are the outputs of the list
    with it. *)
Theorem empty_group_skipped (viewer : string) (pre post : list Expense)
    (e : Expense) :
  split_type e = equal -> members e = [] ->
  ~ is_fin (shareOf e) /\
  (forall m, processExpense viewer m e = m) /\
  computeSettlements (pre ++ e :: post) viewer =
    computeSettlements (pre ++ post) viewer /\
  (finite_output (computeSettlements (pre ++ post) viewer) ->
   finite_output (computeSettlements (pre ++ e :: post) viewer)).
Proof.
  intros Ht Hm.
  assert (Hskip : forall m, processExpense viewer m e = m)
    by (intros m; apply processExpense_no_members; assumption).
  assert (Hsame : computeSettlements (pre ++ e :: post) viewer =
                  computeSettlements (pre ++ post) viewer).
  { apply computeSettlements_balances. rewrite !balances_app.
    cbn [fold_left]. rewrite Hskip. reflexivity. }
  split; [ | split; [exact Hskip | split; [exact Hsame | ]]].
  - unfold shareOf, num_div, of_nat. rewrite Hm. cbn [length Z.of_nat].
    change (qsign (qz 0)) with Eq. cbv iota.
    destruct (qsign (amount e)); exact (fun H => H).
  - rewrite Hsame. exact (fun H => H).
Qed.

Lemma empty_group_skipped_witness :
  (split_type emptyGroup = equal /\ members emptyGroup = []) /\
  computeSettlements ([aliceBobCarol] ++ emptyGroup :: [davePays]) "Alice" =
  computeSettlements ([aliceBobCarol] ++ [davePays]) "Alice".
Proof.
  split; [split; reflexivity | ].
  exact (proj1 (proj2 (proj2
    (empty_group_skipped "Alice" [aliceBobCarol] [davePays] emptyGroup
       eq_refl eq_refl)))).
Defined.

Example empty_group_share : shareOf emptyGroup = PInf.
Proof. vm_compute. reflexivity. Qed.

(** ** The viewer's own key *)

(** The loops that compare trimmed names never record the viewer's
    trimmed name: the equal-split loop and the custom-split loop of a
    payer skip it, and the custom-split loop of a non-payer records only
    the payer's trimmed name. *)
Lemma processExpense_viewer_key (viewer : string) (m : balmap) (e : Expense) :
  (paid_by e <> viewer -> trim (paid_by e) <> trim viewer) ->
  In (trim viewer) (keys (processExpense viewer m e)) ->
  In (trim viewer) (keys m).
Proof.
  intros Hpayer. unfold processExpense.
  destruct (settled e); [tauto | ].
  destruct (split_type e).
  - destruct (String.eqb (paid_by e) viewer).
    + rewrite (fold_left_ext _ _ _ _ (equalStep_payer viewer (paid_by e) _)).
      intros H. apply credit_loop_keys in H.
      destruct H as [H | (x & _ & Hc & Hk)]; [exact H | ].
      unfold notViewer in Hc. rewrite Hk, String.eqb_refl in Hc.
      discriminate.
    + rewrite (fold_left_ext _ _ _ _ (equalStep_other viewer (paid_by e) _)).
      intros H. apply credit_loop_keys in H.
      destruct H as [H | (x & _ & Hc & Hk)]; [exact H | ].
      unfold notViewer in Hc. rewrite Hk, String.eqb_refl in Hc.
      discriminate.
  - destruct (split_details e) as [ds | ]; [ | tauto].
    destruct (String.eqb_spec (paid_by e) viewer) as [ | Hne].
    + rewrite (fold_left_ext _ _ _ _ (customPayerStep_credit viewer)).
      intros H. apply credit_loop_keys in H.
      destruct H as [H | (x & _ & Hc & Hk)]; [exact H | ].
      unfold notViewer in Hc. rewrite Hk, String.eqb_refl in Hc.
      discriminate.
    + rewrite (fold_left_ext _ _ _ _
                 (customOtherStep_credit viewer (trim (paid_by e)))).
      intros H. apply credit_loop_keys in H.
      destruct H as [H | (x & _ & _ & Hk)]; [exact H | ].
      exfalso. exact (Hpayer Hne Hk).
Qed.

(** When every payer whose name trims to the viewer's is written
    exactly as the viewer, the viewer's trimmed name is not a key. *)
Lemma viewer_key_absent (viewer : string) (es : list Expense) :
  Forall (fun e => paid_by e <> viewer -> trim (paid_by e) <> trim viewer) es ->
  ~ In (trim viewer) (keys (balances viewer es)).
Proof.
  intros Hes. unfold balances.
  assert (Hgen : forall m, ~ In (trim viewer) (keys m) ->
            ~ In (trim viewer) (keys (fold_left (processExpense viewer) es m))).
  { induction Hes as [ | e es He _ IH]; intros m Hm; cbn [fold_left].
    - exact Hm.
    - apply IH. intros H. apply Hm.
      exact (processExpense_viewer_key viewer m e He H). }
  apply Hgen. intros [].
Qed.

(** C9 does not hold of the code: line 206 compares the payer with the
    viewer untrimmed, the loops compare trimmed names.  For the payer
    "Alice " and the viewer "Alice" the expense is handled as paid by
    someone else, and the viewer's entry in the split is debited under
    the key "Alice": the viewer owes 20 to herself. *)
Theorem padded_payer_records_viewer :
  balances "Alice" [paddedPayer] = [("Alice", Fin (qz (-20)))] /\
  In "Alice" (keys (balances "Alice" [paddedPayer])) /\
  computeSettlements [paddedPayer] "Alice" =
  (zero, Fin (qz 20), [mkSettlement "Alice" (Fin (qz 20)) owing]).
Proof.
  split; [qc_eval | split; [left; reflexivity | qc_eval]].
Qed.

(** ** Keys are trimmed *)

Section Padding.

Variable viewer : string.

Lemma trimmedPayer_test (p : string) :
  String.eqb (trimmedPayer viewer p) viewer = String.eqb p viewer.
Proof.
  unfold trimmedPayer. destruct (String.eqb p viewer) eqn:Hp; [exact Hp | ].
  destruct (String.eqb (trim p) viewer) eqn:Ht; assumption.
Qed.

Lemma trimmedPayer_trim (p : string) : trim (trimmedPayer viewer p) = trim p.
Proof.
  unfold trimmedPayer. destruct (String.eqb p viewer); [reflexivity | ].
  destruct (String.eqb (trim p) viewer); [reflexivity | apply trim_idem].
Qed.

Lemma fold_left_map {A B C : Type} (f : C -> B -> C) (g : A -> B)
    (l : list A) (c : C) :
  fold_left f (map g l) c = fold_left (fun c x => f c (g x)) l c.
Proof.
  revert c. induction l as [ | x l IH]; intros c; [reflexivity | ].
  cbn [map fold_left]. apply IH.
Qed.

(** An expense and the expense with trimmed names have the same
    effect. *)
Lemma processExpense_trimmed (m : balmap) (e : Expense) :
  processExpense viewer m (trimmedNames viewer e) = processExpense viewer m e.
Proof.
  unfold processExpense, trimmedNames.
  cbn [settled paid_by members split_type split_details amount].
  destruct (settled e); [reflexivity | ].
  rewrite trimmedPayer_test, length_map.
  destruct (split_type e).
  - rewrite fold_left_map. apply fold_left_ext. intros b x.
    unfold equalStep. rewrite trimmedPayer_trim, !trim_idem. reflexivity.
  - destruct (split_details e) as [ds | ]; [ | reflexivity].
    cbn [option_map]. destruct (String.eqb (paid_by e) viewer).
    + rewrite fold_left_map. apply fold_left_ext. intros b d.
      unfold customPayerStep. cbn [member split_amount].
      rewrite !trim_idem. reflexivity.
    + rewrite fold_left_map, trimmedPayer_trim. apply fold_left_ext.
      intros b d. unfold customOtherStep. cbn [member split_amount].
      rewrite !trim_idem. reflexivity.
Qed.

Lemma balances_trimmed (es : list Expense) :
  balances viewer (map (trimmedNames viewer) es) = balances viewer es.
Proof.
  unfold balances. rewrite fold_left_map. apply fold_left_ext.
  intros m e. apply processExpense_trimmed.
Qed.

End Padding.



(** Names that differ by surrounding blanks share one balance. *)
Example padded_names_aggregate :
  computeSettlements
    [equalExpense 30 "Alice" ["Alice"; "Bob "; " Bob"];
     customExpense 50 "Alice" [("Bob", 5%Z)]] "Alice"
  = (Fin (qz 25), zero, [mkSettlement "Bob" (Fin (qz 25)) owed]).
Proof. qc_eval. Qed.

(** * Further properties of the aggregation *)

(** ** The fourth branch: an equal split paid by someone else *)

(** X1: for a non-settled equal-split expense not paid by the viewer,
    only the payer's key can change: unless it is the viewer's trimmed
    name, the share is subtracted from it once per entry of
    groupMembers whose trimmed name is the payer's, each subtraction
    rounded as the code's [-] is; every other key keeps its value. *)
Theorem equal_split_other_debit (viewer : string) (pre : list Expense)
    (e : Expense) (k : string) :
  settled e = false -> split_type e = equal -> paid_by e <> viewer ->
  balanceOf (balances viewer (pre ++ [e])) k =
  if negb (String.eqb k (trim viewer)) && String.eqb k (trim (paid_by e)) then
    subAll (balanceOf (balances viewer pre) k)
      (repeat (shareOf e) (occurrences k (members e)))
  else balanceOf (balances viewer pre) k.
Proof.
  intros Hs Ht Hp. rewrite balances_snoc. unfold processExpense.
  rewrite Hs, Ht. apply String.eqb_neq in Hp. rewrite Hp.
  apply equal_other_loop; [apply balances_wf | apply share_cases].
Qed.

Lemma equal_split_other_debit_witness :
  (settled bobAndCarol = false /\ split_type bobAndCarol = equal /\
   paid_by bobAndCarol <> "Alice") /\
  balanceOf (balances "Alice" ([] ++ [bobAndCarol])) "Bob" =
  if negb (String.eqb "Bob" (trim "Alice")) &&
     String.eqb "Bob" (trim (paid_by bobAndCarol))
  then subAll (balanceOf (balances "Alice" []) "Bob")
         (repeat (shareOf bobAndCarol) (occurrences "Bob" (members bobAndCarol)))
  else balanceOf (balances "Alice" []) "Bob".
Proof.
  assert (Hp : paid_by bobAndCarol <> "Alice") by discriminate.
  split; [repeat split; [exact Hp] | ].
  exact (equal_split_other_debit "Alice" [] bobAndCarol "Bob"
           eq_refl eq_refl Hp).
Defined.

(** ** Where keys come from *)

Section KeyOrigins.

Variable viewer : string.

Lemma processExpense_keys (m : balmap) (e : Expense) (k : string) :
  In k (keys (processExpense viewer m e)) ->
  In k (keys m) \/ (settled e = false /\ In k (mentioned e)).
Proof.
  unfold processExpense, mentioned, detailsOf.
  destruct (settled e); [tauto | ].
  destruct (split_type e).
  - destruct (String.eqb (paid_by e) viewer).
    + rewrite (fold_left_ext _ _ _ _ (equalStep_payer viewer (paid_by e) _)).
      intros H. apply credit_loop_keys in H.
      destruct H as [H | (x & Hx & _ & Hk)]; [left; exact H | right].
      split; [reflexivity | ]. apply in_or_app. left.
      rewrite <- Hk. apply in_map, Hx.
    + rewrite (fold_left_ext _ _ _ _ (equalStep_other viewer (paid_by e) _)).
      intros H. apply credit_loop_keys in H.
      destruct H as [H | (x & Hx & _ & Hk)]; [left; exact H | right].
      split; [reflexivity | ]. apply in_or_app. left.
      rewrite <- Hk. apply in_map, Hx.
  - destruct (split_details e) as [ds | ]; [ | tauto].
    destruct (String.eqb (paid_by e) viewer).
    + rewrite (fold_left_ext _ _ _ _ (customPayerStep_credit viewer)).
      intros H. apply credit_loop_keys in H.
      destruct H as [H | (x & Hx & _ & Hk)]; [left; exact H | right].
      split; [reflexivity | ]. apply in_or_app. right.
      apply in_or_app. left. rewrite <- Hk.
      apply (in_map (fun d => trim (member d))), Hx.
    + rewrite (fold_left_ext _ _ _ _
                 (customOtherStep_credit viewer (trim (paid_by e)))).
      intros H. apply credit_loop_keys in H.
      destruct H as [H | (x & _ & _ & Hk)]; [left; exact H | right].
      split; [reflexivity | ]. apply in_or_app. right.
      apply in_or_app. right. left. exact Hk.
Qed.

Lemma fold_processExpense_keys (es : list Expense) (m : balmap) (k : string) :
  In k (keys (fold_left (processExpense viewer) es m)) ->
  In k (keys m) \/
  exists e, In e es /\ settled e = false /\ In k (mentioned e).
Proof.
  revert m. induction es as [ | e es IH]; intros m; cbn [fold_left].
  - intros H. left. exact H.
  - intros H. destruct (IH _ H) as [Hm | (e' & He' & Hrest)].
    + destruct (processExpense_keys m e k Hm) as [Hk | Hk];
        [left; exact Hk | right].
      exists e. split; [left; reflexivity | exact Hk].
    + right. exists e'. split; [right; exact He' | exact Hrest].
Qed.

End KeyOrigins.

(** X4: the pass invents no names: every key of the balance map, and
    so every name in the settlement list, is the trimmed name of a
    group member, of a split member or of the payer of some expense
    that is not settled. *)
Theorem keys_are_mentioned (viewer : string) (es : list Expense) :
  (forall k, In k (keys (balances viewer es)) ->
     exists e, In e es /\ settled e = false /\ In k (mentioned e)) /\
  (forall s, In s (settlements (computeSettlements es viewer)) ->
     exists e, In e es /\ settled e = false /\ In (st_name s) (mentioned e)).
Proof.
  assert (Hkeys : forall k, In k (keys (balances viewer es)) ->
            exists e, In e es /\ settled e = false /\ In k (mentioned e)).
  { intros k Hk. apply fold_processExpense_keys in Hk.
    destruct Hk as [[] | Hk]. exact Hk. }
  split; [exact Hkeys | ]. intros s Hs. apply Hkeys.
  rewrite settlements_sorted_entries in Hs.
  apply (Permutation_in _ (sort_perm _ _)) in Hs.
  apply in_map_iff in Hs. destruct Hs as ([k v] & <- & Hin).
  apply filter_In in Hin. cbn [toEntry st_name fst].
  unfold keys. apply (in_map fst _ _ (proj1 Hin)).
Qed.

Lemma keys_are_mentioned_witness :
  In "Bob" (keys (balances "Alice" [aliceBobCarol])) /\
  exists e, In e [aliceBobCarol] /\ settled e = false /\
            In "Bob" (mentioned e).
Proof.
  assert (Hin : In "Bob" (keys (balances "Alice" [aliceBobCarol])))
    by (left; reflexivity).
  split; [exact Hin | ].
  exact (proj1 (keys_are_mentioned "Alice" [aliceBobCarol]) "Bob" Hin).
Defined.

(** ** The viewer's key, when names are written consistently *)

(** X5: if every payer whose trimmed name is the viewer's is written
    exactly as the viewer, the viewer's trimmed name is not a key of
    the balance map and names no settlement entry. *)
Theorem viewer_never_listed (viewer : string) (es : list Expense) :
  Forall (fun e => paid_by e <> viewer -> trim (paid_by e) <> trim viewer) es ->
  ~ In (trim viewer) (keys (balances viewer es)) /\
  ~ In (trim viewer)
       (map st_name (settlements (computeSettlements es viewer))).
Proof.
  intros Hes. pose proof (viewer_key_absent viewer es Hes) as Hkey.
  split; [exact Hkey | ]. intros Hin. apply Hkey.
  apply in_map_iff in Hin. destruct Hin as (s & Hname & Hs).
  rewrite settlements_sorted_entries in Hs.
  apply (Permutation_in _ (sort_perm _ _)) in Hs.
  apply in_map_iff in Hs. destruct Hs as ([k v] & <- & Hin).
  apply filter_In in Hin. cbn [toEntry st_name fst] in Hname. subst k.
  unfold keys. apply (in_map fst _ _ (proj1 Hin)).
Qed.

Lemma viewer_never_listed_witness :
  Forall (fun e => paid_by e <> "Alice" ->
                   trim (paid_by e) <> trim "Alice")
         [aliceBobCarol; davePays] /\
  ~ In (trim "Alice") (keys (balances "Alice" [aliceBobCarol; davePays])).
Proof.
  assert (H : Forall (fun e => paid_by e <> "Alice" ->
                               trim (paid_by e) <> trim "Alice")
                     [aliceBobCarol; davePays]).
  { repeat constructor.
    - intros Hne. exfalso. apply Hne. reflexivity.
    - intros _. discriminate. }
  split; [exact H | ].
  exact (proj1 (viewer_never_listed "Alice" [aliceBobCarol; davePays] H)).
Defined.

(** ** The two totals *)

Section TotalsFacts.

Local Open Scope Qc_scope.

Lemma num_add_nonneg (a b : num) :
  nonneg a -> nonneg b -> nonneg (num_add a b).
Proof.
  unfold nonneg, zero.
  destruct a as [x | | | ], b as [y | | | ]; cbn [num_le num_add];
    try tauto.
  rewrite qz_0. intros Hx Hy. apply round64_nonneg.
  replace 0 with (0 + 0) by ring. apply Qcplus_le_compat; assumption.
Qed.

Lemma addAll_nonneg (l : list num) (b : num) :
  nonneg b -> Forall nonneg l -> nonneg (addAll b l).
Proof.
  intros Hb Hl. revert b Hb.
  induction Hl as [ | v l Hv _ IH]; intros b Hb; cbn [addAll fold_left].
  - exact Hb.
  - apply IH, num_add_nonneg; assumption.
Qed.

Lemma nonneg_zero : nonneg zero.
Proof. unfold nonneg, zero, num_le. apply Qcle_refl. Qed.

Lemma positive_nonneg (v : num) : positive v = true -> nonneg v.
Proof.
  unfold positive, nonneg, zero.
  destruct v as [q | | | ]; cbn [num_gt num_le]; try discriminate;
    try (intros; exact I).
  destruct (Qccompare q (qz 0)) eqn:Hc; try discriminate.
  intros _. apply Qclt_le_weak, Qcgt_alt, Hc.
Qed.

Lemma abs_nonneg (v : num) : not_NaN v -> nonneg (num_abs v).
Proof.
  unfold nonneg, zero.
  destruct v as [q | | | ]; cbn [num_abs num_le not_NaN]; try tauto.
  intros _. rewrite qz_0. apply Qcabs_nonneg.
Qed.

End TotalsFacts.

(** X7: neither total is ever negative, and every settlement amount is
    strictly positive. *)
Theorem totals_nonnegative (es : list Expense) (viewer : string) :
  nonneg (totalOwedToViewer (computeSettlements es viewer)) /\
  nonneg (totalViewerOwes (computeSettlements es viewer)) /\
  Forall (fun s => nonneg (st_amount s) /\ st_amount s <> zero)
         (settlements (computeSettlements es viewer)).
Proof.
  pose proof (values_number _ (balances_wf viewer es)) as Hv.
  split; [ | split].
  - rewrite totalOwed_sum. apply addAll_nonneg; [apply nonneg_zero | ].
    apply Forall_forall. intros v Hin. apply filter_In in Hin.
    apply positive_nonneg, Hin.
  - rewrite totalOwe_sum. apply addAll_nonneg; [apply nonneg_zero | ].
    apply Forall_map, Forall_filter_keep.
    eapply Forall_impl; [ | exact Hv].
    intros v Hn. apply abs_nonneg, is_number_not_NaN, Hn.
  - rewrite settlements_sorted_entries.
    apply (Permutation_Forall (Permutation_sym (sort_perm _ _))).
    apply Forall_map, Forall_forall. intros [k v] Hin.
    apply filter_In in Hin. destruct Hin as [Hin Hnz].
    unfold nonzero in Hnz. cbn [toEntry st_amount snd] in *.
    rewrite Forall_forall in Hv.
    assert (Hnum : is_number v) by (apply Hv, (in_map snd _ _ Hin)).
    split; [apply abs_nonneg, is_number_not_NaN, Hnum | ].
    apply abs_nonzero, Hnz.
Qed.

(** * The personal expenses page *)

Section Summaries.

Import PersonalExpensesPage.

Variable key : PersonalExpense -> string.

Lemma mset_absent (m : balmap) (k : string) (v : num) :
  mget m k = None -> mset m k v = m ++ [(k, v)].
Proof.
  induction m as [ | [k0 v0] m IH]; simpl; [reflexivity | ].
  destruct (String.eqb k0 k); [discriminate | ].
  intros H. rewrite (IH H). reflexivity.
Qed.


(** Both branches of the callback are one [mset]. *)
Lemma summaryStep_mset (acc : list Summary) (e : PersonalExpense) :
  summaryStep key acc e =
  mset acc (key e)
    match mget acc (key e) with
    | Some total => num_add total (Fin (amount e))
    | None => Fin (amount e)
    end.
Proof.
  unfold summaryStep.
  destruct (mget acc (key e)) as [total | ] eqn:Hget; [reflexivity | ].
  symmetry. apply mset_absent, Hget.
Qed.

(** The total of a key: the amounts of its rows, added in the order of
    the rows to the total met at the start, or to the first of them. *)
Lemma summaries_balance (data : list PersonalExpense) (acc : list Summary)
    (k : string) :
  balanceOf (fold_left (summaryStep key) data acc) k =
  match mget acc k with
  | Some v => addAll v (amountsOf key k data)
  | None => num_sum (amountsOf key k data)
  end.
Proof.
  revert acc. induction data as [ | e data IH]; intros acc;
    cbn [fold_left].
  - unfold balanceOf. destruct (mget acc k); reflexivity.
  - rewrite IH, summaryStep_mset, mget_mset. unfold amountsOf.
    cbn [filter].
    destruct (String.eqb_spec (key e) k) as [-> | ]; [ | reflexivity].
    cbn [map]. destruct (mget acc k) as [v | ]; [reflexivity | ].
    unfold num_sum, addAll. cbn [fold_left].
    rewrite num_add_zero_double. reflexivity.
Qed.

Lemma summaries_NoDup (data : list PersonalExpense) (acc : list Summary) :
  NoDup (keys acc) -> NoDup (keys (fold_left (summaryStep key) data acc)).
Proof.
  revert acc. induction data as [ | e data IH]; intros acc Hnd;
    cbn [fold_left]; [exact Hnd | ].
  apply IH. rewrite summaryStep_mset. apply NoDup_keys_mset, Hnd.
Qed.

Lemma keys_mset (m : balmap) (k : string) (v : num) :
  keys (mset m k v) = if notAmong (keys m) k then keys m ++ [k] else keys m.
Proof.
  unfold notAmong, keys. induction m as [ | [k0 v0] m IH]; cbn.
  - reflexivity.
  - rewrite (String.eqb_sym k k0).
    destruct (String.eqb k0 k); cbn; [reflexivity | ].
    rewrite IH. destruct (existsb (String.eqb k) (map fst m)); reflexivity.
Qed.

Lemma filter_absorb {A : Type} (f g : A -> bool) (l : list A) :
  (forall x, f x = true -> g x = true) ->
  filter f (filter g l) = filter f l.
Proof.
  intros Hfg. induction l as [ | x l IH]; cbn; [reflexivity | ].
  destruct (g x) eqn:Hg; cbn.
  - rewrite IH. reflexivity.
  - destruct (f x) eqn:Hf; [ | exact IH].
    rewrite (Hfg x Hf) in Hg. discriminate.
Qed.

Lemma filter_both {A : Type} (f g : A -> bool) (l : list A) :
  filter f (filter g l) = filter (fun x => g x && f x) l.
Proof.
  induction l as [ | x l IH]; cbn; [reflexivity | ].
  destruct (g x); cbn; [destruct (f x) | ]; rewrite IH; reflexivity.
Qed.

Lemma notAmong_snoc (a : list string) (k d : string) :
  notAmong (a ++ [k]) d = negb (String.eqb d k) && notAmong a d.
Proof.
  unfold notAmong. rewrite existsb_app. cbn. rewrite orb_false_r.
  rewrite negb_orb. apply andb_comm.
Qed.

Lemma summaries_keys (data : list PersonalExpense) (acc : list Summary) :
  keys (fold_left (summaryStep key) data acc) =
  keys acc ++ filter (notAmong (keys acc)) (firstOccurrences (map key data)).
Proof.
  revert acc. induction data as [ | e data IH]; intros acc;
    cbn [fold_left map firstOccurrences filter].
  - symmetry. apply app_nil_r.
  - rewrite IH, summaryStep_mset, keys_mset.
    destruct (notAmong (keys acc) (key e)) eqn:Hk.
    + rewrite <- app_assoc. cbn [app]. f_equal. f_equal.
      rewrite filter_both. apply filter_ext. intros d.
      apply notAmong_snoc.
    + f_equal. symmetry. apply filter_absorb. intros d Hd.
      apply negb_true_iff, String.eqb_neq. intros ->. congruence.
Qed.

Lemma filter_all {A : Type} (f : A -> bool) (l : list A) :
  (forall x, f x = true) -> filter f l = l.
Proof.
  intros Hf. induction l as [ | x l IH]; cbn; [reflexivity | ].
  rewrite Hf, IH. reflexivity.
Qed.

Lemma summaries_first_seen (data : list PersonalExpense) :
  keys (fold_left (summaryStep key) data []) =
  firstOccurrences (map key data).
Proof.
  rewrite summaries_keys. cbn [keys map app].
  apply filter_all. reflexivity.
Qed.

End Summaries.

(** X8: the summary of a category holds the sum of the amounts of the
    rows of that category, added from left to right in the order of the
    rows, and a category without rows has no summary (its total reads
    as 0). *)
Theorem category_total (data : list PersonalExpensesPage.PersonalExpense)
    (c : string) :
  balanceOf (PersonalExpensesPage.categorySummaries data) c =
  num_sum (amountsOf PersonalExpensesPage.category c data) /\
  (In c (keys (PersonalExpensesPage.categorySummaries data)) <->
   In c (map PersonalExpensesPage.category data)).
Proof.
  unfold PersonalExpensesPage.categorySummaries. split.
  - apply summaries_balance.
  - rewrite summaries_first_seen.
    generalize (map PersonalExpensesPage.category data) as l.
    induction l as [ | d l IH]; cbn [firstOccurrences In]; [tauto | ].
    rewrite filter_In, IH, negb_true_iff, String.eqb_neq.
    destruct (String.eqb_spec c d) as [-> | Hne]; [tauto | ].
    intuition congruence.
Qed.

(** X9: there is one summary per category, and the summaries stand in
    the order in which their categories first occur in the rows. *)
Theorem categories_first_seen
    (data : list PersonalExpensesPage.PersonalExpense) :
  keys (PersonalExpensesPage.categorySummaries data) =
    firstOccurrences (map PersonalExpensesPage.category data) /\
  NoDup (keys (PersonalExpensesPage.categorySummaries data)).
Proof.
  unfold PersonalExpensesPage.categorySummaries. split.
  - apply summaries_first_seen.
  - apply summaries_NoDup. constructor.
Qed.


(** X11: whatever the date functions return, the monthly summaries
    hold one entry per month name, each with the sum of the amounts of
    the rows of that month, added in the order of the rows; sorting
    only reorders them. *)
Theorem monthly_summaries_totals (monthName : string -> string)
    (getTime : string -> num)
    (data : list PersonalExpensesPage.PersonalExpense) :
  Permutation (PersonalExpensesPage.monthlySummaries monthName getTime data)
    (PersonalExpensesPage.monthlyData monthName data) /\
  NoDup (keys (PersonalExpensesPage.monthlySummaries monthName getTime data)) /\
  (forall m,
     balanceOf (PersonalExpensesPage.monthlySummaries monthName getTime data) m
     = num_sum (amountsOf
                  (fun e => monthName (PersonalExpensesPage.created_at e))
                  m data)).
Proof.
  set (sorted := PersonalExpensesPage.monthlySummaries monthName getTime data).
  set (grouped := PersonalExpensesPage.monthlyData monthName data).
  assert (Hperm : Permutation sorted grouped) by apply sort_perm.
  assert (Hnd : NoDup (keys grouped))
    by (apply summaries_NoDup; constructor).
  assert (Hnd' : NoDup (keys sorted)).
  { apply (Permutation_NoDup (Permutation_map fst (Permutation_sym Hperm))).
    exact Hnd. }
  split; [exact Hperm | ]. split; [exact Hnd' | ].
  intros m.
  assert (Hsame : balanceOf sorted m = balanceOf grouped m).
  { unfold balanceOf.
    destruct (mget grouped m) as [v | ] eqn:Hg.
    - apply mget_In in Hg.
      apply (Permutation_in _ (Permutation_sym Hperm)) in Hg.
      rewrite (In_mget _ _ _ Hnd' Hg). reflexivity.
    - destruct (mget sorted m) as [w | ] eqn:Hs; [ | reflexivity].
      apply mget_In in Hs. apply (Permutation_in _ Hperm) in Hs.
      rewrite (In_mget _ _ _ Hnd Hs) in Hg. discriminate. }
  rewrite Hsame. unfold grouped, PersonalExpensesPage.monthlyData.
  apply summaries_balance.
Qed.

(** X12: when the month name of every row parses to a valid date (its
    time value is a number, not [NaN]), the monthly summaries are
    sorted by that date, newest first. *)
Theorem monthly_summaries_newest_first (monthName : string -> string)
    (getTime : string -> num)
    (data : list PersonalExpensesPage.PersonalExpense) :
  (forall e, In e data ->
     is_number (getTime (monthName (PersonalExpensesPage.created_at e)))) ->
  StronglySorted (descendingBy (fun s => getTime (fst s)))
    (PersonalExpensesPage.monthlySummaries monthName getTime data).
Proof.
  intros Hnum. unfold PersonalExpensesPage.monthlySummaries.
  apply (sort_sorted_by (fun s => getTime (fst s))).
  apply Forall_forall. intros [m v] Hin. cbn [fst].
  assert (Hm : In m (keys (PersonalExpensesPage.monthlyData monthName data)))
    by (apply (in_map fst _ _ Hin)).
  unfold PersonalExpensesPage.monthlyData in Hm.
  rewrite summaries_first_seen in Hm.
  assert (Hsub : forall l d, In d (firstOccurrences l) -> In d l).
  { induction l as [ | c l IH]; cbn [firstOccurrences In]; [tauto | ].
    intros d [-> | Hd]; [left; reflexivity | right].
    apply filter_In in Hd. apply IH, Hd. }
  apply Hsub in Hm. apply in_map_iff in Hm.
  destruct Hm as (e & <- & He). apply Hnum, He.
Qed.

Lemma monthly_summaries_newest_first_witness :
  (forall e, In e [lunch; train; dinner] ->
     is_number (isoMonthTime (isoMonth (PersonalExpensesPage.created_at e)))) /\
  StronglySorted (descendingBy (fun s => isoMonthTime (fst s)))
    (PersonalExpensesPage.monthlySummaries isoMonth isoMonthTime
       [lunch; train; dinner]).
Proof.
  assert (H : forall e, In e [lunch; train; dinner] ->
     is_number (isoMonthTime (isoMonth (PersonalExpensesPage.created_at e)))).
  { intros e [<- | [<- | [<- | []]]]; apply on_grid_qz. }
  split; [exact H | ].
  exact (monthly_summaries_newest_first isoMonth isoMonthTime
           [lunch; train; dinner] H).
Defined.

Example personal_summaries :
  PersonalExpensesPage.categorySummaries [lunch; train; dinner] =
    [("Food", Fin (qz 42)); ("Travel", Fin (qz 40))] /\
  PersonalExpensesPage.monthlySummaries isoMonth isoMonthTime
    [lunch; train; dinner] =
    [("2024-04", Fin (qz 30)); ("2024-03", Fin (qz 52))] /\
  PersonalExpensesPage.totalExpenses [lunch; train; dinner] = Fin (qz 82).
Proof. split; [ | split]; qc_eval. Qed.

(** * The monthly chart of the dashboard *)

Section MonthMapFacts.

Lemma monthKey_eqb_spec (a b : MonthKey) : reflect (a = b) (monthKey_eqb a b).
Proof.
  destruct a as [x | ], b as [y | ]; cbn; try (constructor; congruence).
  destruct (String.eqb_spec x y); constructor; congruence.
Qed.

Lemma month_get_set (m : monthmap) (k k' : MonthKey) (v : num) :
  month_get (month_set m k v) k' =
  if monthKey_eqb k k' then Some v else month_get m k'.
Proof.
  induction m as [ | [k0 v0] m IH]; cbn.
  - reflexivity.
  - destruct (monthKey_eqb_spec k0 k) as [-> | Hk0]; cbn.
    + destruct (monthKey_eqb k k'); reflexivity.
    + rewrite IH. destruct (monthKey_eqb_spec k0 k') as [-> | ].
      * destruct (monthKey_eqb_spec k k'); [congruence | reflexivity].
      * reflexivity.
Qed.

Lemma month_set_number (m : monthmap) (k : MonthKey) (v : num) :
  number_months m -> not_NaN v -> number_months (month_set m k v).
Proof.
  intros Hm Hv. induction Hm as [ | [k0 v0] m H0 Hm IH]; cbn.
  - constructor; [exact Hv | constructor].
  - destruct (monthKey_eqb k0 k); constructor; assumption.
Qed.

Lemma monthTotal_number (m : monthmap) (k : MonthKey) :
  number_months m -> not_NaN (monthTotal m k).
Proof.
  unfold monthTotal. intros Hm.
  induction Hm as [ | [k0 v0] m H0 Hm IH]; cbn; [exact I | ].
  destruct (monthKey_eqb k0 k); [exact H0 | exact IH].
Qed.

Lemma month_getOr0_total (m : monthmap) (k : MonthKey) :
  number_months m -> month_getOr0 m k = monthTotal m k.
Proof.
  intros Hm. pose proof (monthTotal_number m k Hm) as Hf.
  unfold month_getOr0, monthTotal in *.
  destruct (month_get m k) as [v | ]; [ | reflexivity].
  apply truthy_or_zero, Hf.
Qed.

Lemma initialMonths_number : number_months initialMonths.
Proof. repeat constructor. Qed.

Lemma initialMonths_total (k : MonthKey) : monthTotal initialMonths k = zero.
Proof.
  unfold initialMonths.
  assert (Hgen : forall names m,
            monthTotal m k = zero ->
            monthTotal
              (fold_left (fun m month => month_set m (Some month) zero)
                 names m) k = zero).
  { induction names as [ | n names IH]; intros m Hm; cbn [fold_left].
    - exact Hm.
    - apply IH. unfold monthTotal in *. rewrite month_get_set.
      destruct (monthKey_eqb (Some n) k); [reflexivity | exact Hm]. }
  apply Hgen. reflexivity.
Qed.

Lemma NoDup_monthNames : NoDup monthNames.
Proof.
  unfold monthNames.
  repeat (constructor;
          [cbn; intros H;
           repeat (destruct H as [H | H]; [discriminate H | ]); exact H | ]).
  constructor.
Qed.

Variable getMonth : string -> option nat.

Lemma monthStep_number (m : monthmap) (r : ExpenseRow) :
  number_months m -> number_months (monthStep getMonth m r).
Proof.
  intros Hm. unfold monthStep. apply month_set_number; [exact Hm | ].
  rewrite month_getOr0_total by exact Hm.
  apply is_number_not_NaN, num_add_number;
    [apply monthTotal_number, Hm | exact I].
Qed.

Lemma monthStep_total (m : monthmap) (r : ExpenseRow) (k : MonthKey) :
  number_months m ->
  monthTotal (monthStep getMonth m r) k =
  if monthKey_eqb (monthNameOf getMonth r) k then
    num_add (monthTotal m k) (Fin (amount (row_expense r)))
  else monthTotal m k.
Proof.
  intros Hm. unfold monthStep, monthTotal at 1.
  rewrite month_get_set, month_getOr0_total by exact Hm.
  destruct (monthKey_eqb_spec (monthNameOf getMonth r) k) as [-> | ];
    reflexivity.
Qed.

(** The total of a key after the loop: the amounts of its rows, added
    one after the other to the total met at the start. *)
Lemma month_loop (rows : list ExpenseRow) (m : monthmap) (k : MonthKey) :
  number_months m ->
  number_months (fold_left (monthStep getMonth) rows m) /\
  monthTotal (fold_left (monthStep getMonth) rows m) k =
  addAll (monthTotal m k)
    (rowAmounts
       (filter (fun r => monthKey_eqb (monthNameOf getMonth r) k) rows)).
Proof.
  revert m. induction rows as [ | r rows IH]; intros m Hm;
    cbn [fold_left filter].
  - split; [exact Hm | reflexivity].
  - destruct (IH _ (monthStep_number m r Hm)) as [Hf Ht].
    split; [exact Hf | ]. rewrite Ht, monthStep_total by exact Hm.
    destruct (monthKey_eqb (monthNameOf getMonth r) k); reflexivity.
Qed.

(** A row is filed under the name of index [i] exactly when its month
    index is [i]. *)
Lemma monthNameOf_index (r : ExpenseRow) (i : nat) (name : string) :
  nth_error monthNames i = Some name ->
  monthKey_eqb (monthNameOf getMonth r) (Some name) =
  match getMonth (created_at r) with
  | Some j => Nat.eqb j i
  | None => false
  end.
Proof.
  intros Hi. unfold monthNameOf.
  destruct (getMonth (created_at r)) as [j | ]; [ | reflexivity].
  destruct (Nat.eqb_spec j i) as [-> | Hne].
  - rewrite Hi. cbn. apply String.eqb_refl.
  - destruct (monthKey_eqb_spec (nth_error monthNames j) (Some name))
      as [Hj | ]; [ | reflexivity].
    exfalso. apply Hne.
    apply (proj1 (NoDup_nth_error monthNames) NoDup_monthNames).
    + apply nth_error_Some. congruence.
    + congruence.
Qed.

Lemma bar_of_month (rows : list ExpenseRow) (i : nat) (name : string) :
  nth_error monthNames i = Some name ->
  month_getOr0 (monthlyExpenses getMonth rows) (Some name) =
  num_sum (rowAmounts (rowsOfMonth getMonth i rows)).
Proof.
  intros Hi. unfold monthlyExpenses.
  destruct (month_loop rows initialMonths (Some name) initialMonths_number)
    as [Hf Ht].
  rewrite month_getOr0_total by exact Hf.
  rewrite Ht, initialMonths_total. unfold rowsOfMonth, num_sum.
  f_equal. f_equal. apply filter_ext. intros r.
  apply monthNameOf_index, Hi.
Qed.

(** The rows of a month of the calendar are among the dated rows. *)
Lemma rowsOfMonth_dated (rows : list ExpenseRow) (i : nat) :
  (i < 12)%nat ->
  rowsOfMonth getMonth i (datedRows getMonth rows) =
  rowsOfMonth getMonth i rows.
Proof.
  intros Hi. unfold rowsOfMonth, datedRows.
  induction rows as [ | r rows IH]; cbn [filter]; [reflexivity | ].
  destruct (getMonth (created_at r)) as [j | ] eqn:Hj.
  - destruct (Nat.ltb_spec j 12) as [Hlt | Hge].
    + cbn [filter]. rewrite Hj, IH. reflexivity.
    + destruct (Nat.eqb_spec j i) as [-> | ]; [lia | exact IH].
  - exact IH.
Qed.

End MonthMapFacts.

(** X13: the chart always has the twelve bars Jan to Dec, in this
    order, and the bar of a month is the sum of the amounts of all rows
    whose date falls in that month, of whatever year and whether
    settled or not, added from 0 in the order of the rows. *)
Theorem monthly_chart_bars (getMonth : string -> option nat)
    (rows : list ExpenseRow) :
  monthlyDataArray getMonth rows =
  map (fun im => (snd im,
                  num_sum (rowAmounts (rowsOfMonth getMonth (fst im) rows))))
      (combine (seq 0 12) monthNames).
Proof.
  unfold monthlyDataArray, monthNames. cbn [map combine seq fst snd].
  rewrite (bar_of_month getMonth rows 0 "Jan" eq_refl),
    (bar_of_month getMonth rows 1 "Feb" eq_refl),
    (bar_of_month getMonth rows 2 "Mar" eq_refl),
    (bar_of_month getMonth rows 3 "Apr" eq_refl),
    (bar_of_month getMonth rows 4 "May" eq_refl),
    (bar_of_month getMonth rows 5 "Jun" eq_refl),
    (bar_of_month getMonth rows 6 "Jul" eq_refl),
    (bar_of_month getMonth rows 7 "Aug" eq_refl),
    (bar_of_month getMonth rows 8 "Sep" eq_refl),
    (bar_of_month getMonth rows 9 "Oct" eq_refl),
    (bar_of_month getMonth rows 10 "Nov" eq_refl),
    (bar_of_month getMonth rows 11 "Dec" eq_refl).
  reflexivity.
Qed.

(** X14: a row whose date gives no month of the calendar changes no
    bar: the chart is the chart of the rows whose date gives one. *)
Theorem monthly_chart_total (getMonth : string -> option nat)
    (rows : list ExpenseRow) :
  monthlyDataArray getMonth rows =
  monthlyDataArray getMonth (datedRows getMonth rows).
Proof.
  unfold monthlyDataArray. apply map_ext_in. intros name Hin.
  apply In_nth_error in Hin. destruct Hin as [i Hi].
  rewrite (bar_of_month getMonth rows i name Hi),
    (bar_of_month getMonth (datedRows getMonth rows) i name Hi).
  rewrite rowsOfMonth_dated; [reflexivity | ].
  assert (Hlt : (i < length monthNames)%nat)
    by (apply nth_error_Some; congruence).
  exact Hlt.
Qed.

Example march_chart :
  nth_error (monthlyDataArray isoMonthIndex
               [marchRow; settledMarchRow; undatedRow]) 2 =
    Some ("Mar", Fin (qz 42)) /\
  monthlyDataArray isoMonthIndex [marchRow; settledMarchRow; undatedRow] =
  monthlyDataArray isoMonthIndex [marchRow; settledMarchRow].
Proof. split; qc_eval. Qed.

(** * [formatDate] *)

Section FormatDate.

Local Open Scope Qc_scope.

Lemma num_seq_fin (x y : Qc) : num_seq (Fin x) (Fin y) = Qc_eq_bool x y.
Proof. unfold num_seq. cbn. apply negb_involutive. Qed.

Lemma qz_le (a b : Z) : (a <= b)%Z -> qz a <= qz b.
Proof.
  intros H. unfold Qcle, qz, Q2Qc. cbn [this].
  rewrite !Qred_correct. rewrite <- Zle_Qle. exact H.
Qed.

Lemma qz_inj (a b : Z) : qz a = qz b -> a = b.
Proof.
  intros H. apply (f_equal this) in H. unfold qz, Q2Qc in H. cbn [this] in H.
  assert (Heq : (inject_Z a == inject_Z b)%Q)
    by (rewrite <- (Qred_correct (inject_Z a)), H; apply Qred_correct).
  unfold Qeq, inject_Z in Heq. cbn [Qnum Qden] in Heq. lia.
Qed.

Lemma qz_minus (a b : Z) : qz a + - qz b = qz (a - b).
Proof.
  apply Qc_is_canon. unfold Qcplus, Qcopp, Q2Qc. cbn [this].
  rewrite !Qred_correct, !this_qz.
  unfold Qeq, Qplus, Qopp, inject_Z. cbn [Qnum Qden]. lia.
Qed.

Lemma qz_abs (z : Z) : Qcabs (qz z) = qz (Z.abs z).
Proof.
  apply Qc_is_canon. unfold Qcabs. cbn [this]. rewrite !this_qz.
  unfold inject_Z, Qabs. reflexivity.
Qed.

(** Rounding commutes with the absolute value. *)
Lemma round64_abs (q : Qc) : num_abs (round64 q) = round64 (Qcabs q).
Proof.
  assert (Hpos : forall x, 0 <= x -> num_abs (round64 x) = round64 x).
  { intros x Hx. pose proof (round64_nonneg x Hx) as Hn.
    destruct (round64 x) as [r | | | ]; cbn [num_abs]; try reflexivity;
      try contradiction.
    unfold nonneg, zero, num_le in Hn. rewrite qz_0 in Hn.
    rewrite (Qcabs_pos r Hn). reflexivity. }
  destruct (Qclt_le_dec q 0) as [Hneg | Hge].
  - assert (Hq : q = - - q) by ring.
    assert (Hopp : 0 <= - q).
    { apply Qclt_le_weak in Hneg. apply Qcopp_le_compat in Hneg.
      exact Hneg. }
    rewrite (Qcabs_neg q (Qclt_le_weak _ _ Hneg)).
    rewrite Hq at 1. rewrite round64_opp, num_abs_neg. apply Hpos, Hopp.
  - rewrite (Qcabs_pos q Hge). apply Hpos, Hge.
Qed.

(** Dividing by a whole number of at least one does not increase the
    magnitude. *)
Lemma Qcabs_div_whole (x : Qc) (z : Z) :
  (1 <= z)%Z -> Qcabs (x / qz z) <= Qcabs x.
Proof.
  intros Hz. unfold Qcdiv. rewrite Qcabs_Qcmult.
  assert (Hinv : Qcabs (/ qz z) <= 1).
  { unfold Qcle, Qcabs, Qcinv, Q2Qc. cbn [this].
    rewrite Qred_correct, this_qz.
    destruct z as [ | p | p]; try lia.
    unfold Qle, Qinv, Qabs, inject_Z. cbn. lia. }
  pose proof (Qcmult_le_compat_r _ _ (Qcabs x) Hinv (Qcabs_nonneg x)) as H.
  rewrite Qcmult_1_l in H. rewrite Qcmult_comm. exact H.
Qed.

(** Twice the largest time value is far below [Number.MAX_VALUE]. *)
Lemma time_span_bounded : qz 17280000000000000 <= maxValue.
Proof. vm_compute. discriminate. Qed.

(** [Number.MIN_VALUE] is below the length of a millisecond in days. *)
Lemma minValue_below_ms : minValue <= 1 / qz (1000 * 60 * 60 * 24).
Proof. vm_compute. discriminate. Qed.

(** The number of days between two different time values. *)
Lemma days_between (d t : Z) :
  timeValue d -> timeValue t -> d <> t ->
  whole_days
    (num_ceil (num_div (num_abs (num_sub (Fin (qz t)) (Fin (qz d)))) msPerDay)).
Proof.
  unfold timeValue. intros Hd Ht Hne.
  cbn [num_sub num_neg num_add]. rewrite round64_abs, qz_minus, qz_abs.
  assert (Hlow : 1 <= qz (Z.abs (t - d))) by (apply (qz_le 1); lia).
  assert (Hhigh : Qcabs (qz (Z.abs (t - d))) <= maxValue).
  { rewrite qz_abs, Z.abs_idemp.
    apply Qcle_trans with (qz 17280000000000000);
      [apply qz_le; lia | apply time_span_bounded]. }
  pose proof (round64_finite _ Hhigh) as Hfin.
  destruct (round64 (qz (Z.abs (t - d)))) as [a | | | ] eqn:Ha;
    try contradiction.
  pose proof (round64_least_one _ _ Hlow Ha) as Hone.
  pose proof (round64_bounded _ _ Ha) as Hmax.
  cbn [num_abs]. unfold msPerDay, num_div.
  change (qsign (qz (1000 * 60 * 60 * 24))) with Gt. cbv iota.
  set (x := a / qz (1000 * 60 * 60 * 24)).
  assert (Hx : minValue <= x).
  { apply Qcle_trans with (1 / qz (1000 * 60 * 60 * 24));
      [apply minValue_below_ms | ].
    unfold x, Qcdiv. apply Qcmult_le_compat_r; [exact Hone | ].
    discriminate. }
  assert (Hxmax : Qcabs x <= maxValue).
  { apply Qcle_trans with (Qcabs a); [ | exact Hmax].
    apply Qcabs_div_whole. lia. }
  pose proof (round64_finite _ Hxmax) as Hxfin.
  pose proof (round64_positive _ Hx) as Hxpos.
  destruct (round64 x) as [y | | | ]; try contradiction.
  cbn [num_ceil]. exists (Qceiling y). split; [ | reflexivity].
  assert (Hpos : 0 < y).
  { unfold num_gt, zero in Hxpos. rewrite qz_0 in Hxpos.
    destruct (Qccompare y 0) eqn:Hc; try discriminate.
    apply Qcgt_alt, Hc. }
  pose proof (Qle_ceiling y) as Hceil.
  assert (Hz : (0 < Qceiling y)%Z).
  { apply Z.nle_gt. intros Hle. rewrite Zle_Qle in Hle.
    apply (Qlt_irrefl 0). apply (Qlt_le_trans _ y); [exact Hpos | ].
    apply (Qle_trans _ _ _ Hceil). exact Hle. }
  lia.
Qed.

End FormatDate.

(** X15: for a valid date, [formatDate] answers 'Today' only when the
    date's midnight is today's, 'Yesterday' only when it is
    yesterday's, and otherwise a whole number of days that is at least
    one: it never answers '0 days ago'.  The date and today are time
    values: whole numbers of milliseconds, at most 8.64e15 away from
    the epoch. *)
Theorem formatDate_labels (d t : Z) (yesterday : num) :
  timeValue d -> timeValue t ->
  match formatDate (Fin (qz d)) (Fin (qz t)) yesterday with
  | Today => d = t
  | Yesterday => yesterday = Fin (qz d) /\ d <> t
  | DaysAgo diffDays => whole_days diffDays /\ d <> t
  end.
Proof.
  intros Hd Ht. unfold formatDate. rewrite num_seq_fin.
  destruct (Qc_eq_bool (qz d) (qz t)) eqn:Hdt.
  - apply qz_inj, Qc_eq_bool_correct, Hdt.
  - apply Qc_eq_bool_false in Hdt.
    assert (Hne : d <> t) by (intros ->; apply Hdt; reflexivity).
    destruct (num_seq (Fin (qz d)) yesterday) eqn:Hy.
    + split; [ | exact Hne].
      destruct yesterday as [y | | | ]; try discriminate Hy.
      rewrite num_seq_fin in Hy. apply Qc_eq_bool_correct in Hy.
      rewrite Hy. reflexivity.
    + split; [apply days_between; assumption | exact Hne].
Qed.

(** Two days before today's midnight: 'n days ago' with n at least
    one. *)
Lemma formatDate_labels_witness :
  (timeValue 691200000 /\ timeValue 864000000) /\
  match formatDate (Fin (qz 691200000)) (Fin (qz 864000000))
          (Fin (qz 777600000)) with
  | Today => 691200000%Z = 864000000%Z
  | Yesterday =>
      Fin (qz 777600000) = Fin (qz 691200000) /\
      691200000%Z <> 864000000%Z
  | DaysAgo diffDays => whole_days diffDays /\ 691200000%Z <> 864000000%Z
  end.
Proof.
  assert (Hd : timeValue 691200000) by (unfold timeValue; simpl; lia).
  assert (Ht : timeValue 864000000) by (unfold timeValue; simpl; lia).
  split; [split; assumption | ].
  exact (formatDate_labels 691200000 864000000 (Fin (qz 777600000)) Hd Ht).
Defined.

(** X16: [formatDate] does not tell the future from the past: a date
    as far after today as another is before today gets the same label
    (unless one of them is yesterday's midnight). *)
Theorem formatDate_direction_blind (t delta : Qc) (yesterday : num) :
  num_seq (Fin (t + delta)%Qc) yesterday = false ->
  num_seq (Fin (t - delta)%Qc) yesterday = false ->
  formatDate (Fin (t + delta)%Qc) (Fin t) yesterday =
  formatDate (Fin (t - delta)%Qc) (Fin t) yesterday.
Proof.
  intros Hafter Hbefore. unfold formatDate.
  rewrite Hafter, Hbefore, !num_seq_fin.
  assert (Hiff : Qc_eq_bool (t + delta)%Qc t = Qc_eq_bool (t - delta)%Qc t).
  { destruct (Qc_eq_bool (t + delta)%Qc t) eqn:H1,
             (Qc_eq_bool (t - delta)%Qc t) eqn:H2; try reflexivity; exfalso.
    - apply Qc_eq_bool_correct in H1. apply Qc_eq_bool_false in H2.
      apply H2. assert (Hd : delta = ((t + delta) - t)%Qc) by ring.
      rewrite Hd, H1. ring.
    - apply Qc_eq_bool_correct in H2. apply Qc_eq_bool_false in H1.
      apply H1. assert (Hd : delta = (t - (t - delta))%Qc) by ring.
      rewrite Hd, H2. ring. }
  rewrite Hiff. destruct (Qc_eq_bool (t - delta)%Qc t); [reflexivity | ].
  cbn [num_sub num_neg num_add].
  replace (t + - (t + delta))%Qc with (- delta)%Qc by ring.
  replace (t + - (t - delta))%Qc with delta by ring.
  rewrite round64_opp, num_abs_neg. reflexivity.
Qed.

Lemma formatDate_direction_blind_witness :
  (num_seq (Fin (qz 864000000 + qz 172800000)%Qc) (Fin (qz 777600000))
     = false /\
   num_seq (Fin (qz 864000000 - qz 172800000)%Qc) (Fin (qz 777600000))
     = false) /\
  formatDate (Fin (qz 864000000 + qz 172800000)%Qc) (Fin (qz 864000000))
    (Fin (qz 777600000)) =
  formatDate (Fin (qz 864000000 - qz 172800000)%Qc) (Fin (qz 864000000))
    (Fin (qz 777600000)).
Proof.
  split; [split; reflexivity | ].
  exact (formatDate_direction_blind (qz 864000000) (qz 172800000)
           (Fin (qz 777600000)) eq_refl eq_refl).
Defined.

Example two_days_either_way :
  formatDate (Fin (qz 1036800000)) (Fin (qz 864000000)) (Fin (qz 777600000))
    = DaysAgo (Fin (qz 2)) /\
  formatDate (Fin (qz 691200000)) (Fin (qz 864000000)) (Fin (qz 777600000))
    = DaysAgo (Fin (qz 2)) /\
  formatDate NaN (Fin (qz 864000000)) (Fin (qz 777600000)) = DaysAgo NaN.
Proof. split; [ | split]; qc_eval. Qed.

(** * The groups page *)

Section GroupsPageFacts.

Import GroupsPage.

Lemma filterIndex_past (start index : nat) (members : list string) :
  (index < start)%nat -> filterIndex start index members = members.
Proof.
  revert start. induction members as [ | m rest IH]; intros start Hlt;
    cbn [filterIndex]; [reflexivity | ].
  destruct (Nat.eqb_spec start index); [lia | ].
  rewrite IH by lia. reflexivity.
Qed.

Lemma filterIndex_firstn_skipn (start index : nat) (members : list string) :
  (start <= index)%nat ->
  filterIndex start index members =
  (firstn (index - start) members ++ skipn (S (index - start)) members)%list.
Proof.
  revert start. induction members as [ | m rest IH]; intros start Hle.
  - cbn [filterIndex]. rewrite firstn_nil. reflexivity.
  - cbn [filterIndex]. destruct (Nat.eqb_spec start index) as [-> | Hne].
    + rewrite Nat.sub_diag. cbn [firstn skipn app].
      apply filterIndex_past. lia.
    + rewrite IH by lia.
      replace (index - start)%nat with (S (index - S start)) by lia.
      reflexivity.
Qed.

Lemma act_nonempty (members : list string) (a : Action) :
  act members a <> [].
Proof.
  destruct a as [ | index]; cbn [act].
  - unfold handleAddMember. intros H. apply app_eq_nil in H.
    destruct H as [_ H]. discriminate H.
  - unfold handleRemoveMember.
    destruct (filterIndex 0 index members) as [ | m l]; cbn; discriminate.
Qed.

End GroupsPageFacts.

(** X17: removing a member drops the row at that index and no other
    (an index past the end drops nothing); if no row is left, one empty
    row is put back. *)
Theorem remove_member_row (index : nat) (members : list string) :
  GroupsPage.handleRemoveMember index members =
  match (firstn index members ++ skipn (S index) members)%list with
  | [] => [""]
  | rest => rest
  end.
Proof.
  unfold GroupsPage.handleRemoveMember.
  rewrite filterIndex_firstn_skipn by lia. rewrite Nat.sub_0_r.
  destruct (firstn index members ++ skipn (S index) members)%list;
    reflexivity.
Qed.

(** X18: whatever sequence of "add" and "remove" clicks the form
    receives, its member list never becomes empty. *)
Theorem member_form_never_empty (actions : list GroupsPage.Action) :
  fold_left GroupsPage.act actions GroupsPage.initialMembers <> [].
Proof.
  assert (Hgen : forall l, l <> [] ->
                           fold_left GroupsPage.act actions l <> []).
  { induction actions as [ | a actions IH]; intros l Hl; cbn [fold_left].
    - exact Hl.
    - apply IH, act_nonempty. }
  apply Hgen. discriminate.
Qed.

(** X19: a group is inserted only for a logged-in user and with at
    least one member; the members inserted are the entries of the form
    whose trimmed text is not empty, in the order of the form and as
    typed (neither trimmed nor made distinct). *)
Theorem submitted_group (userId : option string) (groupName : string)
    (members : list string) (name : string) (inserted : list string)
    (created_by : string) :
  GroupsPage.handleSubmit userId groupName members =
    GroupsPage.Insert name inserted created_by ->
  userId = Some created_by /\ created_by <> "" /\ name = groupName /\
  inserted <> [] /\
  inserted = filter (fun m => negb (String.eqb (trim m) "")) members /\
  Forall (fun m => In m members /\ trim m <> "") inserted.
Proof.
  unfold GroupsPage.handleSubmit. destruct userId as [uid | ]; [ | discriminate].
  destruct (String.eqb_spec uid "") as [ | Huid]; [discriminate | ].
  set (final := filter (fun m => negb (String.eqb (trim m) "")) members).
  destruct (Nat.eqb_spec (length final) 0) as [ | Hlen]; [discriminate | ].
  intros [= <- <- <-].
  repeat split; try assumption; try reflexivity.
  - intros Hnil. apply Hlen. rewrite Hnil. reflexivity.
  - apply Forall_forall. intros m Hm. unfold final in Hm.
    apply filter_In in Hm. destruct Hm as [Hin Hne]. split; [exact Hin | ].
    apply negb_true_iff, String.eqb_neq in Hne. exact Hne.
Qed.

Lemma submitted_group_witness :
  GroupsPage.handleSubmit (Some "u1") "Flat" ["Alice"; "  "; "Bob"; " Bob"] =
    GroupsPage.Insert "Flat" ["Alice"; "Bob"; " Bob"] "u1" /\
  ["Alice"; "Bob"; " Bob"] <> [].
Proof.
  assert (H : GroupsPage.handleSubmit (Some "u1") "Flat"
                ["Alice"; "  "; "Bob"; " Bob"] =
              GroupsPage.Insert "Flat" ["Alice"; "Bob"; " Bob"] "u1")
    by reflexivity.
  split; [exact H | ].
  exact (proj1 (proj2 (proj2 (proj2
    (submitted_group _ _ _ _ _ _ H))))).
Defined.

(** X20: an equal split in a group inserted by the groups page never
    divides by zero: its share is a finite number. *)
Theorem inserted_group_share_finite (userId : option string)
    (groupName : string) (typed : list string) (name : string)
    (inserted : list string) (created_by : string) (e : Expense) :
  GroupsPage.handleSubmit userId groupName typed =
    GroupsPage.Insert name inserted created_by ->
  members e = inserted ->
  is_fin (shareOf e).
Proof.
  unfold GroupsPage.handleSubmit. destruct userId as [uid | ]; [ | discriminate].
  destruct (String.eqb uid ""); [discriminate | ].
  destruct (filter (fun m => negb (String.eqb (trim m) "")) typed)
    as [ | m l] eqn:Hf; [discriminate | ].
  cbn [length Nat.eqb]. intros [= _ <- _] He.
  destruct (share_cases e) as [Hnil | Hfin]; [congruence | exact Hfin].
Qed.

Lemma inserted_group_share_finite_witness :
  (GroupsPage.handleSubmit (Some "u1") "Flat" ["Alice"; "Bob"; "Carol"] =
     GroupsPage.Insert "Flat" ["Alice"; "Bob"; "Carol"] "u1" /\
   members aliceBobCarol = ["Alice"; "Bob"; "Carol"]) /\
  is_fin (shareOf aliceBobCarol).
Proof.
  split; [split; reflexivity | ].
  exact (inserted_group_share_finite (Some "u1") "Flat"
           ["Alice"; "Bob"; "Carol"] "Flat" ["Alice"; "Bob"; "Carol"] "u1"
           aliceBobCarol eq_refl eq_refl).
Defined.

(** * The expenses page *)

Section ParseFacts.

Local Open Scope Qc_scope.

Lemma Qc_nonneg_plus (a b : Qc) : 0 <= a -> 0 <= b -> 0 <= a + b.
Proof.
  intros Ha Hb. replace 0 with (0 + 0) by ring.
  apply Qcplus_le_compat; assumption.
Qed.

Lemma Qc_nonneg_mult (a b : Qc) : 0 <= a -> 0 <= b -> 0 <= a * b.
Proof.
  unfold Qcle, Qcmult, Q2Qc. cbn [this]. rewrite !Qred_correct.
  apply Qmult_le_0_compat.
Qed.

Lemma Qc_nonneg_inv (a : Qc) : 0 <= a -> 0 <= / a.
Proof.
  unfold Qcle, Qcinv, Q2Qc. cbn [this]. rewrite !Qred_correct.
  apply Qinv_le_0_compat.
Qed.

Lemma Qc_nonneg_div (a b : Qc) : 0 <= a -> 0 <= b -> 0 <= a / b.
Proof.
  intros Ha Hb. unfold Qcdiv. apply Qc_nonneg_mult; [exact Ha | ].
  apply Qc_nonneg_inv, Hb.
Qed.

Lemma qz_nonneg (z : Z) : (0 <= z)%Z -> 0 <= qz z.
Proof. intros Hz. rewrite <- qz_0. apply qz_le, Hz. Qed.

Lemma pow10_nonneg (e : Z) : 0 <= pow10 e.
Proof.
  unfold Qcle, pow10, Q2Qc. cbn [this]. rewrite !Qred_correct.
  apply Qpower_0_le. discriminate.
Qed.

Lemma digitValue_range (c : ascii) :
  is_digit c = true -> (0 <= digitValue c <= 9)%Z.
Proof.
  unfold is_digit, digitValue. intros H. apply andb_true_iff in H.
  destruct H as [H1 H2]. apply Nat.leb_le in H1, H2. lia.
Qed.

Lemma spanDigits_range (s : string) :
  Forall (fun d => (0 <= d <= 9)%Z) (fst (spanDigits s)).
Proof.
  induction s as [ | c s IH]; cbn [spanDigits]; [constructor | ].
  destruct (is_digit c) eqn:Hc; [ | constructor].
  destruct (spanDigits s) as [ds rest]. cbn [fst] in *.
  constructor; [apply digitValue_range, Hc | exact IH].
Qed.

Lemma digitsValue_nonneg (ds : list Z) :
  Forall (fun d => (0 <= d <= 9)%Z) ds -> (0 <= digitsValue ds)%Z.
Proof.
  unfold digitsValue. intros Hds.
  assert (Hgen : forall a, (0 <= a)%Z ->
            (0 <= fold_left (fun a d => 10 * a + d) ds a)%Z).
  { induction Hds as [ | d ds Hd _ IH]; intros a Ha; cbn [fold_left].
    - exact Ha.
    - apply IH. lia. }
  apply Hgen. lia.
Qed.

Lemma exponentPart_empty : exponentPart "" = 0%Z.
Proof. reflexivity. Qed.

Lemma literal_value_nonneg (ip fp : list Z) :
  Forall (fun d => (0 <= d <= 9)%Z) ip ->
  Forall (fun d => (0 <= d <= 9)%Z) fp ->
  0 <= (qz (digitsValue ip)
        + qz (digitsValue fp) / pow10 (Z.of_nat (length fp)))
       * pow10 0.
Proof.
  intros Hip Hfp. apply Qc_nonneg_mult; [ | apply pow10_nonneg].
  apply Qc_nonneg_plus.
  - apply qz_nonneg, digitsValue_nonneg, Hip.
  - apply Qc_nonneg_div; [ | apply pow10_nonneg].
    apply qz_nonneg, digitsValue_nonneg, Hfp.
Qed.

(** [n] digits write a number below [10 ^ n]. *)
Lemma digitsValue_below (ds : list Z) :
  Forall (fun d => (0 <= d <= 9)%Z) ds ->
  (digitsValue ds < 10 ^ Z.of_nat (length ds))%Z.
Proof.
  unfold digitsValue. intros Hds.
  assert (Hgen : forall a, (0 <= a)%Z ->
            (fold_left (fun a d => 10 * a + d) ds a
             < (a + 1) * 10 ^ Z.of_nat (length ds))%Z).
  { induction Hds as [ | d ds Hd _ IH]; intros a Ha;
      cbn [fold_left length].
    - rewrite Z.pow_0_r. lia.
    - replace (Z.of_nat (S (length ds)))
        with (Z.succ (Z.of_nat (length ds))) by lia.
      rewrite Z.pow_succ_r by lia.
      specialize (IH (10 * a + d)%Z ltac:(lia)).
      assert (0 < 10 ^ Z.of_nat (length ds))%Z
        by (apply Z.pow_pos_nonneg; lia).
      nia. }
  specialize (Hgen 0%Z ltac:(lia)). lia.
Qed.

Lemma spanDigits_length (s : string) :
  (length (fst (spanDigits s)) + String.length (snd (spanDigits s)) =
   String.length s)%nat.
Proof.
  induction s as [ | c s IH]; cbn [spanDigits]; [reflexivity | ].
  destruct (is_digit c); [ | reflexivity].
  destruct (spanDigits s) as [ds rest]. cbn [fst snd length] in *.
  cbn [String.length]. lia.
Qed.

Lemma pow10_nat (n : nat) : pow10 (Z.of_nat n) = qz (10 ^ Z.of_nat n).
Proof.
  apply Qc_is_canon. unfold pow10, Q2Qc. cbn [this].
  rewrite Qred_correct, this_qz. symmetry. apply Zpower_Qpower. lia.
Qed.

(** A whole part [i] and a fraction [f / p] below one, read together,
    stay below [i + 1]. *)
Lemma literal_value_below (i f p t : Z) :
  (0 <= f < p)%Z -> (i + 1 <= t)%Z ->
  (qz i + qz f / qz p) * pow10 0 <= qz t.
Proof.
  intros Hf Ht. unfold Qcle, Qcmult, Qcplus, Qcdiv, Qcmult, Qcinv, pow10, Q2Qc.
  cbn [this]. rewrite !Qred_correct, !this_qz.
  change (inject_Z 10 ^ 0)%Q with 1%Q.
  assert (Hfrac : (inject_Z f * / inject_Z p <= 1)%Q).
  { apply Qle_shift_div_r.
    - change 0%Q with (inject_Z 0). rewrite <- Zlt_Qlt. lia.
    - rewrite Qmult_1_l, <- Zle_Qle. lia. }
  assert (Hwhole : (inject_Z i + 1 <= inject_Z t)%Q).
  { change 1%Q with (inject_Z 1). rewrite <- inject_Z_plus, <- Zle_Qle.
    exact Ht. }
  set (x := (inject_Z f * / inject_Z p)%Q) in *.
  set (a := inject_Z i) in *. set (b := inject_Z t) in *. lra.
Qed.

Lemma spans_of_pattern (v : string) :
  ExpensesPage.decimalPattern v = true -> plainValue (decimalLiteral v).
Proof.
  unfold ExpensesPage.decimalPattern, decimalLiteral.
  pose proof (spanDigits_range v) as Hip.
  destruct (spanDigits v) as [ip r1]. cbn [fst snd] in *.
  destruct r1 as [ | c r2].
  - intros _. destruct ip as [ | d ip]; [exact I | ]. cbn [plainValue].
    rewrite exponentPart_empty.
    apply Qc_nonneg_mult; [ | apply pow10_nonneg].
    apply qz_nonneg, digitsValue_nonneg, Hip.
  - destruct (Ascii.eqb_spec c ".") as [-> | Hc].
    + pose proof (spanDigits_range r2) as Hfp.
      destruct (spanDigits r2) as [fp r3]. cbn [fst snd] in *.
      intros Hr3. apply String.eqb_eq in Hr3. subst r3.
      rewrite exponentPart_empty.
      destruct ip as [ | d ip]; [destruct fp as [ | f fp]; [exact I | ] | ];
        cbn [plainValue]; apply literal_value_nonneg; assumption.
    + intros H. exfalso.
      destruct c as [[] [] [] [] [] [] [] []]; try discriminate H.
      apply Hc. reflexivity.
Qed.

(** The value of a text of digits with at most one point is below 10
    to the number of its characters. *)
Lemma pattern_value_below (v : string) (q : Qc) :
  ExpensesPage.decimalPattern v = true -> decimalLiteral v = Some q ->
  q <= qz (10 ^ Z.of_nat (String.length v)).
Proof.
  unfold ExpensesPage.decimalPattern, decimalLiteral.
  pose proof (spanDigits_range v) as Hip.
  pose proof (spanDigits_length v) as Hlen.
  destruct (spanDigits v) as [ip r1]. cbn [fst snd] in *.
  pose proof (digitsValue_below ip Hip) as Hbelow.
  pose proof (digitsValue_nonneg ip Hip) as Hnn.
  assert (Hpow : (10 ^ Z.of_nat (length ip)
                  <= 10 ^ Z.of_nat (String.length v))%Z)
    by (apply Z.pow_le_mono_r; lia).
  destruct r1 as [ | c r2].
  - intros _ Hq. destruct ip as [ | d ip]; [discriminate Hq | ].
    rewrite exponentPart_empty in Hq. injection Hq as <-.
    replace (pow10 0) with 1 by reflexivity. rewrite Qcmult_1_r.
    apply qz_le. lia.
  - destruct (Ascii.eqb_spec c ".") as [-> | Hc].
    + pose proof (spanDigits_range r2) as Hfp.
      destruct (spanDigits r2) as [fp r3]. cbn [fst snd] in *.
      intros Hr3 Hq. apply String.eqb_eq in Hr3. subst r3.
      rewrite exponentPart_empty in Hq.
      pose proof (digitsValue_below fp Hfp) as Hf.
      pose proof (digitsValue_nonneg fp Hfp) as Hf0.
      assert (Hval : q = (qz (digitsValue ip)
                          + qz (digitsValue fp)
                            / pow10 (Z.of_nat (length fp))) * pow10 0).
      { destruct ip as [ | d ip]; [destruct fp as [ | f fp] | ];
          congruence. }
      rewrite Hval, pow10_nat. apply literal_value_below; lia.
    + intros H. exfalso.
      destruct c as [[] [] [] [] [] [] [] []]; try discriminate H.
      apply Hc. reflexivity.
Qed.

Lemma pattern_head (c : ascii) (r : string) :
  ExpensesPage.decimalPattern (String c r) = true ->
  is_digit c = true \/ c = "."%char.
Proof.
  unfold ExpensesPage.decimalPattern. cbn [spanDigits].
  destruct (is_digit c) eqn:Hc; [left; reflexivity | ].
  cbn [snd]. intros H. right.
  destruct c as [[] [] [] [] [] [] [] []]; try discriminate H.
  reflexivity.
Qed.

(** A text that begins with a digit or a point is read as an unsigned
    literal other than [Infinity]. *)
Lemma parseFloat_plain (c : ascii) (r : string) :
  is_digit c = true \/ c = "."%char ->
  parseFloat (String c r) =
  match decimalLiteral (String c r) with
  | Some q => round64 q
  | None => NaN
  end.
Proof.
  assert (Hmap : forall o : option Qc,
            match option_map round64 o with Some v => v | None => NaN end =
            match o with Some q => round64 q | None => NaN end)
    by (intros [q | ]; reflexivity).
  intros [Hc | ->].
  - destruct c as [[] [] [] [] [] [] [] []]; try discriminate Hc;
      apply Hmap.
  - apply Hmap.
Qed.

Lemma orZero_nonneg (v : num) :
  match v with NaN => True | _ => nonneg v end -> nonneg (orZero v).
Proof.
  unfold orZero, nonneg, zero.
  destruct v as [q | | | ]; cbn [truthy num_le]; try tauto.
  - intros Hq. destruct (negb (Qc_eq_bool q (qz 0))); [exact Hq | ].
    apply Qcle_refl.
  - intros _. apply Qcle_refl.
Qed.

Lemma orZero_fin (v : num) :
  match v with NaN => True | _ => is_fin v end -> is_fin (orZero v).
Proof.
  unfold orZero. destruct v as [q | | | ]; cbn [truthy is_fin]; try tauto.
  intros _. destruct (negb (Qc_eq_bool q (qz 0))); exact I.
Qed.

(** Ten to the 308 is below [Number.MAX_VALUE]. *)
Lemma digits_308_bounded : qz (10 ^ 308) <= maxValue.
Proof. vm_compute. discriminate. Qed.

End ParseFacts.

(** X21: every text the custom-split field lets through (digits with
    at most one point) is read by [parseFloat(...) || 0] as a number
    that is not negative: it is never [NaN], and it is finite when the
    text has at most 308 characters (a longer text can read as
    [Infinity]). *)
Theorem typed_value_parses (v : string) :
  ExpensesPage.decimalPattern v = true ->
  nonneg (orZero (parseFloat v)) /\
  ((String.length v <= 308)%nat -> is_fin (orZero (parseFloat v))).
Proof.
  intros Hv. destruct v as [ | c r].
  - split; [apply Qcle_refl | intros _; exact I].
  - rewrite (parseFloat_plain c r (pattern_head c r Hv)).
    pose proof (spans_of_pattern (String c r) Hv) as Hplain.
    pose proof (pattern_value_below (String c r)) as Hbelow.
    destruct (decimalLiteral (String c r)) as [q | ].
    + cbn [plainValue] in Hplain. rewrite qz_0 in Hplain.
      specialize (Hbelow q Hv eq_refl). split.
      * apply orZero_nonneg. pose proof (round64_nonneg q Hplain) as Hn.
        destruct (round64 q); try exact Hn. exact I.
      * intros Hlen. apply orZero_fin.
        assert (Hfin : is_fin (round64 q)).
        { apply round64_finite. rewrite (Qcabs_pos q Hplain).
          apply Qcle_trans with (qz (10 ^ Z.of_nat (String.length (String c r))));
            [exact Hbelow | ].
          apply Qcle_trans with (qz (10 ^ 308));
            [ | apply digits_308_bounded].
          apply qz_le, Z.pow_le_mono_r; lia. }
        destruct (round64 q); try exact Hfin. exact I.
    + split; [apply Qcle_refl | intros _; exact I].
Qed.

Lemma typed_value_parses_witness :
  ExpensesPage.decimalPattern "12.5" = true /\
  nonneg (orZero (parseFloat "12.5")).
Proof.
  split; [reflexivity | ].
  exact (proj1 (typed_value_parses "12.5" eq_refl)).
Defined.

Example parseFloat_samples :
  parseFloat "12.5" = Fin (Q2Qc (25 # 2)) /\
  parseFloat "  7abc" = Fin (qz 7) /\
  parseFloat ".5e1" = Fin (qz 5) /\
  parseFloat "-3" = Fin (qz (-3)) /\
  parseFloat "." = NaN /\ parseFloat "" = NaN /\
  parseFloat "Infinity" = PInf /\
  orZero (parseFloat ".") = zero.
Proof. repeat (split; [qc_eval | ]). qc_eval. Qed.

Section ValidationFacts.

Import ExpensesPage.

Local Open Scope Qc_scope.

Variable mode : SplitMode.
Variable amountNum : num.

(** A step that keeps [validationPassed] pushes the entry of its
    row. *)
Lemma splitStep_passed (st : Validation) (i : nat) (r : MemberSplitValue) :
  validationPassed (splitStep mode amountNum st i r) = true ->
  validationPassed st = true /\ rowPasses mode r /\
  calculatedSplitDetails (splitStep mode amountNum st i r) =
    (calculatedSplitDetails st ++ [entryOf mode amountNum r])%list /\
  currentTotal (splitStep mode amountNum st i r) =
    num_add (currentTotal st) (valueNumOf r).
Proof.
  unfold splitStep, rowPasses, entryOf. fold (valueNumOf r).
  destruct (String.eqb_spec (value r) "") as [ | Hv];
    cbn [orb]; [discriminate | ].
  destruct (num_lt (valueNumOf r) zero) eqn:Hneg; [discriminate | ].
  destruct mode; cbn [validationPassed calculatedSplitDetails currentTotal].
  - intros Hst. repeat split; try assumption. discriminate.
  - destruct (num_gt (valueNumOf r) hundred) eqn:Hover; [discriminate | ].
    intros Hst. repeat split; assumption.
Qed.

Lemma splitLoop_passed (rows : list MemberSplitValue) (i : nat)
    (st : Validation) :
  validationPassed (splitLoop mode amountNum i rows st) = true ->
  validationPassed st = true /\ Forall (rowPasses mode) rows /\
  calculatedSplitDetails (splitLoop mode amountNum i rows st) =
    (calculatedSplitDetails st ++ map (entryOf mode amountNum) rows)%list /\
  currentTotal (splitLoop mode amountNum i rows st) =
    addAll (currentTotal st) (map valueNumOf rows).
Proof.
  revert i st. induction rows as [ | r rows IH]; intros i st;
    cbn [splitLoop map].
  - intros Hst. rewrite app_nil_r. auto.
  - intros Hpassed. destruct (IH _ _ Hpassed) as (Hstep & Hrows & Hd & Ht).
    destruct (splitStep_passed st i r Hstep) as (Hst & Hr & Hd1 & Ht1).
    split; [exact Hst | ]. split; [constructor; assumption | ].
    rewrite Hd, Hd1, Ht, Ht1, <- app_assoc.
    split; reflexivity.
Qed.

Lemma checkTotal_passed (st : Validation) :
  validationPassed (checkTotal mode amountNum st) = true ->
  checkTotal mode amountNum st = st /\
  num_gt (num_abs (num_sub (currentTotal st)
            match mode with amountMode => amountNum | percentage => hundred end))
         cent = false.
Proof.
  unfold checkTotal.
  destruct (num_gt _ cent); [discriminate | ]. auto.
Qed.

End ValidationFacts.

Section ValueFacts.

Import ExpensesPage.

Local Open Scope Qc_scope.

Lemma orZero_not_NaN (v : num) : orZero v <> NaN.
Proof. unfold orZero. destruct v as [q | | | ]; cbn; try discriminate.
  destruct (negb (Qc_eq_bool q (qz 0))); discriminate. Qed.

Lemma not_lt_zero (v : num) :
  v <> NaN -> num_lt v zero = false -> notNegative v.
Proof.
  unfold num_lt. intros Hnan Hlt.
  destruct v as [q | | | ]; unfold zero in Hlt; cbn [num_gt notNegative] in *;
    try congruence; try exact I.
  destruct (Qccompare (qz 0) q) eqn:Hc; try discriminate Hlt.
  - apply Qceq_alt in Hc. rewrite <- Hc. apply Qcle_refl.
  - apply Qclt_alt in Hc. apply Qclt_le_weak, Hc.
Qed.

Lemma rowPasses_notNegative (m : SplitMode) (r : MemberSplitValue) :
  rowPasses m r -> notNegative (valueNumOf r).
Proof.
  intros (_ & Hneg & _). apply not_lt_zero; [apply orZero_not_NaN | exact Hneg].
Qed.

Lemma notNegative_add (a b : num) :
  notNegative a -> notNegative b ->
  notNegative (num_add a b) /\
  (is_fin (num_add a b) -> is_fin a /\ is_fin b).
Proof.
  destruct a as [x | | | ], b as [y | | | ];
    cbn [notNegative num_add is_fin]; try tauto.
  intros Hx Hy. split; [ | tauto]. rewrite qz_0 in *.
  assert (Hsum : 0 <= x + y).
  { replace 0 with (0 + 0) by ring. apply Qcplus_le_compat; assumption. }
  pose proof (round64_nonneg _ Hsum) as Hn. unfold nonneg, zero in Hn.
  destruct (round64 (x + y)); cbn [num_le notNegative] in *;
    try contradiction; [rewrite qz_0 in Hn; exact Hn | exact I].
Qed.

(** A finite left-to-right sum of numbers that are not negative has
    finite terms. *)
Lemma notNegative_sum (l : list num) (b : num) :
  notNegative b -> Forall notNegative l ->
  notNegative (addAll b l) /\
  (is_fin (addAll b l) -> is_fin b /\ Forall is_fin l).
Proof.
  intros Hb Hl. revert b Hb.
  induction Hl as [ | v l Hv _ IH]; intros b Hb; cbn [addAll fold_left].
  - split; [exact Hb | intros Hf; split; [exact Hf | constructor]].
  - destruct (notNegative_add b v Hb Hv) as [Hsum Hfin].
    destruct (IH _ Hsum) as [Hn Hf]. split; [exact Hn | ].
    intros Hall. destruct (Hf Hall) as [Hbv Hrest].
    destruct (Hfin Hbv) as [Hbf Hvf].
    split; [exact Hbf | constructor; assumption].
Qed.

(** [0.01] is a finite number. *)
Lemma cent_finite : is_fin cent.
Proof. vm_compute. exact I. Qed.

(** Within a cent of a finite target means finite. *)
Lemma not_far_finite (total : num) (target : Qc) :
  notNegative total ->
  num_gt (num_abs (num_sub total (Fin target))) cent = false ->
  is_fin total /\ withinCent total (Fin target).
Proof.
  unfold withinCent. pose proof cent_finite as Hc.
  destruct cent as [c | | | ]; try contradiction.
  destruct total as [t | | | ]; cbn [notNegative]; try tauto.
  - intros _ Hgt. split; [exact I | ].
    destruct (num_abs (num_sub (Fin t) (Fin target))) as [d | | | ] eqn:Hd;
      cbn [num_gt num_le] in *; try discriminate Hgt; try exact I.
    + destruct (Qccompare d c) eqn:Hcmp; try discriminate.
      * apply Qceq_alt in Hcmp. rewrite Hcmp. apply Qcle_refl.
      * apply Qclt_alt in Hcmp. apply Qclt_le_weak, Hcmp.
    + exfalso. unfold num_sub in Hd. cbn [num_neg num_add] in Hd.
      pose proof (round64_not_NaN (t + - target)) as Hn.
      destruct (round64 (t + - target)); cbn [num_abs] in Hd;
        try discriminate Hd. exact Hn.
  - intros _ H. discriminate H.
Qed.

End ValueFacts.

(** X22: when a custom split in amount mode passes the validation of a
    finite expense amount, no field was empty, the stored details are
    the rows of the form with their parsed values, every stored amount
    is finite and not negative, and the amounts, added from 0 in the
    order of the rows as the loop adds them, give a total that the
    code's test [Math.abs(currentTotal - amountNum) > 0.01] finds
    within 0.01 of the expense amount. *)
Theorem accepted_amount_splits (amountNum : Qc)
    (rows : list ExpensesPage.MemberSplitValue) :
  ExpensesPage.validationPassed
    (ExpensesPage.validateSplits ExpensesPage.amountMode (Fin amountNum) rows)
    = true ->
  ExpensesPage.calculatedSplitDetails
    (ExpensesPage.validateSplits ExpensesPage.amountMode (Fin amountNum) rows)
    = map (fun r => (ExpensesPage.member r, valueNumOf r)) rows /\
  Forall (fun r => ExpensesPage.value r <> "") rows /\
  Forall (fun r => is_fin (valueNumOf r) /\ nonneg (valueNumOf r)) rows /\
  withinCent (num_sum (map valueNumOf rows)) (Fin amountNum).
Proof.
  unfold ExpensesPage.validateSplits. intros Hpassed.
  destruct (checkTotal_passed _ _ _ Hpassed) as [Heq Hgt]. rewrite Heq in *.
  clear Heq.
  destruct (splitLoop_passed _ _ _ _ _ Hpassed) as (_ & Hrows & Hd & Ht).
  cbn [ExpensesPage.calculatedSplitDetails ExpensesPage.currentTotal app] in *.
  rewrite Ht in Hgt. fold (num_sum (map valueNumOf rows)) in Hgt.
  assert (Hnn : Forall notNegative (map valueNumOf rows)).
  { apply Forall_map. eapply Forall_impl; [ | exact Hrows].
    intros r. apply rowPasses_notNegative. }
  assert (Hzero : notNegative zero) by apply Qcle_refl.
  destruct (notNegative_sum _ _ Hzero Hnn) as [Hsum Hfin].
  fold (num_sum (map valueNumOf rows)) in Hsum, Hfin.
  destruct (not_far_finite _ _ Hsum Hgt) as [Hf Hwithin].
  split; [exact Hd | ]. split; [ | split; [ | exact Hwithin]].
  - eapply Forall_impl; [ | exact Hrows]. intros r (Hv & _). exact Hv.
  - destruct (Hfin Hf) as [_ Hall]. rewrite Forall_map in Hall, Hnn.
    apply Forall_forall. intros r Hr. rewrite Forall_forall in Hall, Hnn.
    specialize (Hall r Hr). specialize (Hnn r Hr). split; [exact Hall | ].
    unfold nonneg, zero. destruct (valueNumOf r); try contradiction.
    exact Hnn.
Qed.

(** X23: when a custom split in percentage mode passes the validation,
    no field was empty, every percentage is a finite number from 0 to
    100, the percentages, added from 0 in the order of the rows, give
    a total that the code's test finds within 0.01 of 100, and each
    stored amount is [amount * percentage / 100], computed in binary64
    and rounded to cents by [toFixed(2)]. *)
Theorem accepted_percentage_splits (amountNum : num)
    (rows : list ExpensesPage.MemberSplitValue) :
  ExpensesPage.validationPassed
    (ExpensesPage.validateSplits ExpensesPage.percentage amountNum rows)
    = true ->
  ExpensesPage.calculatedSplitDetails
    (ExpensesPage.validateSplits ExpensesPage.percentage amountNum rows)
    = map (fun r =>
             (ExpensesPage.member r,
              roundToCents (num_div (num_mul amountNum (valueNumOf r))
                              ExpensesPage.hundred))) rows /\
  Forall (fun r => ExpensesPage.value r <> "" /\
                   exists p, valueNumOf r = Fin p /\
                             Qcle (qz 0) p /\ Qcle p (qz 100)) rows /\
  withinCent (num_sum (map valueNumOf rows)) ExpensesPage.hundred.
Proof.
  unfold ExpensesPage.validateSplits. intros Hpassed.
  destruct (checkTotal_passed _ _ _ Hpassed) as [Heq Hgt]. rewrite Heq in *.
  clear Heq.
  destruct (splitLoop_passed _ _ _ _ _ Hpassed) as (_ & Hrows & Hd & Ht).
  cbn [ExpensesPage.calculatedSplitDetails ExpensesPage.currentTotal app] in *.
  rewrite Ht in Hgt. fold (num_sum (map valueNumOf rows)) in Hgt.
  assert (Hnn : Forall notNegative (map valueNumOf rows)).
  { apply Forall_map. eapply Forall_impl; [ | exact Hrows].
    intros r. apply rowPasses_notNegative. }
  assert (Hzero : notNegative zero) by apply Qcle_refl.
  destruct (notNegative_sum _ _ Hzero Hnn) as [Hsum Hfin].
  fold (num_sum (map valueNumOf rows)) in Hsum, Hfin.
  destruct (not_far_finite _ _ Hsum Hgt) as [Hf Hwithin].
  split; [exact Hd | ]. split; [ | exact Hwithin].
  destruct (Hfin Hf) as [_ Hall]. rewrite Forall_map in Hall, Hnn.
  apply Forall_forall. intros r Hr. rewrite Forall_forall in Hall, Hnn, Hrows.
  specialize (Hall r Hr). specialize (Hnn r Hr).
  destruct (Hrows r Hr) as (Hv & _ & Hover). split; [exact Hv | ].
  specialize (Hover eq_refl).
  destruct (valueNumOf r) as [p | | | ]; try contradiction.
  exists p. split; [reflexivity | ]. split; [exact Hnn | ].
  unfold ExpensesPage.hundred in Hover. cbn [num_gt] in Hover.
  apply Qcle_alt. intros Hc. rewrite Hc in Hover. discriminate Hover.
Qed.

Example thirds_in_percent :
  ExpensesPage.validateSplits ExpensesPage.percentage (Fin (qz 10))
    [ExpensesPage.mkMemberSplitValue "Alice" "33.33";
     ExpensesPage.mkMemberSplitValue "Bob" "33.33";
     ExpensesPage.mkMemberSplitValue "Carol" "33.34"] =
  ExpensesPage.mkValidation
    [("Alice", parseFloat "3.33"); ("Bob", parseFloat "3.33");
     ("Carol", parseFloat "3.33")]
    (Fin (qz 100)) true [] None.
Proof. qc_eval. Qed.

Example empty_field_rejected :
  ExpensesPage.validateSplits ExpensesPage.amountMode (Fin (qz 10))
    [ExpensesPage.mkMemberSplitValue "Alice" "10";
     ExpensesPage.mkMemberSplitValue "Bob" ""] =
  ExpensesPage.mkValidation [("Alice", Fin (qz 10))] (Fin (qz 10)) false
    [(1%nat, "Invalid input")] None.
Proof. qc_eval. Qed.

Lemma accepted_amount_splits_witness :
  ExpensesPage.validationPassed
    (ExpensesPage.validateSplits ExpensesPage.amountMode (Fin (qz 10))
       [ExpensesPage.mkMemberSplitValue "Alice" "4";
        ExpensesPage.mkMemberSplitValue "Bob" "6."]) = true /\
  withinCent
    (num_sum (map valueNumOf
                [ExpensesPage.mkMemberSplitValue "Alice" "4";
                 ExpensesPage.mkMemberSplitValue "Bob" "6."]))
    (Fin (qz 10)).
Proof.
  assert (H : ExpensesPage.validationPassed
    (ExpensesPage.validateSplits ExpensesPage.amountMode (Fin (qz 10))
       [ExpensesPage.mkMemberSplitValue "Alice" "4";
        ExpensesPage.mkMemberSplitValue "Bob" "6."]) = true)
    by (vm_compute; reflexivity).
  split; [exact H | ].
  exact (proj2 (proj2 (proj2
    (accepted_amount_splits (qz 10)
       [ExpensesPage.mkMemberSplitValue "Alice" "4";
        ExpensesPage.mkMemberSplitValue "Bob" "6."] H)))).
Defined.

Lemma accepted_percentage_splits_witness :
  ExpensesPage.validationPassed
    (ExpensesPage.validateSplits ExpensesPage.percentage (Fin (qz 10))
       [ExpensesPage.mkMemberSplitValue "Alice" "40";
        ExpensesPage.mkMemberSplitValue "Bob" "60"]) = true /\
  withinCent
    (num_sum (map valueNumOf
                [ExpensesPage.mkMemberSplitValue "Alice" "40";
                 ExpensesPage.mkMemberSplitValue "Bob" "60"]))
    ExpensesPage.hundred.
Proof.
  assert (H : ExpensesPage.validationPassed
    (ExpensesPage.validateSplits ExpensesPage.percentage (Fin (qz 10))
       [ExpensesPage.mkMemberSplitValue "Alice" "40";
        ExpensesPage.mkMemberSplitValue "Bob" "60"]) = true)
    by (vm_compute; reflexivity).
  split; [exact H | ].
  exact (proj2 (proj2
    (accepted_percentage_splits (Fin (qz 10))
       [ExpensesPage.mkMemberSplitValue "Alice" "40";
        ExpensesPage.mkMemberSplitValue "Bob" "60"] H))).
Defined.

Section SubmitFacts.

Import ExpensesPage.

Local Open Scope Qc_scope.

Lemma positive_amount (a : num) :
  isNaN a || num_leb a zero = false -> num_gt a zero = true.
Proof.
  unfold num_leb, num_lt, num_seq, zero.
  destruct a as [q | | | ]; cbn [isNaN orb num_gt num_sne negb];
    try reflexivity; try discriminate.
  rewrite negb_involutive.
  destruct (Qccompare q (qz 0)) eqn:Hc.
  - apply Qceq_alt in Hc. subst q. rewrite Qc_eq_bool_refl, orb_true_r.
    intros H. discriminate H.
  - apply Qclt_alt in Hc.
    replace (Qccompare (qz 0) q) with Gt
      by (symmetry; apply Qcgt_alt; exact Hc).
    intros H. discriminate H.
  - reflexivity.
Qed.

Lemma setValue_members (index : nat) (v : string)
    (rows rows' : list MemberSplitValue) :
  setValue index v rows = Some rows' ->
  map member rows' = map member rows /\
  (index < length rows)%nat /\
  forall P : MemberSplitValue -> Prop,
    (forall m, P (mkMemberSplitValue m v)) -> Forall P rows -> Forall P rows'.
Proof.
  revert index rows'. induction rows as [ | r rows IH]; intros index rows';
    destruct index as [ | i]; cbn [setValue]; try discriminate.
  - intros [= <-]. cbn [map member length]. split; [reflexivity | ].
    split; [lia | ]. intros P Hv Hall. inversion Hall; subst.
    constructor; [apply Hv | assumption].
  - destruct (setValue i v rows) as [rest | ] eqn:Hset; [ | discriminate].
    intros [= <-]. destruct (IH _ _ Hset) as (Hm & Hlen & HP).
    cbn [map length]. split; [rewrite Hm; reflexivity | ].
    split; [lia | ]. intros P Hv Hall. inversion Hall; subst.
    constructor; [assumption | apply HP; assumption].
Qed.

End SubmitFacts.



(** X25: [handleSubmit] sends a row only for a logged-in user, with a
    group, a title and a payer that are not empty and an amount that
    is greater than 0; an equal split is sent without split details, a
    custom split only when its validation passed, with the details the

    validation computed. *)
Theorem inserted_expense (form : ExpensesPage.Form)
    (d : ExpensesPage.ExpenseData) :
  ExpensesPage.handleSubmit form = ExpensesPage.Insert d ->
  ExpensesPage.user form = Some (ExpensesPage.created_by d) /\
  ExpensesPage.selectedGroup form <> "" /\ ExpensesPage.title form <> "" /\
  ExpensesPage.paidBy form <> "" /\
  ExpensesPage.group_id d = ExpensesPage.selectedGroup form /\
  ExpensesPage.data_title d = ExpensesPage.title form /\
  ExpensesPage.paid_by d = ExpensesPage.paidBy form /\
  ExpensesPage.split_type d = ExpensesPage.splitType form /\
  ExpensesPage.data_amount d =
    orZero (parseFloat (ExpensesPage.amount form)) /\
  num_gt (ExpensesPage.data_amount d) zero = true /\
  match ExpensesPage.splitType form with
  | equal => ExpensesPage.split_details d = None
  | custom =>
      let v := ExpensesPage.validateSplits (ExpensesPage.splitMode form)
                 (ExpensesPage.data_amount d) (ExpensesPage.customSplits form) in
      ExpensesPage.validationPassed v = true /\
      ExpensesPage.split_details d =
        Some (ExpensesPage.calculatedSplitDetails v)
  end.
Proof.
  unfold ExpensesPage.handleSubmit.
  destruct (ExpensesPage.user form) as [uid | ]; [ | discriminate].
  destruct (String.eqb_spec (ExpensesPage.selectedGroup form) "") as [ | Hg];
    [discriminate | ].
  destruct (String.eqb_spec (ExpensesPage.title form) "") as [ | Ht];
    [discriminate | ].
  destruct (String.eqb (ExpensesPage.amount form) ""); [discriminate | ].
  destruct (String.eqb_spec (ExpensesPage.paidBy form) "") as [ | Hp];
    [discriminate | ].
  cbn [orb].
  destruct (isNaN _ || num_leb _ zero) eqn:Hamount; [discriminate | ].
  apply positive_amount in Hamount.
  destruct (ExpensesPage.splitType form).
  - intros [= <-]. cbn. repeat split; assumption.
  - destruct (ExpensesPage.validationPassed _) eqn:Hv; cbn [negb];
      [ | discriminate].
    intros [= <-]. cbn. repeat split; assumption.
Qed.

Lemma inserted_expense_witness :
  ExpensesPage.handleSubmit
    (ExpensesPage.mkForm (Some "u1") "g1" "Dinner" "30" "Alice" equal
       ExpensesPage.amountMode []) =
  ExpensesPage.Insert
    (ExpensesPage.mkExpenseData "g1" "Dinner" (orZero (parseFloat "30"))
       "Alice" equal None "u1") /\
  num_gt (orZero (parseFloat "30")) zero = true.
Proof.
  assert (H : ExpensesPage.handleSubmit
    (ExpensesPage.mkForm (Some "u1") "g1" "Dinner" "30" "Alice" equal
       ExpensesPage.amountMode []) =
  ExpensesPage.Insert
    (ExpensesPage.mkExpenseData "g1" "Dinner" (orZero (parseFloat "30"))
       "Alice" equal None "u1")) by (vm_compute; reflexivity).
  split; [exact H | ].
  exact (proj1 (proj2 (proj2 (proj2 (proj2 (proj2 (proj2 (proj2 (proj2
    (proj2 (inserted_expense _ _ H))))))))))).
Defined.

Section Cents.

Local Open Scope Qc_scope.

(** Ten to the 21, rounded to cents and a cent more, is far below
    [Number.MAX_VALUE]. *)
Lemma cents_bounded : qz (10 ^ 21 + 1) <= maxValue.
Proof. vm_compute. discriminate. Qed.


End Cents.


(** An eighth is stored as the binary64 number nearest to 0.13, which
    is not 13 / 100. *)
Example eighth_to_cents :
  roundToCents (Fin (Q2Qc (1 # 8))) = parseFloat "0.13" /\
  num_eqb (parseFloat "0.13") (Fin (Q2Qc (13 # 100))) = false /\
  roundToCents (num_div (num_mul (parseFloat "2.01") (Fin (qz 50)))
                  ExpensesPage.hundred) = Fin (qz 1).
Proof. split; [ | split]; qc_eval. Qed.

(** X27: a personal expense is sent only for a logged-in user, with a
    category that is not empty and an amount, read by [parseFloat],
    that is greater than 0. *)
Theorem inserted_personal_expense (user : option string)
    (title amount category : string) (t : string) (a : num)
    (c uid : string) :
  PersonalExpensesPage.handleSubmit user title amount category =
    PersonalExpensesPage.Insert t a c uid ->
  user = Some uid /\ t = title /\ c = category /\ category <> "" /\
  a = parseFloat amount /\ num_gt a zero = true.
Proof.
  unfold PersonalExpensesPage.handleSubmit.
  destruct user as [u | ]; [ | discriminate].
  destruct (isNaN _ || num_leb _ zero) eqn:Hamount; [discriminate | ].
  apply positive_amount in Hamount.
  destruct (String.eqb_spec category "") as [ | Hc]; [discriminate | ].
  intros [= <- <- <- <-]. repeat split; assumption.
Qed.

Lemma inserted_personal_expense_witness :
  PersonalExpensesPage.handleSubmit (Some "u1") "Lunch" "12.50" "Food" =
    PersonalExpensesPage.Insert "Lunch" (parseFloat "12.50") "Food" "u1" /\
  num_gt (parseFloat "12.50") zero = true.
Proof.
  assert (H : PersonalExpensesPage.handleSubmit (Some "u1") "Lunch" "12.50"
                "Food" =
              PersonalExpensesPage.Insert "Lunch" (parseFloat "12.50") "Food"
                "u1") by (vm_compute; reflexivity).
  split; [exact H | ].
  exact (proj2 (proj2 (proj2 (proj2 (proj2
    (inserted_personal_expense _ _ _ _ _ _ _ _ H)))))).
Defined.

(** * The arithmetic of Number *)

(** On the sample pairs, [+], [*] and [/] agree with the reference
    implementation of IEEE 754 binary64 of the Standard Library. *)
Example agrees_with_reference :
  forallb (agrees (SFadd 53 1024) num_add) referencePairs = true /\
  forallb (agrees (SFmul 53 1024) num_mul) referencePairs = true /\
  forallb (agrees (SFdiv 53 1024) num_div) referencePairs = true.
Proof. split; [ | split]; vm_compute; reflexivity. Qed.

(** Sums are rounded at every step, large sums overflow and small
    texts underflow. *)
Example binary64_samples :
  num_sum [parseFloat "0.1"; parseFloat "0.2"; parseFloat "0.3"] =
    parseFloat "0.6000000000000001" /\
  num_add (parseFloat "1e308") (parseFloat "1e308") = PInf /\
  parseFloat "1e-400" = zero /\
  parseFloat (String "2" (zeros 308)) = PInf /\
  ExpensesPage.decimalPattern (String "2" (zeros 308)) = true.
Proof. repeat (split; [qc_eval | ]). qc_eval. Qed.

(** The order of the additions shows in the balances: 0.07 and twice
    the share of 0.01 over three members give 0.07666666666666666,
    which is not the number 0.07 plus two shares added at once. *)
Example cents_in_order :
  balances "Alice" [sevenCents; oneCent] =
    [("Bob", parseFloat "0.07666666666666666")] /\
  num_eqb (parseFloat "0.07666666666666666")
    (num_add (Fin (decimal "0.07"))
       (num_mul (Fin (qz 2)) (shareOf oneCent))) = false.
Proof. split; qc_eval. Qed.

(** The totals of the categories need not add up to the total of all
    expenses. *)
Example category_totals_differ :
  PersonalExpensesPage.categorySummaries [groceries; flight; snack] =
    [("Food", parseFloat "35.48"); ("Travel", parseFloat "79.32")] /\
  num_sum (values
    (PersonalExpensesPage.categorySummaries [groceries; flight; snack])) =
    parseFloat "114.79999999999998" /\
  PersonalExpensesPage.totalExpenses [groceries; flight; snack] =
    parseFloat "114.8".
Proof. split; [ | split]; qc_eval. Qed.
